(** * A small-step model of [ngp::ThreadPool] (src/gui/src/thread_pool.cpp)

    The pool is used by one owning thread, which constructs it, calls its
    member functions and destroys it, and by the worker threads the pool
    spawns.  Every numbered source line that touches shared data is one
    atomic step of the thread that executes it; an execution is an
    interleaving of such steps, chosen by a schedule.  Program counters are
    named after the source line they stand on. *)

From stdpp Require Import base numbers option list.

Local Open Scope Z_scope.

(** ** Machine integers *)

(** [size_t] is 64 bits wide and [unsigned] (the type of the literal [0u])
    is 32 bits wide on the LP64 and LLP64 platforms the project builds for. *)
Definition size_t_max : Z := 2 ^ 64.
Definition unsigned_max : Z := 2 ^ 32.

Definition size_t_wrap (x : Z) : Z := x mod size_t_max.
Definition unsigned_wrap (x : Z) : Z := x mod unsigned_max.

Global Arguments size_t_max : simpl never.
Global Arguments unsigned_max : simpl never.
Global Arguments size_t_wrap : simpl never.
Global Arguments unsigned_wrap : simpl never.

(** ** Data *)

(** A task is a [std::function<void()>]; its body is opaque to the pool, so
    a task is represented by a label. *)
Definition task : Type := nat.

Inductive tid : Type :=
  | TOwner
  | TWorker (w : nat).

(** Where a worker thread stands in the lambda of lines 46-70. *)
Inductive wpc : Type :=
  | WAcquire                 (* 48: constructing the unique_lock *)
  | WLoopTest                (* 51: condition of the inner while *)
  | WNotify                  (* 54: m_task_queue_completed_condition.notify_all() *)
  | WWaitRelease             (* 55: m_worker_condition.wait(lock), about to sleep *)
  | WAsleep                  (* 55: asleep inside wait, mutex released *)
  | WWoken                   (* 55: woken inside wait, re-acquiring the mutex *)
  | WExitTest                (* 58: if (i >= m_num_threads) *)
  | WPop                     (* 62-63: front() and pop_front() *)
  | WUnlock (t : task)       (* 66: lock.unlock() *)
  | WCall (t : task)         (* 68: about to call task() *)
  | WRunning (t : task)      (* 68: inside task() *)
  | WFinished                (* the lambda has returned; the thread is joinable *)
  | WJoined.                 (* join() on the thread has returned *)

#[global] Instance tid_eq_dec : EqDecision tid.
Proof. solve_decision. Defined.

#[global] Instance wpc_eq_dec : EqDecision wpc.
Proof. solve_decision. Defined.

(** A spawned thread: the index [i] captured by the lambda, and its
    program counter. *)
Record worker : Type := Worker { w_index : Z; w_pc : wpc }.

(** Where the owning thread stands. *)
Inductive cpc : Type :=
  | CFresh                           (* the object is not constructed yet *)
  | CIdle                            (* between two member-function calls *)
  | CCtor32 (max_num_threads : Z) (force : bool)
  | CStart44 (num : Z)
  | CStart45_init
  | CStart45 (i : Z)
  | CStart46 (i : Z)
  | CShut75 (num : Z)
  | CShut78 (num_to_close : Z)
  | CShut79 (num_to_close : Z)
  | CShut80 (num_to_close : Z)
  | CShut83 (num_to_close : Z)
  | CShut84 (num_to_close i : Z)
  | CShut85 (num_to_close i : Z)
  | CShut86 (num_to_close i : Z)
  | CSet91 (num : Z)
  | CWait99
  | CWait100
  | CWait100_asleep
  | CWait100_woken
  | CWait101
  | CFlush104
  | CFlush105
  | CFlush106
  | CSubmitLock (t : task)
  | CSubmitPush (t : task)
  | CSubmitUnlock (t : task)
  | CSubmitNotify (t : task)
  | CDtor39
  | CDtor40
  | CDtor41
  | CDestroyed.

(** The members of [ThreadPool], the threads it has spawned, and the owning
    thread.  [m_threads] holds thread handles; a handle is the identity of
    the thread it stands for, which is its position in [workers]. *)
Record state : Type := State {
  hardware_concurrency : Z;
  m_num_threads : Z;
  m_threads : list nat;
  m_task_queue : list task;
  m_task_queue_mutex : option tid;
  workers : list worker;
  o_pc : cpc;
  o_ret : list cpc
}.

(** Modelled from the spec: the header that declares the members and their
    initial values is not part of the sources at hand.  Section 3 of the
    specification has the pool created with the target count of the workers
    its constructor spawns, which lines 44-45 give when [m_num_threads]
    starts at zero; the containers are default-constructed, hence empty. *)
Definition fresh (hc : Z) : state :=
  {| hardware_concurrency := unsigned_wrap hc;
     m_num_threads := 0;
     m_threads := [];
     m_task_queue := [];
     m_task_queue_mutex := None;
     workers := [];
     o_pc := CFresh;
     o_ret := [] |}.

(** ** Observations *)

Inductive var : Type := VNum | VQueue.

Inductive event : Type :=
  | EvWrite (who : tid) (x : var) (holder : option tid)
  | EvSpawn (id : nat) (i : Z)
  | EvExit (id : nat)
  | EvJoin (id : nat)
  | EvSubmit (t : task)
  | EvDequeue (w : nat) (t : task)
  | EvFlush (ts : list task)
  | EvStart (w : nat) (t : task).

Inductive result : Type :=
  | Next (s : state) (evs : list event)
  | Blocked
  | Fault.

(** ** Field updates *)

Definition set_num (n : Z) (s : state) : state :=
  {| hardware_concurrency := hardware_concurrency s; m_num_threads := n;
     m_threads := m_threads s; m_task_queue := m_task_queue s;
     m_task_queue_mutex := m_task_queue_mutex s; workers := workers s;
     o_pc := o_pc s; o_ret := o_ret s |}.

Definition set_threads (l : list nat) (s : state) : state :=
  {| hardware_concurrency := hardware_concurrency s; m_num_threads := m_num_threads s;
     m_threads := l; m_task_queue := m_task_queue s;
     m_task_queue_mutex := m_task_queue_mutex s; workers := workers s;
     o_pc := o_pc s; o_ret := o_ret s |}.

Definition set_queue (q : list task) (s : state) : state :=
  {| hardware_concurrency := hardware_concurrency s; m_num_threads := m_num_threads s;
     m_threads := m_threads s; m_task_queue := q;
     m_task_queue_mutex := m_task_queue_mutex s; workers := workers s;
     o_pc := o_pc s; o_ret := o_ret s |}.

Definition set_mutex (m : option tid) (s : state) : state :=
  {| hardware_concurrency := hardware_concurrency s; m_num_threads := m_num_threads s;
     m_threads := m_threads s; m_task_queue := m_task_queue s;
     m_task_queue_mutex := m; workers := workers s;
     o_pc := o_pc s; o_ret := o_ret s |}.

Definition set_workers (ws : list worker) (s : state) : state :=
  {| hardware_concurrency := hardware_concurrency s; m_num_threads := m_num_threads s;
     m_threads := m_threads s; m_task_queue := m_task_queue s;
     m_task_queue_mutex := m_task_queue_mutex s; workers := ws;
     o_pc := o_pc s; o_ret := o_ret s |}.

Definition set_pc (pc : cpc) (s : state) : state :=
  {| hardware_concurrency := hardware_concurrency s; m_num_threads := m_num_threads s;
     m_threads := m_threads s; m_task_queue := m_task_queue s;
     m_task_queue_mutex := m_task_queue_mutex s; workers := workers s;
     o_pc := pc; o_ret := o_ret s |}.

Definition set_ret (k : list cpc) (s : state) : state :=
  {| hardware_concurrency := hardware_concurrency s; m_num_threads := m_num_threads s;
     m_threads := m_threads s; m_task_queue := m_task_queue s;
     m_task_queue_mutex := m_task_queue_mutex s; workers := workers s;
     o_pc := o_pc s; o_ret := k |}.

Definition set_wpc (w : nat) (wk : worker) (pc : wpc) (s : state) : state :=
  set_workers (<[w := Worker (w_index wk) pc]> (workers s)) s.

(** ** Condition variables *)

(** [m_worker_condition.notify_all()]: every sleeping worker is woken. *)
Definition wake (wk : worker) : worker :=
  match w_pc wk with
  | WAsleep => Worker (w_index wk) WWoken
  | _ => wk
  end.

Definition notify_all_workers (s : state) : state :=
  set_workers (wake <$> workers s) s.

(** [m_worker_condition.notify_one()]: one sleeping worker, if any, is woken. *)
Fixpoint wake_one (ws : list worker) : list worker :=
  match ws with
  | [] => []
  | wk :: ws' =>
      match w_pc wk with
      | WAsleep => Worker (w_index wk) WWoken :: ws'
      | _ => wk :: wake_one ws'
      end
  end.

(** [m_task_queue_completed_condition.notify_all()]: only the owner ever
    waits on this condition. *)
Definition notify_all_completed (s : state) : state :=
  match o_pc s with
  | CWait100_asleep => set_pc CWait100_woken s
  | _ => s
  end.

(** ** The owning thread *)

(** Returning from a member function resumes the caller, or leaves the
    owner idle when the call came from outside. *)
Definition ret (s : state) : state :=
  match o_ret s with
  | [] => set_pc CIdle s
  | k :: ks => set_pc k (set_ret ks s)
  end.

(** Locking the mutex blocks while another thread holds it. *)
Definition lock (who : tid) (k : state -> result) (s : state) : result :=
  match m_task_queue_mutex s with
  | None => k (set_mutex (Some who) s)
  | Some _ => Blocked
  end.

(** Modelled from the spec: the submission operation is declared in the
    header, which is not part of the sources at hand.  Following section 4.9
    of the specification it appends the task to the tail of the queue under
    the mutex, and then wakes one worker through the work-or-shutdown
    condition. *)
Definition submit_step (s : state) : result :=
  match o_pc s with
  | CSubmitLock t =>
      lock TOwner (fun s' => Next (set_pc (CSubmitPush t) s') []) s
  | CSubmitPush t =>
      Next (set_pc (CSubmitUnlock t) (set_queue (m_task_queue s ++ [t]) s))
           [EvWrite TOwner VQueue (m_task_queue_mutex s); EvSubmit t]
  | CSubmitUnlock t =>
      Next (set_pc (CSubmitNotify t) (set_mutex None s)) []
  | CSubmitNotify t =>
      Next (ret (set_workers (wake_one (workers s)) s)) []
  | _ => Blocked
  end.

Definition owner_step (s : state) : result :=
  match o_pc s with
  | CFresh | CIdle | CDestroyed => Blocked
  (* ThreadPool::ThreadPool(size_t max_num_threads, bool force) *)
  | CCtor32 max_num_threads force =>
      let n := if force then max_num_threads
               else Z.min (hardware_concurrency s) max_num_threads in
      Next (set_pc (CStart44 n) s) []
  (* ThreadPool::start_threads(size_t num) *)
  | CStart44 num =>
      Next (set_pc CStart45_init (set_num (size_t_wrap (m_num_threads s + num)) s))
           [EvWrite TOwner VNum (m_task_queue_mutex s)]
  | CStart45_init =>
      Next (set_pc (CStart45 (Z.of_nat (length (m_threads s)))) s) []
  | CStart45 i =>
      if i <? m_num_threads s then Next (set_pc (CStart46 i) s) []
      else Next (ret s) []
  | CStart46 i =>
      let id := length (workers s) in
      Next (set_pc (CStart45 (size_t_wrap (i + 1)))
              (set_threads (m_threads s ++ [id])
                 (set_workers (workers s ++ [Worker i WAcquire]) s)))
           [EvSpawn id i]
  (* ThreadPool::shutdown_threads(size_t num) *)
  | CShut75 num =>
      Next (set_pc (CShut78 (Z.min num (m_num_threads s))) s) []
  | CShut78 k =>
      lock TOwner (fun s' => Next (set_pc (CShut79 k) s') []) s
  | CShut79 k =>
      Next (set_pc (CShut80 k) (set_num (size_t_wrap (m_num_threads s - k)) s))
           [EvWrite TOwner VNum (m_task_queue_mutex s)]
  | CShut80 k =>
      Next (set_pc (CShut83 k) (set_mutex None s)) []
  | CShut83 k =>
      Next (set_pc (CShut84 k 0) (notify_all_workers s)) []
  | CShut84 k i =>
      if i <? k then Next (set_pc (CShut85 k i) s) []
      else Next (ret s) []
  | CShut85 k i =>
      match last (m_threads s) with
      | None => Fault                      (* back() of an empty vector *)
      | Some id =>
          match workers s !! id with
          | None => Fault
          | Some wk =>
              match w_pc wk with
              | WFinished =>
                  Next (set_pc (CShut86 k i) (set_wpc id wk WJoined s)) [EvJoin id]
              | WJoined => Fault           (* join() of a thread that is not joinable *)
              | _ => Blocked               (* join() waits for the thread to finish *)
              end
          end
      end
  | CShut86 k i =>
      match last (m_threads s) with
      | None => Fault                      (* pop_back() of an empty vector *)
      | Some id =>
          match w_pc <$> workers s !! id with
          | Some WJoined =>
              Next (set_pc (CShut84 k (unsigned_wrap (i + 1)))
                      (set_threads (removelast (m_threads s)) s)) []
          | _ => Fault                     (* destroying a joinable std::thread *)
          end
      end
  (* ThreadPool::set_n_threads(size_t num) *)
  | CSet91 num =>
      if m_num_threads s >? num
      then Next (set_pc (CShut75 (size_t_wrap (m_num_threads s - num))) s) []
      else if m_num_threads s <? num
      then Next (set_pc (CStart44 (size_t_wrap (num - m_num_threads s))) s) []
      else Next (ret s) []
  (* ThreadPool::wait_until_queue_completed() *)
  | CWait99 =>
      lock TOwner (fun s' => Next (set_pc CWait100 s') []) s
  | CWait100 =>
      match m_task_queue s with
      | [] => Next (set_pc CWait101 s) []
      | _ :: _ => Next (set_pc CWait100_asleep (set_mutex None s)) []
      end
  | CWait100_asleep => Blocked
  | CWait100_woken =>
      lock TOwner (fun s' => Next (set_pc CWait100 s') []) s
  | CWait101 =>
      Next (ret (set_mutex None s)) []
  (* ThreadPool::flush_queue() *)
  | CFlush104 =>
      lock TOwner (fun s' => Next (set_pc CFlush105 s') []) s
  | CFlush105 =>
      Next (set_pc CFlush106 (set_queue [] s))
           [EvWrite TOwner VQueue (m_task_queue_mutex s); EvFlush (m_task_queue s)]
  | CFlush106 =>
      Next (ret (set_mutex None s)) []
  (* submission *)
  | CSubmitLock _ | CSubmitPush _ | CSubmitUnlock _ | CSubmitNotify _ =>
      submit_step s
  (* ThreadPool::~ThreadPool() *)
  | CDtor39 =>
      Next (set_pc CWait99 (set_ret (CDtor40 :: o_ret s) s)) []
  | CDtor40 =>
      Next (set_pc (CShut75 (Z.of_nat (length (m_threads s))))
              (set_ret (CDtor41 :: o_ret s) s)) []
  | CDtor41 =>
      match m_threads s with
      | [] => Next (set_pc CDestroyed s) []
      | _ :: _ => Fault                    (* destroying a joinable std::thread *)
      end
  end.

(** Modelled from the spec: the default argument of [force] is declared in
    the header, which is not part of the sources at hand; section 4.1 of the
    specification gives [force=false]. *)
Definition force_default : bool := false.

(** The member functions the owner can call; [OpSubmit] is the submission
    operation of [submit_step]. *)
Inductive op : Type :=
  | OpNew
  | OpNewN (max_num_threads : Z) (force : bool)
  | OpDelete
  | OpStart (num : Z)
  | OpShutdown (num : Z)
  | OpSetN (num : Z)
  | OpWait
  | OpFlush
  | OpSubmit (t : task).

(** Entering a member function.  Arguments of type [size_t] are converted
    on entry. *)
Definition call (o : op) (s : state) : result :=
  match o_pc s, o with
  | CFresh, OpNew =>
      (* line 29: delegates with the hardware concurrency *)
      Next (set_pc (CCtor32 (hardware_concurrency s) force_default) s) []
  | CFresh, OpNewN n force => Next (set_pc (CCtor32 (size_t_wrap n) force) s) []
  | CIdle, OpDelete => Next (set_pc CDtor39 s) []
  | CIdle, OpStart num => Next (set_pc (CStart44 (size_t_wrap num)) s) []
  | CIdle, OpShutdown num => Next (set_pc (CShut75 (size_t_wrap num)) s) []
  | CIdle, OpSetN num => Next (set_pc (CSet91 (size_t_wrap num)) s) []
  | CIdle, OpWait => Next (set_pc CWait99 s) []
  | CIdle, OpFlush => Next (set_pc CFlush104 s) []
  | CIdle, OpSubmit t => Next (set_pc (CSubmitLock t) s) []
  | _, _ => Blocked
  end.

(** ** A worker thread (lines 46-70) *)

Definition worker_step (w : nat) (s : state) : result :=
  match workers s !! w with
  | None => Blocked
  | Some wk =>
      let i := w_index wk in
      match w_pc wk with
      | WAcquire =>
          lock (TWorker w) (fun s' => Next (set_wpc w wk WLoopTest s') []) s
      | WLoopTest =>
          if (i <? m_num_threads s) && bool_decide (m_task_queue s = [])
          then Next (set_wpc w wk WNotify s) []
          else Next (set_wpc w wk WExitTest s) []
      | WNotify =>
          Next (set_wpc w wk WWaitRelease (notify_all_completed s)) []
      | WWaitRelease =>
          Next (set_wpc w wk WAsleep (set_mutex None s)) []
      | WAsleep => Blocked
      | WWoken =>
          lock (TWorker w) (fun s' => Next (set_wpc w wk WLoopTest s') []) s
      | WExitTest =>
          if i >=? m_num_threads s
          then Next (set_wpc w wk WFinished (set_mutex None s)) [EvExit w]
          else Next (set_wpc w wk WPop s) []
      | WPop =>
          match m_task_queue s with
          | [] => Fault                    (* front() of an empty deque *)
          | t :: q =>
              Next (set_wpc w wk (WUnlock t) (set_queue q s))
                   [EvWrite (TWorker w) VQueue (m_task_queue_mutex s); EvDequeue w t]
          end
      | WUnlock t =>
          Next (set_wpc w wk (WCall t) (set_mutex None s)) []
      | WCall t =>
          Next (set_wpc w wk (WRunning t) s) [EvStart w t]
      | WRunning t =>
          Next (set_wpc w wk WAcquire s) []
      | WFinished | WJoined => Blocked
      end
  end.

(** A condition variable may wake a waiter without a notification. *)
Definition spurious_step (who : tid) (s : state) : result :=
  match who with
  | TOwner =>
      match o_pc s with
      | CWait100_asleep => Next (set_pc CWait100_woken s) []
      | _ => Blocked
      end
  | TWorker w =>
      match workers s !! w with
      | Some wk =>
          match w_pc wk with
          | WAsleep => Next (set_wpc w wk WWoken s) []
          | _ => Blocked
          end
      | None => Blocked
      end
  end.

(** ** Executions *)

Inductive action : Type :=
  | ACall (o : op)
  | AOwner
  | AWorker (w : nat)
  | ASpurious (who : tid).

Definition step (a : action) (s : state) : result :=
  match a with
  | ACall o => call o s
  | AOwner => owner_step s
  | AWorker w => worker_step w s
  | ASpurious who => spurious_step who s
  end.

(** Running a schedule: [None] when some action of the schedule is not
    enabled or faults. *)
Fixpoint run (sch : list action) (s : state) : option (state * list event) :=
  match sch with
  | [] => Some (s, [])
  | a :: sch' =>
      match step a s with
      | Next s' evs =>
          match run sch' s' with
          | Some (s'', tr) => Some (s'', evs ++ tr)
          | None => None
          end
      | _ => None
      end
  end.

(** ** Invariants of the executions *)

(** The program counters at which a thread holds [m_task_queue_mutex]. *)
Definition holds_w (pc : wpc) : bool :=
  match pc with
  | WLoopTest | WNotify | WWaitRelease | WExitTest | WPop | WUnlock _ => true
  | _ => false
  end.

Definition holds_o (pc : cpc) : bool :=
  match pc with
  | CShut79 _ | CShut80 _ | CWait100 | CWait101 | CFlush105 | CFlush106
  | CSubmitPush _ | CSubmitUnlock _ => true
  | _ => false
  end.

Definition in_wait (pc : cpc) : bool :=
  match pc with
  | CWait99 | CWait100 | CWait100_asleep | CWait100_woken | CWait101 => true
  | _ => false
  end.

Definition in_shutdown (pc : cpc) : bool :=
  match pc with
  | CShut75 _ | CShut78 _ | CShut79 _ | CShut80 _ | CShut83 _
  | CShut84 _ _ | CShut85 _ _ | CShut86 _ _ => true
  | _ => false
  end.

(** Only the destructor calls other member functions and resumes. *)
Definition stack_inv (s : state) : Prop :=
  o_ret s = [] ∨
  (o_ret s = [CDtor40] ∧ in_wait (o_pc s) = true) ∨
  (o_ret s = [CDtor41] ∧ in_shutdown (o_pc s) = true).

(** Mutual exclusion: the mutex records exactly the thread whose program
    counter lies in a locked region. *)
Definition workers_locked (ws : list worker) (m : option tid) : Prop :=
  (∀ w wk, ws !! w = Some wk → holds_w (w_pc wk) = true → m = Some (TWorker w)) ∧
  (∀ w, m = Some (TWorker w) →
        ∃ wk, ws !! w = Some wk ∧ holds_w (w_pc wk) = true).

Definition mutex_inv (s : state) : Prop :=
  stack_inv s ∧
  (m_task_queue_mutex s = Some TOwner ↔ holds_o (o_pc s) = true) ∧
  workers_locked (workers s) (m_task_queue_mutex s).

(** The integers in play stay in the range of their types, and the loop
    variable of [start_threads] is the size of [m_threads]. *)
Definition pc_range (s : state) : Prop :=
  let n := m_num_threads s in
  let sz := Z.of_nat (length (m_threads s)) in
  match o_pc s with
  | CCtor32 m _ | CStart44 m | CShut75 m | CSet91 m => 0 ≤ m < size_t_max
  | CStart45 i => i = sz
  | CStart46 i => i = sz ∧ i < n
  | CShut78 k | CShut79 k => 0 ≤ k ≤ n
  | CShut80 k | CShut83 k => 0 ≤ k < size_t_max
  | CShut84 k i | CShut85 k i | CShut86 k i =>
      0 ≤ k < size_t_max ∧ 0 ≤ i < unsigned_max
  | _ => True
  end.

Definition range_inv (s : state) : Prop :=
  0 ≤ m_num_threads s < size_t_max ∧
  0 ≤ hardware_concurrency s < unsigned_max ∧
  Z.of_nat (length (m_threads s)) < size_t_max ∧
  pc_range s.

(** The handles the pool still has to join: between [join()] at line 85
    and [pop_back()] at line 86 the last handle is already joined. *)
Definition popping (s : state) : bool :=
  match o_pc s with CShut86 _ _ => true | _ => false end.

Definition owned (s : state) : list nat :=
  if popping s then removelast (m_threads s) else m_threads s.

(** The thread behind the handle at position [p] captured the index [p];
    no thread has two handles; a thread has been joined exactly when the
    pool no longer owns a handle for it. *)
Definition table (ms ow : list nat) (ws : list worker) : Prop :=
  (∀ p id, ms !! p = Some id →
           ∃ wk, ws !! id = Some wk ∧ w_index wk = Z.of_nat p) ∧
  NoDup ms ∧
  (∀ id wk, ws !! id = Some wk → (w_pc wk = WJoined ↔ id ∉ ow)).

Definition table_inv (s : state) : Prop :=
  table (m_threads s) (owned s) (workers s) ∧
  (popping s = true → m_threads s ≠ []).

(** The threads joined in a trace, in the order of the joins. *)
Definition joins (tr : list event) : list nat :=
  omap (λ e, match e with EvJoin id => Some id | _ => None end) tr.

Definition spawns (tr : list event) : list nat :=
  omap (λ e, match e with EvSpawn id _ => Some id | _ => None end) tr.

Definition history_inv (tr : list event) (s : state) : Prop :=
  NoDup (joins tr) ∧
  (∀ id, id ∈ joins tr ↔ ∃ wk, workers s !! id = Some wk ∧ w_pc wk = WJoined) ∧
  spawns tr = seq 0 (length (workers s)).

(** While [shutdown_threads] is past line 79, a worker whose index is no
    longer below the target count is not about to go to sleep, and past the
    [notify_all] of line 83 it is not asleep either: the wake-up cannot be
    lost. *)
Definition wake_inv (s : state) : Prop :=
  ∀ w wk, workers s !! w = Some wk → m_num_threads s ≤ w_index wk →
    match o_pc s with
    | CShut80 _ | CShut83 _ => w_pc wk ≠ WNotify ∧ w_pc wk ≠ WWaitRelease
    | CShut84 _ _ | CShut85 _ _ | CShut86 _ _ =>
        w_pc wk ≠ WNotify ∧ w_pc wk ≠ WWaitRelease ∧ w_pc wk ≠ WAsleep
    | _ => True
    end.

(** What holds of every execution, whatever the arguments of the calls. *)
Definition inv (s : state) : Prop :=
  mutex_inv s ∧ range_inv s ∧ table_inv s ∧ wake_inv s.

(** [shutdown_threads] was called by the destructor, with the size of
    [m_threads]. *)
Definition closing_all (s : state) : Prop :=
  match o_pc s with
  | CShut75 num => num = Z.of_nat (length (m_threads s))
  | CShut78 k | CShut79 k => k = m_num_threads s
  | _ => m_num_threads s = 0
  end.

(** The number of handles against the target count.  The counts agree
    outside the two resizing functions; inside, they differ by what is left
    to do.  A call of [shutdown_threads] that closes 2^32 threads or more
    never leaves its loop, and nothing is said about it. *)
Definition count_inv (s : state) : Prop :=
  let n := m_num_threads s in
  let sz := Z.of_nat (length (m_threads s)) in
  match o_pc s with
  | CStart44 num => sz = n ∧ n + num < size_t_max
  | CStart45_init | CStart45 _ | CStart46 _ => sz ≤ n
  | CShut80 k | CShut83 k => sz = n + k
  | CShut84 k i => k < unsigned_max → i ≤ k ∧ sz = n + (k - i)
  | CShut85 k i | CShut86 k i => k < unsigned_max → i < k ∧ sz = n + (k - i)
  | CFresh | CCtor32 _ _ | CDtor41 | CDestroyed => sz = 0 ∧ n = 0
  | _ => sz = n
  end ∧
  (o_ret s = [CDtor41] → closing_all s).

(** A worker that is about to take a task finds one. *)
Definition pop_inv (s : state) : Prop :=
  ∀ w wk, workers s !! w = Some wk →
    match w_pc wk with
    | WPop => m_task_queue s ≠ []
    | WExitTest => m_num_threads s ≤ w_index wk ∨ m_task_queue s ≠ []
    | _ => True
    end.

(** What holds as long as no call of [start_threads] overflows the target
    count. *)
Definition good (s : state) : Prop :=
  inv s ∧ count_inv s ∧ pop_inv s.

(** A call fits when the addition at line 44 does not wrap around. *)
Definition fits (a : action) (s : state) : bool :=
  match a with
  | ACall (OpStart num) => m_num_threads s + size_t_wrap num <? size_t_max
  | _ => true
  end.

Fixpoint admissible (sch : list action) (s : state) : bool :=
  match sch with
  | [] => true
  | a :: sch' =>
      fits a s &&
      match step a s with
      | Next s' _ => admissible sch' s'
      | _ => true
      end
  end.

(** The owner is inside one of the three resizing member functions,
    [start_threads], [shutdown_threads] and [set_n_threads]. *)
Definition resizing (pc : cpc) : bool :=
  match pc with
  | CStart44 _ | CStart45_init | CStart45 _ | CStart46 _
  | CShut75 _ | CShut78 _ | CShut79 _ | CShut80 _ | CShut83 _
  | CShut84 _ _ | CShut85 _ _ | CShut86 _ _ | CSet91 _ => true
  | _ => false
  end.

(** A schedule in which the owner enters no member function. *)
Definition is_call (a : action) : bool :=
  match a with ACall _ => true | _ => false end.

Definition calls_free (sch : list action) : bool :=
  forallb (λ a, negb (is_call a)) sch.

(** [wait_until_queue_completed] is about to return. *)
Definition drained_inv (s : state) : Prop :=
  o_pc s = CWait101 → m_task_queue s = [].

(** [shutdown_threads] has executed line 79, up to its return to an idle
    owner. *)
Definition past79 (pc : cpc) : bool :=
  match pc with
  | CShut80 _ | CShut83 _ | CShut84 _ _ | CShut85 _ _ | CShut86 _ _ | CIdle => true
  | _ => false
  end.

(** The target count during a call [shutdown_threads(num)] entered with
    the target count [n0]. *)
Definition shut_num (n0 num : Z) (s : state) : Prop :=
  o_ret s = [] ∧
  match o_pc s with
  | CShut75 num' => num' = num ∧ m_num_threads s = n0
  | CShut78 k | CShut79 k => k = Z.min num n0 ∧ m_num_threads s = n0
  | CShut80 _ | CShut83 _ | CShut84 _ _ | CShut85 _ _ | CShut86 _ _ | CIdle =>
      m_num_threads s = n0 - Z.min num n0
  | _ => False
  end.

(** ** The order of the tasks *)

(** The tasks submitted, dequeued and started in a trace, each in the order
    of the events; the tasks that left the queue, by a dequeue or by a
    flush; the tasks a flush discarded. *)
Definition submitted (tr : list event) : list task :=
  omap (λ e, match e with EvSubmit t => Some t | _ => None end) tr.

Definition dequeued (tr : list event) : list task :=
  omap (λ e, match e with EvDequeue _ t => Some t | _ => None end) tr.

Definition started (tr : list event) : list task :=
  omap (λ e, match e with EvStart _ t => Some t | _ => None end) tr.

Definition left_queue (e : event) : list task :=
  match e with
  | EvDequeue _ t => [t]
  | EvFlush ts => ts
  | _ => []
  end.

Definition removed (tr : list event) : list task := tr ≫= left_queue.

Definition discarded_by (e : event) : list task :=
  match e with EvFlush ts => ts | _ => [] end.

Definition flushed (tr : list event) : list task := tr ≫= discarded_by.

(** The tasks workers have taken from the queue and not started yet. *)
Definition holding (wk : worker) : list task :=
  match w_pc wk with
  | WUnlock t | WCall t => [t]
  | _ => []
  end.

Definition in_hand (s : state) : list task := workers s ≫= holding.

Definition fifo_inv (tr : list event) (s : state) : Prop :=
  submitted tr = removed tr ++ m_task_queue s ∧
  dequeued tr `sublist_of` removed tr ∧
  (flushed tr = [] → removed tr = dequeued tr) ∧
  ((length (workers s) ≤ 1)%nat → dequeued tr = started tr ++ in_hand s).

(** ** Progress *)

(** From [s] some schedule without calls leads to a state where [P]
    holds. *)
Definition reaches (P : state → Prop) (s : state) : Prop :=
  ∃ sch s' tr, calls_free sch = true ∧ run sch s = Some (s', tr) ∧ P s'.

(** A step of the owner or of a worker: neither a call nor a spurious
    wake-up. *)
Definition plain (a : action) : bool :=
  match a with AOwner | AWorker _ => true | _ => false end.

Definition threads_only (sch : list action) : bool := forallb plain sch.

(** From [s] steps of the threads alone lead to a state where [P] holds. *)
Definition proceeds (P : state → Prop) (s : state) : Prop :=
  ∃ sch s' tr, threads_only sch = true ∧ run sch s = Some (s', tr) ∧ P s'.

(** How many of its own steps a worker needs to release the mutex. *)
Definition lock_dist (pc : wpc) : nat :=
  match pc with
  | WUnlock _ | WWaitRelease => 1
  | WPop | WNotify => 2
  | WExitTest => 3
  | WLoopTest => 4
  | _ => 0
  end.


(** What a worker's steps leave alone. *)
Definition owner_frame (s s' : state) : Prop :=
  o_pc s' = o_pc s ∧ o_ret s' = o_ret s ∧
  m_num_threads s' = m_num_threads s ∧ m_threads s' = m_threads s.

(** ** What a call of [shutdown_threads] does *)


(** What C1 says of a call [shutdown_threads(num)] made in the state [s]:
    the call returns by steps of the owner and the workers alone, with no
    spurious wake-up, and whenever it has returned, under any interleaving
    and any spurious wake-ups, the target count went
    down by [k = min(num, t)], exactly [k] threads were joined, they are
    those of the last [k] handles, joined from the last handle backwards,
    that is in decreasing order of the index they captured when they were
    spawned, and when [num >= t] no handle and no target is left. *)
Definition shutdown_closes (s : state) (num : Z) : Prop :=
  let t := m_num_threads s in
  let k := Z.min (size_t_wrap num) t in
  let T := m_threads s in
  (∃ sch s' tr, threads_only sch = true ∧
                run (ACall (OpShutdown num) :: sch) s = Some (s', tr) ∧
                o_pc s' = CIdle) ∧
  (∀ sch s' tr,
     calls_free sch = true →
     run (ACall (OpShutdown num) :: sch) s = Some (s', tr) →
     o_pc s' = CIdle →
     m_num_threads s' = t - k ∧
     length (joins tr) = Z.to_nat k ∧
     joins tr = reverse (drop (length T - Z.to_nat k) T) ∧
     m_threads s' = take (length T - Z.to_nat k) T ∧
     (∀ j id, joins tr !! j = Some id →
              ∃ wk, workers s !! id = Some wk ∧ w_index wk = t - 1 - Z.of_nat j) ∧
     (t ≤ size_t_wrap num → m_num_threads s' = 0 ∧ m_threads s' = [])).

(** A call of [shutdown_threads] that closes [2^32] workers or more: the
    counter [i] of line 84 is an [unsigned] and stays below [num_to_close]. *)
Definition doomed (s : state) : Prop :=
  match o_pc s with
  | CShut75 num => unsigned_max ≤ num ∧ unsigned_max ≤ m_num_threads s
  | CShut78 k | CShut79 k | CShut80 k | CShut83 k => unsigned_max ≤ k
  | CShut84 k i | CShut85 k i | CShut86 k i =>
      unsigned_max ≤ k ∧ 0 ≤ i < unsigned_max
  | _ => False
  end.

(** ** What a call of [flush_queue] does *)

Definition in_flush (pc : cpc) : bool :=
  match pc with CFlush104 | CFlush105 | CFlush106 => true | _ => false end.

(** The state and the trace during a call of [flush_queue] that was entered
    with the queue [Q0], the target count [n0], the handles [T0] and the
    dequeued tasks [H0] waiting to be started. *)
Definition flush_rel (Q0 : list task) (n0 : Z) (T0 : list nat) (H0 : list task)
    (s : state) (tr : list event) : Prop :=
  o_ret s = [] ∧ m_num_threads s = n0 ∧ m_threads s = T0 ∧
  H0 ++ dequeued tr ≡ₚ started tr ++ in_hand s ∧
  match o_pc s with
  | CFlush104 => Q0 = dequeued tr ++ m_task_queue s ∧ flushed tr = []
  | CFlush105 =>
      m_task_queue_mutex s = Some TOwner ∧
      Q0 = dequeued tr ++ m_task_queue s ∧ flushed tr = []
  | CFlush106 | CIdle =>
      m_task_queue s = [] ∧ Q0 = dequeued tr ++ flushed tr
  | _ => False
  end.

(** A call of [flush_queue] made in the state [s] returns. *)
Definition flush_returns (s : state) : Prop :=
  ∃ sch s' tr, calls_free sch = true ∧
               run (ACall OpFlush :: sch) s = Some (s', tr) ∧
               o_pc s' = CIdle.

(** When a call of [flush_queue] made in the state [s] has returned, the
    queue is empty; every task that was queued at the call was taken by a
    worker before line 104 got the mutex or was discarded at line 105; the
    target count and the handles are as they were; and every task a worker
    had taken without having started it, or took during the call, has been
    started or is still in that worker's hand. *)
Definition flush_effect (s : state) : Prop :=
  ∀ sch s' tr,
    calls_free sch = true →
    run (ACall OpFlush :: sch) s = Some (s', tr) →
    o_pc s' = CIdle →
    m_task_queue s' = [] ∧
    m_task_queue s = dequeued tr ++ flushed tr ∧
    m_num_threads s' = m_num_threads s ∧
    m_threads s' = m_threads s ∧
    in_hand s ++ dequeued tr ≡ₚ started tr ++ in_hand s'.

(** The steps of [flush_queue] itself write nothing but the queue and the
    mutex: the workers, what they hold or run, the target count and the
    handles are left alone. *)
Definition flush_frame : Prop :=
  ∀ s s' ev,
    in_flush (o_pc s) = true → step AOwner s = Next s' ev →
    workers s' = workers s ∧
    m_num_threads s' = m_num_threads s ∧
    m_threads s' = m_threads s ∧
    (m_task_queue s' = m_task_queue s ∨ m_task_queue s' = []).

(** ** What the constructor does *)

(** The number of workers [ThreadPool(max_num_threads, force)] asks
    [start_threads] for (lines 32-35). *)
Definition ctor_count (hc max_num_threads : Z) (force : bool) : Z :=
  if force then size_t_wrap max_num_threads
  else Z.min (unsigned_wrap hc) (size_t_wrap max_num_threads).

(** The pool while the loop of line 45 has spawned [i] of [n] workers and
    no worker has taken a step yet, and the pool when the constructor has
    returned. *)
Definition building (hc : Z) (n i : nat) : state :=
  {| hardware_concurrency := unsigned_wrap hc;
     m_num_threads := Z.of_nat n;
     m_threads := seq 0 i;
     m_task_queue := [];
     m_task_queue_mutex := None;
     workers := (λ j, Worker (Z.of_nat j) WAcquire) <$> seq 0 i;
     o_pc := CStart45 (Z.of_nat i);
     o_ret := [] |}.

Definition constructed (hc : Z) (n : nat) : state :=
  {| hardware_concurrency := unsigned_wrap hc;
     m_num_threads := Z.of_nat n;
     m_threads := seq 0 n;
     m_task_queue := [];
     m_task_queue_mutex := None;
     workers := (λ j, Worker (Z.of_nat j) WAcquire) <$> seq 0 n;
     o_pc := CIdle;
     o_ret := [] |}.

(** The owner runs the constructor with no worker taking a step. *)
Definition ctor_schedule (max_num_threads : Z) (force : bool) (k : nat) : list action :=
  ACall (OpNewN max_num_threads force) :: repeat AOwner (2 * k + 4).

(** The state during a construction that asks for [k] workers, under any
    interleaving with the workers already spawned. *)
Definition ctor_rel (k : Z) (s : state) : Prop :=
  o_ret s = [] ∧
  m_threads s = seq 0 (length (workers s)) ∧
  match o_pc s with
  | CCtor32 n force =>
      (if force then n else Z.min (hardware_concurrency s) n) = k ∧
      m_num_threads s = 0
  | CStart44 num => num = k ∧ m_num_threads s = 0
  | CStart45_init | CStart45 _ | CStart46 _ | CIdle => m_num_threads s = k
  | _ => False
  end.

(** [ThreadPool(max_num_threads, force)] spawns [k] workers: run on a
    machine with hardware concurrency [hc], the constructor returns, and
    when it has returned it has spawned the threads [0 .. k-1], the pool owns
    their handles in this order, the thread behind the handle at position
    [i] captured the index [i], and the target count is [k]. *)
Definition ctor_spawns (hc max_num_threads : Z) (force : bool) (k : Z) : Prop :=
  (∃ sch s tr,
     calls_free sch = true ∧
     run (ACall (OpNewN max_num_threads force) :: sch) (fresh hc) = Some (s, tr) ∧
     o_pc s = CIdle) ∧
  ∀ sch s tr,
    calls_free sch = true →
    run (ACall (OpNewN max_num_threads force) :: sch) (fresh hc) = Some (s, tr) →
    o_pc s = CIdle →
    m_num_threads s = k ∧
    spawns tr = seq 0 (Z.to_nat k) ∧
    m_threads s = seq 0 (Z.to_nat k) ∧
    length (workers s) = Z.to_nat k ∧
    ∀ id wk, workers s !! id = Some wk →
      w_index wk = Z.of_nat id ∧ w_pc wk ≠ WJoined.

(** ** Sample executions *)

(** A pool of two workers runs one task, is resized to one worker and is
    destroyed. *)
Definition lifecycle : list action :=
  [ACall (OpNewN 2 true)] ++ repeat AOwner 8 ++
  [ACall (OpSubmit 7%nat)] ++ repeat AOwner 4 ++
  repeat (AWorker 0) 6 ++ repeat (AWorker 1) 4 ++
  [ACall (OpSetN 1)] ++ repeat AOwner 7 ++
  repeat (AWorker 1) 3 ++ repeat AOwner 3 ++
  [ACall OpDelete] ++ repeat AOwner 11 ++
  repeat (AWorker 0) 4 ++ repeat AOwner 4.

(** A pool of one worker on which [start_threads(-1)] is called: the
    argument converts to 2^64 - 1 and the addition at line 44 wraps. *)
Definition overflow : list action :=
  [ACall (OpNewN 1 true)] ++ repeat AOwner 6 ++
  [ACall (OpStart (-1))] ++ repeat AOwner 3.

(** The same, followed by the destruction of the pool up to line 41. *)
Definition overflow_delete : list action :=
  overflow ++ [ACall OpDelete] ++ repeat AOwner 11.

(** One worker has taken the only task and is still running it while the
    owner goes through [wait_until_queue_completed]. *)
Definition wait_while_running : list action :=
  [ACall (OpNewN 1 true)] ++ repeat AOwner 6 ++
  [ACall (OpSubmit 7%nat)] ++ repeat AOwner 4 ++
  repeat (AWorker 0) 6 ++
  [ACall OpWait] ++ repeat AOwner 2.

(** The owner enters [start_threads(1)] and executes line 44 while worker 0
    stands at line 51 with the mutex held. *)
Definition racy_start : list action :=
  [ACall (OpNewN 1 true)] ++ repeat AOwner 6 ++
  [AWorker 0] ++
  [ACall (OpStart 1)] ++ [AOwner].

(** A pool of one worker, constructed. *)
Definition one_worker : list action :=
  [ACall (OpNewN 1 true)] ++ repeat AOwner 6.

(** A pool of two workers, constructed. *)
Definition two_workers : list action :=
  [ACall (OpNewN 2 true)] ++ repeat AOwner 8.

(** One worker serves three tasks submitted in the order 1, 2, 3. *)
Definition three_tasks : list action :=
  [ACall (OpNewN 1 true)] ++ repeat AOwner 6 ++
  [ACall (OpSubmit 1%nat)] ++ repeat AOwner 4 ++
  [ACall (OpSubmit 2%nat)] ++ repeat AOwner 4 ++
  [ACall (OpSubmit 3%nat)] ++ repeat AOwner 4 ++
  repeat (AWorker 0) 21.

(** One worker has taken the first of three tasks and holds it, not yet
    started; the other two are queued. *)
Definition two_queued : list action :=
  [ACall (OpNewN 1 true)] ++ repeat AOwner 6 ++
  [ACall (OpSubmit 1%nat)] ++ repeat AOwner 4 ++
  [ACall (OpSubmit 2%nat)] ++ repeat AOwner 4 ++
  [ACall (OpSubmit 3%nat)] ++ repeat AOwner 4 ++
  repeat (AWorker 0) 5.

(** The state a schedule leads to, and its trace. *)
Definition final (hc : Z) (sch : list action) : state :=
  match run sch (fresh hc) with
  | Some (s, _) => s
  | None => fresh hc
  end.

Definition trace (hc : Z) (sch : list action) : list event :=
  match run sch (fresh hc) with
  | Some (_, tr) => tr
  | None => []
  end.

(** ** What each worker does with the tasks it takes *)

(** The tasks worker [w] took from the queue (lines 62-63) and the tasks it
    called (line 68), in the order of the trace, and the task it holds
    between the two. *)
Definition dequeued_by (w : nat) (tr : list event) : list task :=
  omap (λ e, match e with
             | EvDequeue w' t => if decide (w' = w) then Some t else None
             | _ => None
             end) tr.

Definition started_by (w : nat) (tr : list event) : list task :=
  omap (λ e, match e with
             | EvStart w' t => if decide (w' = w) then Some t else None
             | _ => None
             end) tr.

Definition held_by (s : state) (w : nat) : list task :=
  from_option holding [] (workers s !! w).

Definition hand_inv (tr : list event) (s : state) : Prop :=
  ∀ w, dequeued_by w tr = started_by w tr ++ held_by s w.

(** ** Live workers *)

(** The thread behind each of the first [m_num_threads] handles is still in
    its loop. *)
Definition alive_inv (s : state) : Prop :=
  ∀ p id wk,
    m_threads s !! p = Some id → workers s !! id = Some wk →
    Z.of_nat p < m_num_threads s →
    w_pc wk ≠ WFinished ∧ w_pc wk ≠ WJoined.

(** ** What a call of [start_threads] does *)

(** The state and the trace during a call of [start_threads(num)] that was
    entered with the handles [T0], [W0] threads spawned so far and the
    target count [n0]. *)
Definition start_rel (T0 : list nat) (W0 : nat) (n0 num : Z)
    (s : state) (tr : list event) : Prop :=
  o_ret s = [] ∧
  m_threads s = T0 ++ spawns tr ∧
  length (workers s) = (W0 + length (spawns tr))%nat ∧
  spawns tr = seq W0 (length (spawns tr)) ∧
  joins tr = [] ∧
  match o_pc s with
  | CStart44 num' => num' = num ∧ m_num_threads s = n0 ∧ spawns tr = []
  | CStart45_init => m_num_threads s = n0 + num ∧ spawns tr = []
  | CStart45 _ | CStart46 _ | CIdle => m_num_threads s = n0 + num
  | _ => False
  end.

(** A call [start_threads(num)] made in the state [s] returns, and when it
    has returned the target count went up by [num], [num] threads were
    spawned and none joined, their handles were appended to [m_threads] in
    the order of their creation, and the [j]-th of them captured the index
    [t + j], [t] being the target count at the call. *)
Definition start_grows (s : state) (num : Z) : Prop :=
  let t := m_num_threads s in
  let k := size_t_wrap num in
  (∃ sch s' tr, calls_free sch = true ∧
                run (ACall (OpStart num) :: sch) s = Some (s', tr) ∧
                o_pc s' = CIdle) ∧
  (∀ sch s' tr,
     calls_free sch = true →
     run (ACall (OpStart num) :: sch) s = Some (s', tr) →
     o_pc s' = CIdle →
     m_num_threads s' = t + k ∧
     m_threads s' = m_threads s ++ seq (length (workers s)) (Z.to_nat k) ∧
     spawns tr = seq (length (workers s)) (Z.to_nat k) ∧
     joins tr = [] ∧
     ∀ j, (j < Z.to_nat k)%nat →
       ∃ wk, workers s' !! (length (workers s) + j)%nat = Some wk ∧
             w_index wk = t + Z.of_nat j).

(** ** What a call of [set_n_threads] does *)



(** ** What the default constructor does *)

(** [ThreadPool()] on a machine with hardware concurrency [hc] returns, and
    when it has returned it has spawned the threads [0 .. hc-1], owns their
    handles in this order, and the target count is [hc]; none when the
    hardware concurrency is reported as 0. *)
Definition default_ctor_spawns (hc : Z) : Prop :=
  let k := unsigned_wrap hc in
  (∃ sch s tr,
     calls_free sch = true ∧
     run (ACall OpNew :: sch) (fresh hc) = Some (s, tr) ∧ o_pc s = CIdle) ∧
  (∀ sch s tr,
     calls_free sch = true →
     run (ACall OpNew :: sch) (fresh hc) = Some (s, tr) →
     o_pc s = CIdle →
     m_num_threads s = k ∧
     spawns tr = seq 0 (Z.to_nat k) ∧
     m_threads s = seq 0 (Z.to_nat k) ∧
     length (workers s) = Z.to_nat k ∧
     (k = 0 → workers s = [])).

(** ** Waiting without workers *)

(** No thread of the pool is in its loop: none was spawned, or all have
    left. *)
Definition no_live_worker (s : state) : Prop :=
  ∀ w wk, workers s !! w = Some wk → w_pc wk = WFinished ∨ w_pc wk = WJoined.

(** The owner is inside [wait_until_queue_completed], not at its return,
    or about to enter it from the destructor, with tasks queued and no
    thread to take them. *)
Definition starved (s : state) : Prop :=
  m_task_queue s ≠ [] ∧ no_live_worker s ∧
  match o_pc s with
  | CDtor39 | CWait99 | CWait100 | CWait100_asleep | CWait100_woken => True
  | _ => False
  end.

(** A pool constructed with no worker, to which one task is submitted. *)
Definition no_workers : list action :=
  [ACall (OpNewN 0 true)] ++ repeat AOwner 4 ++
  [ACall (OpSubmit 7%nat)] ++ repeat AOwner 4.

(** ** The destructor on a pool with an empty queue *)



(** ** Who serves the queue *)

(** A worker that is on its way to the test of line 51, or past it with a
    task to take: not about to sleep, not asleep, not gone. *)
Definition keen (pc : wpc) : bool :=
  match pc with
  | WWaitRelease | WAsleep | WFinished | WJoined => false
  | _ => true
  end.

(** Some thread below the target count is keen. *)
Definition served_at (ms : list nat) (n : Z) (ws : list worker) : Prop :=
  ∃ p id wk,
    ms !! p = Some id ∧ ws !! id = Some wk ∧
    Z.of_nat p < n ∧ keen (w_pc wk) = true.

Definition served (s : state) : Prop :=
  served_at (m_threads s) (m_num_threads s) (workers s).

(** A worker between the test of line 51 and its sleep has seen the queue
    empty, and holds the mutex since. *)
Definition sleepy_inv (s : state) : Prop :=
  ∀ w wk, workers s !! w = Some wk →
    w_pc wk = WNotify ∨ w_pc wk = WWaitRelease → m_task_queue s = [].

(** Where the owner stands between making work, or making a worker
    superfluous, and the notification that follows. *)
Definition unserved_pc (s : state) : bool :=
  match o_pc s with
  | CSubmitUnlock _ | CSubmitNotify _ | CShut80 _ | CShut83 _ => true
  | CShut84 k _ | CShut85 k _ | CShut86 k _ => negb (k <? unsigned_max)
  | _ => false
  end.

(** No wake-up is lost: while tasks are queued, or the owner sleeps at line
    100, a pool that has a worker below its target count has a keen one. *)
Definition served_inv (s : state) : Prop :=
  unserved_pc s = false →
  m_task_queue s ≠ [] ∨ o_pc s = CWait100_asleep →
  0 < m_num_threads s → m_threads s ≠ [] →
  served s.

Definition well (s : state) : Prop :=
  good s ∧ alive_inv s ∧ sleepy_inv s ∧ served_inv s.


(** ** What is left to do before the queue is drained *)

(** How far a worker is from the end of its round: the notification of line
    54 when it finds the queue empty, line 48 again when it took a task. *)
Definition rank (pc : wpc) : nat :=
  match pc with
  | WUnlock _ => 12
  | WCall _ => 11
  | WRunning _ => 10
  | WAcquire | WWoken => 9
  | WLoopTest => 8
  | WExitTest => 7
  | WPop => 6
  | WNotify => 2
  | WWaitRelease => 1
  | WAsleep | WFinished | WJoined => 0
  end.

Definition toil (ws : list worker) : nat :=
  sum_list ((λ wk, rank (w_pc wk)) <$> ws).

(** Each queued task costs a worker one round. *)
Definition effort (s : state) : nat :=
  (13 * length (m_task_queue s) + toil (workers s))%nat.


(** The state and the trace during a call of [wait_until_queue_completed]
    that was entered from outside with the queue [Q0], the target count
    [n0], the handles [T0] and the dequeued tasks [H0] waiting to be
    started, and after its return for as long as no member function is
    called. *)
Definition wait_rel (Q0 : list task) (n0 : Z) (T0 : list nat) (H0 : list task)
    (s : state) (tr : list event) : Prop :=
  o_ret s = [] ∧ m_num_threads s = n0 ∧ m_threads s = T0 ∧
  H0 ++ dequeued tr ≡ₚ started tr ++ in_hand s ∧
  Q0 = dequeued tr ++ m_task_queue s ∧
  submitted tr = [] ∧ flushed tr = [] ∧ spawns tr = [] ∧ joins tr = [] ∧
  match o_pc s with
  | CWait99 | CWait100 | CWait100_asleep | CWait100_woken => True
  | CWait101 | CIdle => m_task_queue s = []
  | _ => False
  end.

(** What a call of [wait_until_queue_completed] in the state [s] has done
    when it has returned, under any interleaving with the workers and any
    spurious wake-ups: the workers have taken every task that was queued, in
    the order of the queue, and each task taken is started or still in a
    worker's hand; no task was added or discarded, no thread spawned or
    joined, and the pool has the size it had. *)
Definition wait_effect (s : state) : Prop :=
  ∀ sch s' tr',
    calls_free sch = true →
    run (ACall OpWait :: sch) s = Some (s', tr') →
    m_task_queue s = dequeued tr' ++ m_task_queue s' ∧
    in_hand s ++ dequeued tr' ≡ₚ started tr' ++ in_hand s' ∧
    submitted tr' = [] ∧ flushed tr' = [] ∧ spawns tr' = [] ∧ joins tr' = [] ∧
    m_num_threads s' = m_num_threads s ∧ m_threads s' = m_threads s ∧
    (o_pc s' = CIdle → m_task_queue s' = [] ∧ dequeued tr' = m_task_queue s).


(** ** What the destructor does *)



(** ** Misuse of the queue and of the thread handles *)

(** A call of [shutdown_threads] that is joining closes fewer than 2^32
    workers: the counter [i] of line 84 does not wrap around. *)
Definition closing_few (s : state) : Prop :=
  match o_pc s with
  | CShut85 k _ | CShut86 k _ => k < unsigned_max
  | _ => True
  end.

(** ** The workers on their own *)

Definition workers_only (sch : list action) : bool :=
  forallb (λ a, match a with AWorker _ => true | _ => false end) sch.

(** Left to themselves the workers start every task of the state [s]: steps
    of the workers alone lead to a state with the queue empty and no task in
    hand; the tasks dequeued on the way are those of the queue, in its
    order, and the tasks started are those that were queued or in hand. *)
Definition pool_drains (s : state) : Prop :=
  ∃ sch s' tr',
    workers_only sch = true ∧ run sch s = Some (s', tr') ∧
    m_task_queue s' = [] ∧ in_hand s' = [] ∧
    dequeued tr' = m_task_queue s ∧
    started tr' ≡ₚ in_hand s ++ m_task_queue s.

(** ** Who takes a task *)

(** A worker at line 62 has passed the test of line 58 and holds the mutex
    since: its index is below the target count. *)
Definition taking_inv (s : state) : Prop :=
  ∀ w wk, workers s !! w = Some wk → w_pc wk = WPop →
    w_index wk < m_num_threads s.

(** * Properties *)

(** ** Case analysis on a step *)

Ltac step_inv H :=
  match type of H with
  | step ?a ?s = Next _ _ =>
      destruct a as [[]| |?|[]]; simpl in H;
      unfold call, owner_step, submit_step, worker_step, spurious_step, lock, ret in H;
      repeat match type of H with
      | context [match ?x with _ => _ end] =>
          destruct x eqn:?; simpl in H; try discriminate H
      end;
      simplify_eq
  end.

Ltac norm_pc :=
  repeat match goal with
  | H : o_pc _ = _ |- _ => rewrite H in *
  | H : o_ret _ = _ |- _ => rewrite H in *
  | H : m_threads _ = _ |- _ => rewrite H in *
  | H : m_task_queue _ = _ |- _ => rewrite H in *
  end.

Lemma notify_all_completed_frame s :
  m_num_threads (notify_all_completed s) = m_num_threads s ∧
  m_threads (notify_all_completed s) = m_threads s ∧
  m_task_queue (notify_all_completed s) = m_task_queue s ∧
  m_task_queue_mutex (notify_all_completed s) = m_task_queue_mutex s ∧
  workers (notify_all_completed s) = workers s ∧
  o_ret (notify_all_completed s) = o_ret s ∧
  hardware_concurrency (notify_all_completed s) = hardware_concurrency s.
Proof. unfold notify_all_completed. by destruct (o_pc s). Qed.

Lemma notify_all_completed_pc s :
  o_pc (notify_all_completed s) =
    match o_pc s with CWait100_asleep => CWait100_woken | c => c end.
Proof.
  unfold notify_all_completed.
  by destruct (o_pc s) eqn:E; simpl; rewrite ?E.
Qed.

Lemma wake_one_lookup ws w wk' :
  wake_one ws !! w = Some wk' →
  ∃ wk, ws !! w = Some wk ∧ w_index wk' = w_index wk ∧
        (w_pc wk' = w_pc wk ∨ (w_pc wk = WAsleep ∧ w_pc wk' = WWoken)).
Proof.
  revert w. induction ws as [|a ws IH]; intros w; simpl; [done|].
  destruct (w_pc a) eqn:E; destruct w as [|w]; simpl; intros H; simplify_eq;
    eauto 10.
Qed.

Lemma wake_one_lookup_inv ws w wk :
  ws !! w = Some wk →
  ∃ wk', wake_one ws !! w = Some wk' ∧ w_index wk' = w_index wk ∧
        (w_pc wk' = w_pc wk ∨ (w_pc wk = WAsleep ∧ w_pc wk' = WWoken)).
Proof.
  revert w. induction ws as [|a ws IH]; intros w; simpl; [done|].
  destruct (w_pc a) eqn:E; destruct w as [|w]; simpl; intros H; simplify_eq;
    eauto 10.
Qed.

Lemma wake_lookup (ws : list worker) (w : nat) wk' :
  (wake <$> ws) !! w = Some wk' →
  ∃ wk, ws !! w = Some wk ∧ w_index wk' = w_index wk ∧
        ((w_pc wk' = w_pc wk ∧ w_pc wk ≠ WAsleep) ∨
         (w_pc wk = WAsleep ∧ w_pc wk' = WWoken)).
Proof.
  rewrite list_lookup_fmap. intros (wk & H & ->)%fmap_Some. exists wk.
  unfold wake. destruct (w_pc wk) eqn:E; simpl; rewrite ?E; auto.
Qed.

Lemma wake_lookup_inv (ws : list worker) (w : nat) wk :
  ws !! w = Some wk →
  ∃ wk', (wake <$> ws) !! w = Some wk' ∧ w_index wk' = w_index wk ∧
        (w_pc wk' = w_pc wk ∨ (w_pc wk = WAsleep ∧ w_pc wk' = WWoken)).
Proof.
  intros H. exists (wake wk). rewrite list_lookup_fmap, H. split; [done|].
  unfold wake. destruct (w_pc wk) eqn:E; simpl; rewrite ?E; auto.
Qed.

(** Hypotheses on the lookup of a changed worker table are traced back to
    the table before the step. *)
Ltac wk_cases :=
  repeat match goal with
  | H : <[_:=_]> _ !! _ = Some _ |- _ =>
      apply list_lookup_insert_Some in H as [(-> & <- & ?)|(? & H)]
  | H : (_ ++ [_]) !! _ = Some _ |- _ =>
      apply lookup_snoc_Some in H as [(? & H)|(-> & <-)]
  | H : (wake <$> _) !! _ = Some _ |- _ =>
      apply wake_lookup in H as (? & H & ? & [[? ?]|[? ?]])
  | H : wake_one _ !! _ = Some _ |- _ =>
      apply wake_one_lookup in H as (? & H & ? & [?|[? ?]])
  end.

(** ** Mutual exclusion *)

Lemma workers_locked_same ws ws' m :
  Forall2 (λ wk wk', holds_w (w_pc wk) = holds_w (w_pc wk')) ws ws' →
  workers_locked ws m → workers_locked ws' m.
Proof.
  intros HF [Ha Hb]. split.
  - intros w wk' Hl Hh.
    destruct (Forall2_lookup_r _ _ _ _ _ HF Hl) as (wk & Hl' & E).
    eapply Ha; [done|congruence].
  - intros w Hm. destruct (Hb w Hm) as (wk & Hl & Hh).
    destruct (Forall2_lookup_l _ _ _ _ _ HF Hl) as (wk' & Hl' & E).
    exists wk'. split; [done|congruence].
Qed.

Lemma workers_locked_wake ws m :
  workers_locked ws m → workers_locked (wake <$> ws) m.
Proof.
  apply workers_locked_same, Forall2_fmap_r, Forall_Forall2_diag, Forall_forall.
  intros wk _. unfold wake. by destruct (w_pc wk) eqn:E; simpl; rewrite ?E.
Qed.

Lemma workers_locked_wake_one ws m :
  workers_locked ws m → workers_locked (wake_one ws) m.
Proof.
  apply workers_locked_same.
  induction ws as [|wk ws IH]; simpl; [constructor|].
  destruct (w_pc wk) eqn:E; constructor; simpl; rewrite ?E; try done.
  apply Forall_Forall2_diag, Forall_forall; auto.
Qed.

Lemma workers_locked_snoc ws m i pc :
  holds_w pc = false →
  workers_locked ws m → workers_locked (ws ++ [Worker i pc]) m.
Proof.
  intros Hpc [Ha Hb]. split.
  - intros w wk [(_ & Hl)|(-> & <-)]%lookup_snoc_Some Hh; [eauto|].
    simpl in Hh. congruence.
  - intros w Hm. destruct (Hb w Hm) as (wk & Hl & Hh). exists wk.
    split; [|done]. apply lookup_app_l_Some; done.
Qed.

(** A worker moves within the locked region, or within the unlocked one. *)
Lemma workers_locked_move ws m w wk pc :
  ws !! w = Some wk → holds_w pc = holds_w (w_pc wk) →
  workers_locked ws m → workers_locked (<[w := Worker (w_index wk) pc]> ws) m.
Proof.
  intros Hl Hpc. apply workers_locked_same.
  apply Forall2_same_length_lookup_2; [by rewrite length_insert|].
  intros w' a b Ha [(-> & <- & ?)|(? & Hb)]%list_lookup_insert_Some;
    simplify_eq; simpl; congruence.
Qed.

Lemma workers_locked_acquire ws w wk pc :
  ws !! w = Some wk → holds_w pc = true →
  workers_locked ws None →
  workers_locked (<[w := Worker (w_index wk) pc]> ws) (Some (TWorker w)).
Proof.
  intros Hl Hpc [Ha Hb]. split.
  - intros w' wk' [(-> & <- & ?)|(? & Hl')]%list_lookup_insert_Some Hh; [done|].
    by specialize (Ha _ _ Hl' Hh).
  - intros w' [= <-]. exists (Worker (w_index wk) pc). split; [|exact Hpc].
    apply list_lookup_insert_eq. by eapply lookup_lt_Some.
Qed.

Lemma workers_locked_release ws w wk pc :
  ws !! w = Some wk → holds_w (w_pc wk) = true → holds_w pc = false →
  workers_locked ws (Some (TWorker w)) →
  workers_locked (<[w := Worker (w_index wk) pc]> ws) None.
Proof.
  intros Hl Hh Hpc [Ha Hb]. split; [|done].
  intros w' wk' [(-> & <- & ?)|(? & Hl')]%list_lookup_insert_Some Hh'.
  - simpl in Hh'. congruence.
  - specialize (Ha _ _ Hl' Hh'). congruence.
Qed.

Lemma workers_locked_owner ws :
  workers_locked ws None ↔ workers_locked ws (Some TOwner).
Proof.
  split; intros [Ha Hb]; (split; [|done]); intros w wk Hl Hh;
    by specialize (Ha _ _ Hl Hh).
Qed.

Lemma workers_locked_holder ws m w wk :
  workers_locked ws m → ws !! w = Some wk → holds_w (w_pc wk) = true →
  m = Some (TWorker w).
Proof. intros [Ha _]. apply Ha. Qed.

Lemma mutex_inv_step a s s' evs :
  mutex_inv s → step a s = Next s' evs → mutex_inv s'.
Proof.
  intros (Hs & Ho & Hw) H.
  step_inv H.
  all: unfold mutex_inv, stack_inv in *; simpl.
  all: try match goal with
       | |- context [notify_all_completed ?s0] =>
           destruct (notify_all_completed_frame s0) as (_ & _ & _ & -> & -> & -> & _);
           rewrite notify_all_completed_pc
       end.
  all: simpl in *; norm_pc; simpl in *.
  all: destruct Hs as [Hs|[[Hs ?]|[Hs ?]]]; simplify_eq; simpl.
  all: try match goal with
       | Hl : workers _ !! ?w = Some ?wk, Hpc : w_pc ?wk = ?pc |- _ =>
           first [ assert (holds_w (w_pc wk) = true) as Hh by (by rewrite Hpc);
                   pose proof (workers_locked_holder _ _ _ _ Hw Hl Hh)
                 | assert (holds_w (w_pc wk) = false) as Hh by (by rewrite Hpc) ]
       end.
  all: try match type of Ho with
       | _ ↔ true = true => assert (m_task_queue_mutex s = Some TOwner) by (by apply Ho)
       end.
  all: repeat match goal with H : m_task_queue_mutex _ = _ |- _ => rewrite H in * end.
  all: split; [first [by rewrite ?Hs; auto | destruct (o_pc s); simpl in *; by auto] | split].
  all: try (by (destruct (o_pc s); simpl in *; try destruct Ho;
                first [done | split; [done|congruence] | split; congruence])).
  all: try done.
  all: try (by apply workers_locked_owner).
  all: try (by apply workers_locked_wake).
  all: try (by apply workers_locked_wake_one).
  all: try (by apply workers_locked_snoc).
  all: try (by eapply workers_locked_move; [done|by rewrite Hh|done]).
  all: try (by eapply workers_locked_acquire).
  all: try (by eapply workers_locked_release).
  all: destruct Ho as [Ho1 Ho2]; split; intros X; try done; by specialize (Ho2 X).
Qed.

(** ** Ranges *)

Lemma size_t_max_pos : 0 < size_t_max.
Proof. done. Qed.

Lemma unsigned_max_pos : 0 < unsigned_max.
Proof. done. Qed.

Lemma unsigned_max_lt : unsigned_max < size_t_max.
Proof. done. Qed.

Lemma size_t_wrap_range x : 0 ≤ size_t_wrap x < size_t_max.
Proof. apply Z.mod_pos_bound, size_t_max_pos. Qed.

Lemma unsigned_wrap_range x : 0 ≤ unsigned_wrap x < unsigned_max.
Proof. apply Z.mod_pos_bound, unsigned_max_pos. Qed.

Lemma size_t_wrap_id x : 0 ≤ x < size_t_max → size_t_wrap x = x.
Proof. apply Z.mod_small. Qed.

Lemma unsigned_wrap_id x : 0 ≤ x < unsigned_max → unsigned_wrap x = x.
Proof. apply Z.mod_small. Qed.

Ltac wrap_facts :=
  pose proof size_t_max_pos; pose proof unsigned_max_pos;
  pose proof unsigned_max_lt;
  repeat match goal with
  | |- context [size_t_wrap ?x] =>
      lazymatch goal with
      | _ : 0 ≤ size_t_wrap x < size_t_max |- _ => fail
      | _ => pose proof (size_t_wrap_range x)
      end
  | |- context [unsigned_wrap ?x] =>
      lazymatch goal with
      | _ : 0 ≤ unsigned_wrap x < unsigned_max |- _ => fail
      | _ => pose proof (unsigned_wrap_range x)
      end
  end.

Lemma length_removelast {A} (l : list A) :
  length (removelast l) = pred (length l).
Proof.
  induction l as [|x [|y l] IH]; simpl in *; [done..|]. by rewrite IH.
Qed.

Lemma last_Some_length {A} (l : list A) x :
  last l = Some x → (0 < length l)%nat.
Proof. destruct l; [done|simpl; lia]. Qed.

Lemma range_inv_step a s s' evs :
  stack_inv s → range_inv s → step a s = Next s' evs → range_inv s'.
Proof.
  intros Hs (Hn & Hh & Hsz & Hpc) H.
  step_inv H.
  all: unfold range_inv, pc_range, stack_inv in *; simpl.
  all: try match goal with
       | |- context [notify_all_completed ?s0] =>
           destruct (notify_all_completed_frame s0) as (-> & -> & _ & _ & _ & _ & ->);
           rewrite notify_all_completed_pc
       end.
  all: simpl in *; norm_pc; simpl in *.
  all: destruct Hs as [Hs|[[Hs ?]|[Hs ?]]].
  all: try discriminate.
  all: simplify_eq.
  all: simpl.
  all: try match goal with
       | H : last _ = Some _ |- _ => apply last_Some_length in H
       end.
  all: rewrite ?length_app, ?length_removelast; simpl.
  all: repeat match goal with
       | H : (_ <? _) = _ |- _ => first [apply Z.ltb_lt in H | apply Z.ltb_ge in H]
       | H : (_ >? _) = _ |- _ => rewrite Z.gtb_ltb in H
       end.
  all: try (rewrite (size_t_wrap_id (_ + 1)) by lia).
  all: wrap_facts.
  all: try (repeat split; lia).
  all: by (destruct (o_pc s); simpl in *; repeat split; lia).
Qed.

(** ** The thread table *)

Lemma removelast_lookup {A} (l : list A) (p : nat) x :
  removelast l !! p = Some x → l !! p = Some x.
Proof.
  destruct (decide (l = [])) as [->|Hne]; [done|].
  destruct (exists_last Hne) as (l' & y & ->).
  rewrite removelast_last. intros H. by apply lookup_app_l_Some.
Qed.

Definition same_thread (wk wk' : worker) : Prop :=
  w_index wk = w_index wk' ∧ (w_pc wk = WJoined ↔ w_pc wk' = WJoined).

Lemma table_same ms ow ws ws' :
  Forall2 same_thread ws ws' → table ms ow ws → table ms ow ws'.
Proof.
  intros HF (Ha & Hnd & Hc). split_and!; [|done|].
  - intros p id Hp. destruct (Ha p id Hp) as (wk & Hl & Hi).
    destruct (Forall2_lookup_l _ _ _ _ _ HF Hl) as (wk' & Hl' & E1 & E2).
    exists wk'. split; [done|congruence].
  - intros id wk' Hl'.
    destruct (Forall2_lookup_r _ _ _ _ _ HF Hl') as (wk & Hl & E1 & E2).
    rewrite <-E2. by apply Hc.
Qed.

Lemma same_thread_wake ws : Forall2 same_thread ws (wake <$> ws).
Proof.
  apply Forall2_fmap_r, Forall_Forall2_diag, Forall_forall.
  intros wk _. unfold wake, same_thread.
  by destruct (w_pc wk) eqn:E; simpl; rewrite ?E.
Qed.

Lemma same_thread_wake_one ws : Forall2 same_thread ws (wake_one ws).
Proof.
  induction ws as [|wk ws IH]; simpl; [constructor|].
  destruct (w_pc wk) eqn:E; constructor; unfold same_thread; simpl;
    rewrite ?E; try done.
  apply Forall_Forall2_diag, Forall_forall; auto.
Qed.

Lemma same_thread_insert ws w wk pc :
  ws !! w = Some wk → w_pc wk ≠ WJoined → pc ≠ WJoined →
  Forall2 same_thread ws (<[w := Worker (w_index wk) pc]> ws).
Proof.
  intros Hl H1 H2.
  apply Forall2_same_length_lookup_2; [by rewrite length_insert|].
  intros w' a b Ha [(-> & <- & ?)|(? & Hb)]%list_lookup_insert_Some;
    simplify_eq; unfold same_thread; simpl; naive_solver.
Qed.

Lemma table_spawn ms ws pc :
  pc ≠ WJoined →
  table ms ms ws →
  table (ms ++ [length ws]) (ms ++ [length ws])
        (ws ++ [Worker (Z.of_nat (length ms)) pc]).
Proof.
  intros Hpc (Ha & Hnd & Hc).
  assert (length ws ∉ ms) as Hfresh.
  { intros (p & Hp)%list_elem_of_lookup. destruct (Ha _ _ Hp) as (wk & Hl & _).
    apply lookup_lt_Some in Hl. lia. }
  split_and!.
  - intros p id [(? & Hp)|(-> & <-)]%lookup_snoc_Some.
    + destruct (Ha _ _ Hp) as (wk & Hl & Hi). exists wk. split; [|done].
      by apply lookup_app_l_Some.
    + eexists. split; [by apply list_lookup_middle|done].
  - apply NoDup_app. split_and!; [done| |apply NoDup_singleton].
    intros x Hx ->%list_elem_of_singleton. done.
  - intros id wk [(? & Hl)|(-> & <-)]%lookup_snoc_Some.
    + rewrite (Hc _ _ Hl). rewrite not_elem_of_app, list_elem_of_singleton.
      split; [|naive_solver]. intros. split; [done|lia].
    + simpl. split; [done|]. intros []. apply elem_of_app. right.
      by apply list_elem_of_singleton.
Qed.

Lemma table_join l id ws wk :
  ws !! id = Some wk →
  table (l ++ [id]) (l ++ [id]) ws →
  table (l ++ [id]) l (<[id := Worker (w_index wk) WJoined]> ws).
Proof.
  intros Hl (Ha & Hnd & Hc).
  apply NoDup_app in Hnd as (Hnd & Hni & _).
  split_and!.
  - intros p id' Hp. destruct (Ha _ _ Hp) as (wk' & Hl' & Hi).
    destruct (decide (id' = id)) as [->|Hne].
    + eexists. split; [apply list_lookup_insert_eq; by eapply lookup_lt_Some|].
      simpl. congruence.
    + exists wk'. by rewrite list_lookup_insert_ne.
  - apply NoDup_app. split_and!; [done| |apply NoDup_singleton].
    intros x Hx ->%list_elem_of_singleton. by apply (Hni id), list_elem_of_singleton.
  - intros id' wk' [(-> & <- & ?)|(? & Hl')]%list_lookup_insert_Some; simpl.
    + split; [|done]. intros _ Hin. by apply (Hni id'), list_elem_of_singleton.
    + rewrite (Hc _ _ Hl'), not_elem_of_app, list_elem_of_singleton. naive_solver.
Qed.

Lemma table_pop l id ws :
  table (l ++ [id]) l ws → table l l ws.
Proof.
  intros (Ha & Hnd & Hc). split_and!; [|by apply NoDup_app in Hnd as (? & _)|done].
  intros p id' Hp. apply Ha. by apply lookup_app_l_Some.
Qed.

Lemma table_inv_frame s s' :
  m_threads s' = m_threads s → workers s' = workers s →
  popping s' = popping s → table_inv s → table_inv s'.
Proof. unfold table_inv, owned. by intros -> -> ->. Qed.

Lemma table_inv_move s s' w wk pc :
  workers s !! w = Some wk → w_pc wk ≠ WJoined → pc ≠ WJoined →
  m_threads s' = m_threads s →
  workers s' = <[w := Worker (w_index wk) pc]> (workers s) →
  popping s' = popping s → table_inv s → table_inv s'.
Proof.
  unfold table_inv, owned. intros Hl H1 H2 -> -> -> [Ht Hp]. split; [|done].
  eapply table_same; [|done]. by apply same_thread_insert.
Qed.

Lemma popping_notify s : popping (notify_all_completed s) = popping s.
Proof. unfold popping. rewrite notify_all_completed_pc. by destruct (o_pc s). Qed.

Ltac use_stack Hs :=
  unfold stack_inv in Hs;
  lazymatch goal with
  | |- context [set_wpc _ _ _ _] => idtac
  | _ =>
      repeat match goal with
      | H : o_ret _ = _ |- _ => rewrite H in Hs
      | H : o_pc _ = _ |- _ => rewrite H in Hs
      end;
      simpl in Hs; destruct Hs as [Hs|[[Hs ?]|[Hs ?]]]; simplify_eq
  end.

Lemma table_inv_step a s s' evs :
  mutex_inv s → range_inv s → table_inv s → step a s = Next s' evs → table_inv s'.
Proof.
  intros (Hs & _) (_ & _ & _ & Hpc) Ht H.
  step_inv H.
  all: unfold pc_range in *.
  all: simpl in *; norm_pc; simpl in *.
  all: use_stack Hs; simpl.
  all: try (by eapply table_inv_frame; [..|exact Ht]; unfold popping; simpl;
             norm_pc).
  all: try (by match goal with
       | |- table_inv (set_wpc ?w ?wk ?pc ?s0) =>
           apply (table_inv_move s _ w wk pc);
           [done|congruence|done|..|exact Ht];
           rewrite ?popping_notify;
           try (destruct (notify_all_completed_frame s) as (_ & -> & _ & _ & -> & _ & _));
           unfold popping; simpl; norm_pc
       end).
  all: destruct Ht as [Ht Hp]; unfold table_inv, owned, popping in *;
    simpl in *; norm_pc; simpl in *.
  all: try match goal with
       | H : last _ = Some _ |- _ => apply last_Some in H as [? H]
       end.
  all: norm_pc; rewrite ?removelast_last in *.
  - destruct Hpc as [-> _]. split; [by apply table_spawn|done].
  - split; [|done]. eapply table_same; [apply same_thread_wake|done].
  - split; [|done]. eapply table_same; [apply same_thread_wake|done].
  - split; [by apply table_join|]. intros _ E. by destruct x.
  - split; [by eapply table_pop|done].
  - split; [by eapply table_pop|done].
  - split; [|done]. eapply table_same; [apply same_thread_wake_one|done].
  - destruct (notify_all_completed_frame s) as (_ & -> & _ & _ & -> & _ & _).
    rewrite notify_all_completed_pc.
    assert (match match o_pc s with CWait100_asleep => CWait100_woken | c => c end
            with CShut86 _ _ => true | _ => false end
            = match o_pc s with CShut86 _ _ => true | _ => false end) as ->
      by (by destruct (o_pc s)).
    split; [|done]. eapply table_same; [|done].
    apply same_thread_insert; [done|congruence|done].
Qed.

(** ** No lost wake-up *)

Ltac use_notify_at s0 :=
  let E1 := fresh in let E2 := fresh in let E3 := fresh in
  let E4 := fresh in let E5 := fresh in let E6 := fresh in
  let E7 := fresh in
  destruct (notify_all_completed_frame s0) as (E1 & E2 & E3 & E4 & E5 & E6 & E7);
  rewrite ?E1, ?E2, ?E3, ?E4, ?E5, ?E6, ?E7, ?notify_all_completed_pc in *;
  clear E1 E2 E3 E4 E5 E6 E7.

Ltac use_notify :=
  try match goal with
  | |- context [notify_all_completed ?s0] => use_notify_at s0
  | _ : context [notify_all_completed ?s0] |- _ => use_notify_at s0
  end.

Ltac norm_tests :=
  repeat match goal with
  | H : (_ <? _) = true |- _ => apply Z.ltb_lt in H
  | H : (_ <? _) = false |- _ => apply Z.ltb_ge in H
  | H : (_ >? _) = _ |- _ => rewrite Z.gtb_ltb in H
  | H : (_ >=? _) = _ |- _ => rewrite Z.geb_leb in H
  | H : (_ <=? _) = true |- _ => apply Z.leb_le in H
  | H : (_ <=? _) = false |- _ => apply Z.leb_gt in H
  | H : _ && _ = true |- _ => apply andb_true_iff in H as [? ?]
  | H : _ && _ = false |- _ => apply andb_false_iff in H
  | H : bool_decide _ = true |- _ => apply bool_decide_eq_true in H
  | H : bool_decide _ = false |- _ => apply bool_decide_eq_false in H
  end.

Lemma wake_inv_step a s s' evs :
  mutex_inv s → wake_inv s → step a s = Next s' evs → wake_inv s'.
Proof.
  intros (Hs & Ho & Hw & _) Hk H.
  step_inv H.
  all: unfold wake_inv in *; simpl; use_notify.
  all: simpl in *; norm_pc; simpl in *.
  all: use_stack Hs; simpl.
  all: try done.
  all: intros w' wk' Hl' Hi'; wk_cases; simpl in *.
  all: repeat match goal with
       | Hl : workers _ !! ?w = Some ?wk |- _ =>
           lazymatch goal with
           | _ : holds_w (w_pc wk) = true → _ |- _ => fail
           | _ => pose proof (Hk w wk Hl); pose proof (Hw w wk Hl)
           end
       end.
  all: norm_tests.
  all: try (by match goal with |- context [o_pc ?s0] => destruct (o_pc s0) end).
  all: try match goal with |- context [o_pc ?s0] => destruct (o_pc s0) eqn:? end;
       simpl in *; try done.
  all: destruct Ho as [Ho1 Ho2].
  all: repeat match goal with
       | H : w_index _ = w_index _ |- _ => rewrite H in *; clear H
       | H : w_pc ?a = w_pc ?b |- _ => rewrite H in *; clear H
       end.
  all: split_and?; try (intros E; rewrite ?E in *; simpl in * ).
  all: try (by intuition congruence).
  all: try (exfalso; lia).
Qed.

(** ** The invariant of all executions *)

Lemma inv_fresh hc : inv (fresh hc).
Proof.
  pose proof (unsigned_wrap_range hc).
  split_and!.
  - split_and!; [by left|done|]. split; [done|]. by intros ? [=].
  - repeat split; simpl; try done; lia.
  - split; [|done]. split_and!; try done. apply NoDup_nil_2.
  - by intros ? ? ?.
Qed.

Lemma inv_step a s s' evs : inv s → step a s = Next s' evs → inv s'.
Proof.
  intros (Hm & Hr & Ht & Hk) H. split_and!.
  - by eapply mutex_inv_step.
  - eapply range_inv_step; [apply Hm|done..].
  - by eapply table_inv_step.
  - by eapply wake_inv_step.
Qed.

Lemma run_nil s : run [] s = Some (s, []).
Proof. done. Qed.

Lemma run_cons a sch s s' tr :
  run (a :: sch) s = Some (s', tr) ↔
  ∃ s1 ev tr', step a s = Next s1 ev ∧ run sch s1 = Some (s', tr') ∧ tr = ev ++ tr'.
Proof.
  simpl. split.
  - destruct (step a s) as [s1 ev| |]; try done.
    destruct (run sch s1) as [[s2 tr']|] eqn:E; try done.
    intros [= <- <-]. by exists s1, ev, tr'.
  - intros (s1 & ev & tr' & -> & -> & ->). done.
Qed.

Lemma run_app sch1 sch2 s s' tr :
  run (sch1 ++ sch2) s = Some (s', tr) ↔
  ∃ s1 tr1 tr2, run sch1 s = Some (s1, tr1) ∧ run sch2 s1 = Some (s', tr2) ∧
                tr = tr1 ++ tr2.
Proof.
  revert s tr. induction sch1 as [|a sch1 IH]; intros s tr.
  - simpl. split; [by exists s, [], tr|]. by intros (? & ? & ? & [= <- <-] & ? & ->).
  - rewrite <-app_comm_cons, run_cons. split.
    + intros (s1 & ev & tr' & Hs & (s2 & tr1 & tr2 & H1 & H2 & ->)%IH & ->).
      exists s2, (ev ++ tr1), tr2. split_and!; [|done|by rewrite (assoc (++))].
      apply run_cons. by exists s1, ev, tr1.
    + intros (s2 & tr1 & tr2 & (s1 & ev & tr' & Hs & H1 & ->)%run_cons & H2 & ->).
      exists s1, ev, (tr' ++ tr2). split_and!; [done| |by rewrite (assoc (++))].
      apply IH. by exists s2, tr', tr2.
Qed.

(** An invariant of the steps holds of every state a schedule reaches. *)
Lemma run_invariant (P : state → Prop) :
  (∀ a s s' ev, P s → step a s = Next s' ev → P s') →
  ∀ sch s s' tr, P s → run sch s = Some (s', tr) → P s'.
Proof.
  intros Hstep sch. induction sch as [|a sch IH]; intros s s' tr HP.
  - by intros [= <- <-].
  - intros (s1 & ev & tr' & Hs & Hr & ->)%run_cons. eauto.
Qed.

Lemma run_invariant_trace (P : list event → state → Prop) :
  (∀ a s s' pre ev, P pre s → step a s = Next s' ev → P (pre ++ ev) s') →
  ∀ sch s s' pre tr, P pre s → run sch s = Some (s', tr) → P (pre ++ tr) s'.
Proof.
  intros Hstep sch. induction sch as [|a sch IH]; intros s s' pre tr HP.
  - intros [= <- <-]. by rewrite app_nil_r.
  - intros (s1 & ev & tr' & Hs & Hr & ->)%run_cons. rewrite (assoc (++)).
    eauto.
Qed.

Lemma inv_run sch s s' tr : inv s → run sch s = Some (s', tr) → inv s'.
Proof. apply (run_invariant inv). intros; by eapply inv_step. Qed.

Lemma inv_reach hc sch s tr : run sch (fresh hc) = Some (s, tr) → inv s.
Proof. apply inv_run, inv_fresh. Qed.

(** ** Joins and spawns in the trace *)

Lemma joins_app tr1 tr2 : joins (tr1 ++ tr2) = joins tr1 ++ joins tr2.
Proof. apply omap_app. Qed.

Lemma spawns_app tr1 tr2 : spawns (tr1 ++ tr2) = spawns tr1 ++ spawns tr2.
Proof. apply omap_app. Qed.

Lemma history_inv_same tr s s' :
  Forall2 same_thread (workers s) (workers s') →
  history_inv tr s → history_inv tr s'.
Proof.
  intros HF (Hnd & Hj & Hsp). split_and!; [done| |].
  - intros id. rewrite Hj. split.
    + intros (wk & Hl & Hpc).
      destruct (Forall2_lookup_l _ _ _ _ _ HF Hl) as (wk' & Hl' & _ & E).
      exists wk'. split; [done|by apply E].
    + intros (wk' & Hl' & Hpc).
      destruct (Forall2_lookup_r _ _ _ _ _ HF Hl') as (wk & Hl & _ & E).
      exists wk. split; [done|by apply E].
  - by rewrite <-(Forall2_length _ _ _ HF).
Qed.

Lemma history_inv_frame tr s s' :
  workers s' = workers s → history_inv tr s → history_inv tr s'.
Proof. unfold history_inv. by intros ->. Qed.

Lemma history_inv_silent tr ev s :
  joins ev = [] → spawns ev = [] →
  history_inv tr s → history_inv (tr ++ ev) s.
Proof.
  unfold history_inv. rewrite joins_app, spawns_app. intros -> ->.
  by rewrite !app_nil_r.
Qed.

Lemma history_inv_step a s s' pre evs :
  inv s → history_inv pre s → step a s = Next s' evs →
  history_inv (pre ++ evs) s'.
Proof.
  intros ((Hs & _) & (_ & _ & _ & Hpc) & Ht & _) Hh H.
  step_inv H.
  all: try (apply history_inv_silent; [done|done|]).
  all: rewrite ?app_nil_r.
  all: try (by eapply history_inv_frame; [|exact Hh]).
  all: try (by match goal with
       | |- history_inv _ (set_wpc ?w ?wk ?pc ?s0) =>
           eapply history_inv_same; [|exact Hh]; simpl; use_notify;
           apply same_thread_insert; [done|congruence|done]
       end).
  all: try (by eapply history_inv_same; [|exact Hh]; simpl;
                 first [apply same_thread_wake | apply same_thread_wake_one]).
  - (* line 46: a thread is spawned *)
    destruct Hh as (Hnd & Hj & Hsp). unfold history_inv.
    rewrite joins_app, spawns_app. simpl. rewrite app_nil_r, length_app, Hsp.
    split_and!; [done| |by rewrite seq_app].
    intros id. rewrite Hj. split.
    + intros (wk & Hl & ?). exists wk. split; [|done]. by apply lookup_app_l_Some.
    + intros (wk & [(_ & Hl)|(_ & <-)]%lookup_snoc_Some & ?); [|done]. eauto.
  - (* line 85: a thread is joined *)
    destruct Hh as (Hnd & Hj & Hsp). unfold history_inv.
    rewrite joins_app, spawns_app. simpl.
    rewrite app_nil_r, length_insert.
    assert (n ∉ joins pre) as Hfresh.
    { rewrite Hj. intros (wk & Hl & ?). congruence. }
    split_and!; [|  |done].
    + apply NoDup_app. split_and!; [done| |apply NoDup_singleton].
      by intros x Hx ->%list_elem_of_singleton.
    + intros id. rewrite elem_of_app, list_elem_of_singleton, Hj. split.
      * intros [(wk & Hl & Hj')| ->].
        -- destruct (decide (id = n)) as [->|Hne]; [congruence|].
           exists wk. by rewrite list_lookup_insert_ne.
        -- eexists. split; [apply list_lookup_insert_eq; by eapply lookup_lt_Some|done].
      * intros (wk & [(-> & _)|(? & Hl)]%list_lookup_insert_Some & ?); eauto.
Qed.

(** ** Handles against the target count *)

Lemma count_inv_step a s s' evs :
  inv s → count_inv s → fits a s = true → step a s = Next s' evs →
  count_inv s'.
Proof.
  intros ((Hs & _) & (Hn & _ & Hsz & Hpc) & _) [Hc Hd] Hf H.
  step_inv H.
  all: unfold count_inv, closing_all, pc_range in *; simpl; use_notify.
  all: simpl in *; norm_pc; simpl in *.
  all: use_stack Hs; simpl in *.
  all: try done.
  all: try (rewrite Hs in Hd).
  all: try (specialize (Hd eq_refl)).
  all: try match goal with
       | H : last _ = Some _ |- _ => apply last_Some_length in H
       end.
  all: rewrite ?length_app, ?length_removelast in *; simpl in *.
  all: norm_tests.
  all: try (rewrite (size_t_wrap_id (_ + _)) by lia).
  all: try (rewrite (size_t_wrap_id (_ - _)) by lia).
  all: try (rewrite (unsigned_wrap_id (_ + _)) by lia).
  all: wrap_facts.
  all: try (split; [|intros; simplify_eq]).
  all: try lia.
  all: try congruence.
  all: try (by destruct (o_pc s); simpl in *; auto).
  all: intros Hk; specialize (Hc Hk);
    rewrite (unsigned_wrap_id (i + 1)) by lia; lia.
Qed.

(** ** Workers find the task they take *)

(** While the counts agree, a thread that is not joined has an index below
    the target count. *)
Lemma live_index_lt s w wk :
  table_inv s → popping s = false →
  workers s !! w = Some wk → w_pc wk ≠ WJoined →
  w_index wk < Z.of_nat (length (m_threads s)).
Proof.
  intros [(Ha & _ & Hc) _] Hp Hl Hj. unfold owned in Hc. rewrite Hp in Hc.
  destruct (decide (w ∈ m_threads s)) as [Hin|Hni].
  - apply list_elem_of_lookup in Hin as (p & Hp').
    destruct (Ha _ _ Hp') as (wk' & Hl' & Hi). simplify_eq.
    apply lookup_lt_Some in Hp'. lia.
  - by apply (Hc _ _ Hl) in Hni.
Qed.

Lemma pop_inv_step a s s' evs :
  inv s → count_inv s → pop_inv s → step a s = Next s' evs → pop_inv s'.
Proof.
  intros ((Hs & Ho & Hw & _) & _ & Ht & _) [Hc _] Hp H.
  pose proof (live_index_lt s) as Hlive. specialize (λ w wk, Hlive w wk Ht).
  step_inv H.
  all: unfold pop_inv, count_inv, popping in *; simpl; use_notify.
  all: simpl in *; norm_pc; simpl in *.
  all: use_stack Hs; simpl in *.
  all: try done.
  all: intros w' wk' Hl'; wk_cases; simpl in *; try done.
  all: repeat match goal with
       | Hl : workers _ !! ?w = Some ?wk |- _ =>
           lazymatch goal with
           | _ : holds_w (w_pc wk) = true → _ |- _ => fail
           | _ => pose proof (Hp w wk Hl); pose proof (Hw w wk Hl);
                  try pose proof (Hlive w wk eq_refl Hl)
           end
       end.
  all: norm_tests.
  all: repeat match goal with
       | H : w_index _ = w_index _ |- _ => rewrite H in *; clear H
       | H : w_pc ?a = w_pc ?b |- _ => rewrite H in *; clear H
       end.
  all: destruct Ho as [Ho1 Ho2].
  all: try (destruct (w_pc wk') eqn:E; simpl in *; try done).
  all: repeat match goal with
       | H : w_pc _ = _ |- _ => rewrite H in *
       end; simpl in *.
  all: repeat match goal with
       | H : _ = false ∨ _ = false |- _ => destruct H
       end; norm_tests.
  all: repeat match goal with
       | H : ?a ≠ ?b → _ |- _ => specialize (H ltac:(discriminate))
       | H : ?a = ?a → _ |- _ => specialize (H eq_refl)
       | H : false = true → _ |- _ => clear H
       end.
  all: try (by intuition congruence).
  all: by intuition lia.
Qed.

(** ** Executions without overflow *)

Lemma good_fresh hc : good (fresh hc).
Proof.
  split_and!; [apply inv_fresh| |]; [by split|by intros ? ? ?].
Qed.

Lemma good_step a s s' evs :
  good s → fits a s = true → step a s = Next s' evs → good s'.
Proof.
  intros (Hi & Hc & Hp) Hf H. split_and!.
  - by eapply inv_step.
  - by eapply count_inv_step.
  - by eapply pop_inv_step.
Qed.

Lemma good_run sch s s' tr :
  good s → admissible sch s = true → run sch s = Some (s', tr) → good s'.
Proof.
  revert s tr. induction sch as [|a sch IH]; intros s tr Hg Ha.
  - by intros [= <- <-].
  - intros (s1 & ev & tr' & Hs & Hr & ->)%run_cons. simpl in Ha.
    apply andb_true_iff in Ha as [Hf Ha]. rewrite Hs in Ha.
    eapply IH; [|done..]. by eapply good_step.
Qed.

Lemma good_reach hc sch s tr :
  admissible sch (fresh hc) = true → run sch (fresh hc) = Some (s, tr) → good s.
Proof. apply good_run, good_fresh. Qed.

Lemma history_fresh hc : history_inv [] (fresh hc).
Proof.
  split_and!; [apply NoDup_nil_2| |done].
  intros id. split; [by intros ?%elem_of_nil|]. by intros (? & ? & _).
Qed.

Lemma history_run sch s s' pre tr :
  inv s → history_inv pre s → run sch s = Some (s', tr) →
  history_inv (pre ++ tr) s'.
Proof.
  intros Hi Hh Hr.
  enough (inv s' ∧ history_inv (pre ++ tr) s') as [_ ?] by done.
  revert sch s s' pre tr Hi Hh Hr.
  intros sch s s' pre tr Hi Hh.
  apply (run_invariant_trace (λ tr s, inv s ∧ history_inv tr s)); [|done].
  intros a s0 s0' pre0 ev [Hi0 Hh0] Hs. split.
  - by eapply inv_step.
  - by eapply history_inv_step.
Qed.

Lemma history_reach hc sch s tr :
  run sch (fresh hc) = Some (s, tr) → history_inv tr s.
Proof.
  intros Hr. apply (history_run _ _ _ [] tr (inv_fresh hc) (history_fresh hc) Hr).
Qed.

(** * The properties of the specification *)

(** ** C4: handles and target count agree outside the resizing functions *)

(** C4 as stated fails: after [start_threads(-1)] on a pool of one worker
    the owner is idle with one handle and a target count of zero. *)
Lemma C4_counterexample :
  ¬ (∀ hc sch s tr,
       run sch (fresh hc) = Some (s, tr) → resizing (o_pc s) = false →
       Z.of_nat (length (m_threads s)) = m_num_threads s).
Proof.
  intros H.
  assert (run overflow (fresh 8) = Some (final 8 overflow, trace 8 overflow)) as Hr
    by (vm_compute; reflexivity).
  assert (resizing (o_pc (final 8 overflow)) = false) as Hq
    by (vm_compute; reflexivity).
  specialize (H _ _ _ _ Hr Hq). vm_compute in H. discriminate.
Qed.

(** C4, amended: in every execution in which no call of [start_threads]
    overflows the target count, the number of handles in [m_threads] equals
    [m_num_threads] whenever the owner is outside [start_threads],
    [shutdown_threads] and [set_n_threads]; in particular right after each
    of them returns. *)
Theorem C4_counts_agree hc sch s tr :
  admissible sch (fresh hc) = true →
  run sch (fresh hc) = Some (s, tr) →
  resizing (o_pc s) = false →
  Z.of_nat (length (m_threads s)) = m_num_threads s.
Proof.
  intros Ha Hr Hq. destruct (good_reach _ _ _ _ Ha Hr) as (_ & [Hc _] & _).
  destruct (o_pc s); simpl in *; try done; lia.
Qed.

Lemma C4_counts_agree_witness :
  admissible lifecycle (fresh 8) = true ∧
  run lifecycle (fresh 8) = Some (final 8 lifecycle, trace 8 lifecycle) ∧
  resizing (o_pc (final 8 lifecycle)) = false ∧
  Z.of_nat (length (m_threads (final 8 lifecycle))) =
    m_num_threads (final 8 lifecycle).
Proof.
  split_and!; [vm_compute; reflexivity..|].
  apply (C4_counts_agree 8 lifecycle (final 8 lifecycle) (trace 8 lifecycle));
    vm_compute; reflexivity.
Defined.

(** ** C7: a thread that is never joined *)

(** With the overflow of [overflow], the destructor reaches its end with a
    handle it has not joined; destroying that handle ends the program. *)
Lemma overflow_delete_faults :
  o_pc (final 8 overflow_delete) = CDtor41 ∧
  m_threads (final 8 overflow_delete) = [0%nat] ∧
  step AOwner (final 8 overflow_delete) = Fault.
Proof. vm_compute. done. Qed.


(** ** C5: [wait_until_queue_completed] returns with an empty queue *)

Lemma drained_inv_step a s s' evs :
  mutex_inv s → drained_inv s → step a s = Next s' evs → drained_inv s'.
Proof.
  intros (Hs & Ho & Hw & _) Hd H.
  step_inv H.
  all: unfold drained_inv in *; simpl; use_notify.
  all: simpl in *; norm_pc; simpl in *.
  all: use_stack Hs; simpl in *.
  all: try done.
  all: try (by destruct (o_pc s)).
  all: intros E; rewrite E in *; simpl in *.
  all: assert (m_task_queue_mutex s = Some TOwner) as Hm by (by apply Ho).
  all: try (by rewrite Hd in * ).
  all: match goal with
       | Hl : workers _ !! ?w = Some ?wk, Hpc : w_pc ?wk = _ |- _ =>
           specialize (Hw w wk Hl); rewrite Hpc in Hw; specialize (Hw eq_refl);
           congruence
       end.
Qed.

Lemma drained_reach hc sch s tr :
  run sch (fresh hc) = Some (s, tr) → drained_inv s.
Proof.
  intros Hr.
  enough (inv s ∧ drained_inv s) by tauto.
  eapply (run_invariant (λ s, inv s ∧ drained_inv s)); [| |exact Hr].
  - intros a s1 s2 ev [Hi Hd] Hs. split; [by eapply inv_step|].
    eapply drained_inv_step; [apply Hi|done..].
  - split; [apply inv_fresh|done].
Qed.

(** C5: when [wait_until_queue_completed] stands at its return (line 101),
    the owner holds the mutex and the queue is empty, and the return step
    releases the mutex with the queue still empty; a worker may at that
    point still be running a task it dequeued before. *)
Theorem C5_wait_returns_drained hc sch s tr :
  run sch (fresh hc) = Some (s, tr) →
  o_pc s = CWait101 →
  (m_task_queue s = [] ∧ m_task_queue_mutex s = Some TOwner ∧
   ∃ s', step AOwner s = Next s' [] ∧
         m_task_queue s' = [] ∧ m_task_queue_mutex s' = None ∧
         (o_pc s' = CIdle ∨ o_pc s' = CDtor40)) ∧
  (∃ w wk t,
     o_pc (final 8 wait_while_running) = CWait101 ∧
     workers (final 8 wait_while_running) !! w = Some wk ∧
     w_pc wk = WRunning t).
Proof.
  intros Hr E. split.
  - pose proof (drained_reach _ _ _ _ Hr E) as Hq.
    destruct (inv_reach _ _ _ _ Hr) as ((Hs & Ho & _) & _).
    split_and!; [done|by apply Ho; rewrite E|].
    unfold step, owner_step, ret. rewrite E. simpl.
    destruct Hs as [Hs|[[Hs _]|[Hs Hin]]]; rewrite Hs; simpl;
      [| |by rewrite E in Hin].
    + eexists. split; [done|]. simpl. auto.
    + eexists. split; [done|]. simpl. auto.
  - exists 0%nat, (Worker 0 (WRunning 7%nat)), 7%nat. vm_compute. done.
Qed.

Lemma C5_wait_returns_drained_witness :
  run wait_while_running (fresh 8) =
    Some (final 8 wait_while_running, trace 8 wait_while_running) ∧
  o_pc (final 8 wait_while_running) = CWait101 ∧
  m_task_queue (final 8 wait_while_running) = [].
Proof.
  split; [vm_compute; reflexivity|]. split; [vm_compute; reflexivity|].
  apply (C5_wait_returns_drained 8 wait_while_running
           (final 8 wait_while_running) (trace 8 wait_while_running));
    vm_compute; reflexivity.
Defined.

(** ** C6: writes to the shared state and the mutex *)

(** Every write to the queue, and the write of line 79 to the target
    count, is made by the thread that holds the mutex; the one write that is
    not is that of line 44. *)
Lemma writes_locked hc sch s tr a s' ev who x h :
  run sch (fresh hc) = Some (s, tr) →
  step a s = Next s' ev →
  EvWrite who x h ∈ ev →
  h = m_task_queue_mutex s ∧
  (h = Some who ∨ (who = TOwner ∧ x = VNum ∧ ∃ num, o_pc s = CStart44 num)).
Proof.
  intros Hr H Hin.
  destruct (inv_reach _ _ _ _ Hr) as ((Hs & Ho & Hw & _) & _).
  step_inv H.
  all: repeat match goal with
       | H : _ ∈ [] |- _ => by apply elem_of_nil in H
       | H : _ ∈ _ :: _ |- _ => apply elem_of_cons in H as [H|H]
       end; simplify_eq.
  all: split; [done|].
  all: try (by right; eauto).
  all: left.
  all: try (by apply Ho; norm_pc).
  all: match goal with
       | Hl : workers _ !! ?w = Some ?wk, Hpc : w_pc ?wk = _ |- _ =>
           apply (Hw w wk Hl); by rewrite Hpc
       end.
Qed.

Lemma start_threads_writes_unlocked hc sch s tr num :
  run sch (fresh hc) = Some (s, tr) →
  o_pc s = CStart44 num →
  ∃ s', step AOwner s = Next s' [EvWrite TOwner VNum (m_task_queue_mutex s)] ∧
        m_task_queue_mutex s ≠ Some TOwner.
Proof.
  intros Hr E. destruct (inv_reach _ _ _ _ Hr) as ((_ & Ho & _) & _).
  unfold step, owner_step. rewrite E. eexists. split; [done|].
  intros Hm. apply Ho in Hm. by rewrite E in Hm.
Qed.

(** C6 fails on the code: [start_threads(1)] on a pool with one worker
    writes [m_num_threads] at line 44 while worker 0, not the owner, holds
    the mutex. *)
Theorem C6_start_threads_writes_unlocked :
  run (removelast racy_start) (fresh 8) =
    Some (final 8 (removelast racy_start), trace 8 (removelast racy_start)) ∧
  m_task_queue_mutex (final 8 (removelast racy_start)) = Some (TWorker 0) ∧
  step AOwner (final 8 (removelast racy_start)) =
    Next (final 8 racy_start) [EvWrite TOwner VNum (Some (TWorker 0))] ∧
  m_num_threads (final 8 (removelast racy_start)) = 1 ∧
  m_num_threads (final 8 racy_start) = 2.
Proof. vm_compute. done. Qed.

(** ** C2: the only way out of the worker loop *)

(** A step finishes worker [w] exactly when it is [w]'s own step at the
    test of line 58 and the test finds the index at or above the target
    count. *)
Lemma finishes_iff a s s' ev w wk :
  mutex_inv s → step a s = Next s' ev →
  workers s !! w = Some wk → w_pc wk ≠ WFinished →
  (∃ wk', workers s' !! w = Some wk' ∧ w_pc wk' = WFinished) ↔
  (a = AWorker w ∧ w_pc wk = WExitTest ∧ m_num_threads s ≤ w_index wk ∧
   m_task_queue_mutex s = Some (TWorker w)).
Proof.
  intros (_ & _ & Hw & _) H Hl Hpc. split.
  - intros (wk' & Hl' & Hpc'). step_inv H; simpl in *; use_notify.
    all: wk_cases; simplify_eq; simpl in *; try congruence.
    norm_tests. split_and!; [done..|lia|].
    match goal with
    | Hl : workers _ !! _ = Some ?x, Hx : w_pc ?x = WExitTest |- _ =>
        apply (Hw _ _ Hl); by rewrite Hx
    end.
  - intros (-> & Hpc' & Hi & Hm). simpl in H. unfold worker_step in H.
    rewrite Hl, Hpc' in H.
    destruct (w_index wk >=? m_num_threads s) eqn:E; [|norm_tests; lia].
    simplify_eq. simpl. exists (Worker (w_index wk) WFinished). split; [|done].
    apply list_lookup_insert_eq. by eapply lookup_lt_Some.
Qed.

(** A thread that is neither finished nor joined is, after a step, in one
    of the two states only if the step finishes it. *)
Lemma unjoined_step a s s' ev w wk :
  step a s = Next s' ev →
  workers s !! w = Some wk → w_pc wk ≠ WFinished → w_pc wk ≠ WJoined →
  ∃ wk', workers s' !! w = Some wk' ∧ w_index wk' = w_index wk ∧
         w_pc wk' ≠ WJoined.
Proof.
  intros H Hl H1 H2.
  step_inv H; simpl in *; use_notify.
  all: try (by exists wk).
  all: try (by destruct (decide (w = w0)) as [->|Hne]; simplify_eq;
       [eexists; split; [apply list_lookup_insert_eq; by eapply lookup_lt_Some|done]
       |exists wk; by rewrite list_lookup_insert_ne]).
  - exists wk. split; [|done]. by apply lookup_app_l_Some.
  - destruct (wake_lookup_inv _ _ _ Hl) as (wk' & Hl' & Hi & [E|[_ E]]);
      exists wk'; split_and!; try done; congruence.
  - destruct (decide (w = n)) as [->|Hne]; simplify_eq.
    exists wk. by rewrite list_lookup_insert_ne.
  - destruct (wake_one_lookup_inv _ _ _ Hl) as (wk' & Hl' & Hi & [E|[_ E]]);
      exists wk'; split_and!; try done; congruence.
  - destruct (wake_one_lookup_inv _ _ _ Hl) as (wk' & Hl' & Hi & [E|[_ E]]);
      exists wk'; split_and!; try done; congruence.
Qed.

Lemma stays_alive sch : ∀ s s' tr w wk,
  inv s → run sch s = Some (s', tr) →
  workers s !! w = Some wk → w_pc wk ≠ WFinished → w_pc wk ≠ WJoined →
  (∀ sch1 sch2 s1 tr1, sch = sch1 ++ sch2 → run sch1 s = Some (s1, tr1) →
                       w_index wk < m_num_threads s1) →
  ∃ wk', workers s' !! w = Some wk' ∧ w_pc wk' ≠ WFinished ∧ w_pc wk' ≠ WJoined.
Proof.
  induction sch as [|a sch IH]; intros s s' tr w wk Hi Hr Hl H1 H2 Hlt.
  - injection Hr as <- <-. by exists wk.
  - apply run_cons in Hr as (s1 & ev & tr' & Hs & Hr & ->).
    destruct (unjoined_step _ _ _ _ _ _ Hs Hl H1 H2) as (wk1 & Hl1 & Hi1 & Hj1).
    assert (w_pc wk1 ≠ WFinished) as Hf1.
    { intros E.
      destruct (proj1 (finishes_iff _ _ _ _ _ _ (proj1 Hi) Hs Hl H1)) as (_ & _ & Hge & _);
        [by exists wk1|].
      specialize (Hlt [] (a :: sch) s [] eq_refl eq_refl). lia. }
    eapply (IH s1 s' tr' w wk1); [by eapply inv_step|done..|].
    intros sch1 sch2 s2 tr2 -> Hr2. rewrite Hi1.
    eapply (Hlt (a :: sch1) sch2); [done|].
    apply run_cons. by exists s1, ev, tr2.
Qed.

(** C2: for a worker of a reachable state that has not finished, a step
    makes it finish exactly when the step is the worker's own test of line
    58, made with the mutex held, and finds the index at or above the
    target count; a worker at that test holds the mutex, leaves the loop
    when its index is at or above the target count and goes on to line 62
    otherwise; and along any continuation in which the index stays below
    the target count the worker does not finish. *)
Theorem C2_worker_exit hc sch s tr w wk :
  run sch (fresh hc) = Some (s, tr) →
  workers s !! w = Some wk → w_pc wk ≠ WFinished → w_pc wk ≠ WJoined →
  (∀ a s' ev, step a s = Next s' ev →
     ((∃ wk', workers s' !! w = Some wk' ∧ w_pc wk' = WFinished) ↔
      (a = AWorker w ∧ w_pc wk = WExitTest ∧ m_num_threads s ≤ w_index wk ∧
       m_task_queue_mutex s = Some (TWorker w)))) ∧
  (w_pc wk = WExitTest →
     m_task_queue_mutex s = Some (TWorker w) ∧
     (m_num_threads s ≤ w_index wk →
        step (AWorker w) s =
          Next (set_wpc w wk WFinished (set_mutex None s)) [EvExit w]) ∧
     (w_index wk < m_num_threads s →
        step (AWorker w) s = Next (set_wpc w wk WPop s) [])) ∧
  (∀ sch' s' tr',
     run sch' s = Some (s', tr') →
     (∀ sch1 sch2 s1 tr1, sch' = sch1 ++ sch2 → run sch1 s = Some (s1, tr1) →
                          w_index wk < m_num_threads s1) →
     ∃ wk', workers s' !! w = Some wk' ∧ w_pc wk' ≠ WFinished ∧
            w_pc wk' ≠ WJoined).
Proof.
  intros Hr Hl H1 H2. pose proof (inv_reach _ _ _ _ Hr) as Hi. split_and!.
  - intros a s' ev Hs. by apply (finishes_iff a s s' ev w wk); [apply Hi|..].
  - intros Hpc. destruct Hi as ((_ & _ & Hw & _) & _).
    split_and!.
    + apply (Hw w wk Hl). by rewrite Hpc.
    + intros Hge. simpl. unfold worker_step. rewrite Hl, Hpc.
      by rewrite (proj2 (Z.geb_le _ _)) by lia.
    + intros Hlt. simpl. unfold worker_step. rewrite Hl, Hpc.
      destruct (w_index wk >=? m_num_threads s) eqn:E; [|done].
      apply Z.geb_le in E. lia.
  - intros sch' s' tr' Hr' Hlt. by eapply stays_alive.
Qed.

(** Worker 1 of [lifecycle], told to close by [set_n_threads(1)], stands at
    the test of line 58 with index 1 and target count 1, and its step
    leaves the loop; worker 0 of a pool of one worker, whose index stays
    below the target count, is still in its loop three steps later. *)
Lemma C2_worker_exit_witness :
  run (take 34 lifecycle) (fresh 8) =
    Some (final 8 (take 34 lifecycle), trace 8 (take 34 lifecycle)) ∧
  workers (final 8 (take 34 lifecycle)) !! 1%nat = Some (Worker 1 WExitTest) ∧
  m_num_threads (final 8 (take 34 lifecycle)) = 1 ∧
  step (AWorker 1) (final 8 (take 34 lifecycle)) =
    Next (final 8 (take 35 lifecycle)) [EvExit 1] ∧
  workers (final 8 (take 35 lifecycle)) !! 1%nat = Some (Worker 1 WFinished) ∧
  (∃ wk', workers (final 8 (one_worker ++ repeat (AWorker 0) 3)) !! 0%nat =
            Some wk' ∧ w_pc wk' ≠ WFinished ∧ w_pc wk' ≠ WJoined).
Proof.
  split; [vm_compute; reflexivity|]. split; [vm_compute; reflexivity|].
  split; [vm_compute; reflexivity|].
  destruct (C2_worker_exit 8 (take 34 lifecycle) (final 8 (take 34 lifecycle))
              (trace 8 (take 34 lifecycle)) 1%nat (Worker 1 WExitTest))
    as (_ & Hexit & _); [vm_compute; reflexivity|vm_compute; reflexivity
                        |vm_compute; discriminate|vm_compute; discriminate|].
  destruct (Hexit eq_refl) as (_ & Hgo & _).
  split; [rewrite Hgo by (vm_compute; discriminate); vm_compute; reflexivity|].
  split; [vm_compute; reflexivity|].
  destruct (C2_worker_exit 8 one_worker (final 8 one_worker) (trace 8 one_worker)
              0%nat (Worker 0 WAcquire))
    as (_ & _ & Hstay); [vm_compute; reflexivity|vm_compute; reflexivity
                        |vm_compute; discriminate|vm_compute; discriminate|].
  apply (Hstay (repeat (AWorker 0) 3) _ []).
  - vm_compute; reflexivity.
  - intros sch1 sch2 s1 tr1 E Hr1.
    destruct sch1 as [|a1 [|a2 [|a3 [|a4 sch1]]]]; simpl in E; simplify_eq;
      vm_compute in Hr1; simplify_eq; vm_compute; reflexivity.
Defined.

(** ** C10: the subtraction of line 79 does not wrap *)

Lemma shut_num_step n0 num a s s' evs :
  0 ≤ n0 < size_t_max → 0 ≤ num < size_t_max →
  shut_num n0 num s → is_call a = false → step a s = Next s' evs →
  shut_num n0 num s'.
Proof.
  intros Hn0 Hnum [Hs Hc] Ha H.
  step_inv H; try done.
  all: unfold shut_num in *; simpl; use_notify.
  all: simpl in *; norm_pc; simpl in *.
  all: try done.
  all: try (destruct Hc as [-> ->]).
  all: try (rewrite (size_t_wrap_id (_ - _)) by lia).
  all: try (split; [done|]; try done; lia).
  all: by destruct (o_pc s).
Qed.

Lemma shut_num_run n0 num sch s s' tr :
  0 ≤ n0 < size_t_max → 0 ≤ num < size_t_max →
  shut_num n0 num s → calls_free sch = true → run sch s = Some (s', tr) →
  shut_num n0 num s'.
Proof.
  intros Hn0 Hnum. revert s tr.
  induction sch as [|a sch IH]; intros s tr Hs Hf.
  - by intros [= <- <-].
  - intros (s1 & ev & tr' & H1 & Hr & ->)%run_cons. simpl in Hf.
    apply andb_true_iff in Hf as [Ha Hf]. apply negb_true_iff in Ha.
    eapply IH; [|done..]. by eapply shut_num_step.
Qed.

(** C10: in a call [shutdown_threads(num)] entered with the target count
    [t], line 75 computes [k = min(num, t)], the subtraction of line 79
    yields [t - k] without wrapping around, and from then on until the call
    has returned the target count is [t - k], which is zero when
    [num >= t]. *)
Theorem C10_subtraction_exact hc sch0 s0 tr0 num sch s tr :
  run sch0 (fresh hc) = Some (s0, tr0) → o_pc s0 = CIdle →
  calls_free sch = true →
  run (ACall (OpShutdown num) :: sch) s0 = Some (s, tr) →
  let t := m_num_threads s0 in
  let k := Z.min (size_t_wrap num) t in
  0 ≤ t - k < size_t_max ∧
  (∀ k', o_pc s = CShut79 k' →
         k' = k ∧ size_t_wrap (m_num_threads s - k') = t - k) ∧
  (past79 (o_pc s) = true →
     m_num_threads s = t - k ∧ (t ≤ size_t_wrap num → m_num_threads s = 0)).
Proof.
  intros Hr0 E Hf Hr t k.
  destruct (inv_reach _ _ _ _ Hr0) as ((Hs & _) & (Hn & _) & _).
  pose proof (size_t_wrap_range num) as Hnum.
  apply run_cons in Hr as (s1 & ev & tr' & H1 & Hr & ->).
  assert (shut_num t (size_t_wrap num) s1) as Hrel.
  { simpl in H1. unfold call in H1. rewrite E in H1. simplify_eq.
    split; simpl; [|done].
    destruct Hs as [Hs|[[_ Hs]|[_ Hs]]]; [done|by rewrite E in Hs..]. }
  destruct (shut_num_run _ _ _ _ _ _ Hn Hnum Hrel Hf Hr) as [_ Hfin].
  fold k in Hfin. split; [lia|]. split.
  - intros k' E'. rewrite E' in Hfin. destruct Hfin as [-> ->].
    split; [done|]. apply size_t_wrap_id. lia.
  - intros Hp. destruct (o_pc s); try done; (split; [done|lia]).
Qed.

Lemma C10_subtraction_exact_witness :
  run two_workers (fresh 8) = Some (final 8 two_workers, trace 8 two_workers) ∧
  o_pc (final 8 two_workers) = CIdle ∧
  m_num_threads (final 8 two_workers) = 2 ∧
  run (ACall (OpShutdown 5) :: repeat AOwner 4) (final 8 two_workers) =
    Some (final 8 (two_workers ++ ACall (OpShutdown 5) :: repeat AOwner 4),
          [EvWrite TOwner VNum (Some TOwner)]) ∧
  (past79 (o_pc (final 8 (two_workers ++ ACall (OpShutdown 5) :: repeat AOwner 4)))
     = true →
   m_num_threads (final 8 (two_workers ++ ACall (OpShutdown 5) :: repeat AOwner 4))
     = 2 - Z.min (size_t_wrap 5) 2 ∧
   (2 ≤ size_t_wrap 5 →
    m_num_threads (final 8 (two_workers ++ ACall (OpShutdown 5) :: repeat AOwner 4))
      = 0)).
Proof.
  split; [vm_compute; reflexivity|]. split; [vm_compute; reflexivity|].
  split; [vm_compute; reflexivity|]. split; [vm_compute; reflexivity|].
  apply (C10_subtraction_exact 8 two_workers (final 8 two_workers)
           (trace 8 two_workers) 5 (repeat AOwner 4)
           (final 8 (two_workers ++ ACall (OpShutdown 5) :: repeat AOwner 4))
           [EvWrite TOwner VNum (Some TOwner)]);
    vm_compute; reflexivity.
Defined.

(** ** C3: tasks leave the queue in the order they entered it *)

Lemma submitted_app tr1 tr2 : submitted (tr1 ++ tr2) = submitted tr1 ++ submitted tr2.
Proof. apply omap_app. Qed.

Lemma dequeued_app tr1 tr2 : dequeued (tr1 ++ tr2) = dequeued tr1 ++ dequeued tr2.
Proof. apply omap_app. Qed.

Lemma started_app tr1 tr2 : started (tr1 ++ tr2) = started tr1 ++ started tr2.
Proof. apply omap_app. Qed.

Lemma removed_app tr1 tr2 : removed (tr1 ++ tr2) = removed tr1 ++ removed tr2.
Proof. apply bind_app. Qed.

Lemma flushed_app tr1 tr2 : flushed (tr1 ++ tr2) = flushed tr1 ++ flushed tr2.
Proof. apply bind_app. Qed.

(** With a single worker thread, what is in hand is what that worker
    holds. *)
Lemma in_hand_single s w wk :
  (length (workers s) ≤ 1)%nat → workers s !! w = Some wk →
  w = 0%nat ∧ workers s = [wk] ∧ in_hand s = holding wk.
Proof.
  unfold in_hand. destruct (workers s) as [|wk0 [|? ?]]; simpl; [done| |lia].
  destruct w; simpl; [|done]. intros _ [= ->]. by rewrite app_nil_r.
Qed.

Lemma holding_wake_one ws : wake_one ws ≫= holding = ws ≫= holding.
Proof.
  induction ws as [|wk ws IH]; [done|]. cbn [wake_one].
  destruct (w_pc wk) eqn:E; rewrite !bind_cons, ?IH; try done.
  unfold holding. simpl. by rewrite E.
Qed.

Lemma holding_wake ws : (wake <$> ws) ≫= holding = ws ≫= holding.
Proof.
  induction ws as [|wk ws IH]; [done|]. rewrite fmap_cons, !bind_cons, IH.
  f_equal. unfold wake, holding. by destruct (w_pc wk) eqn:E; simpl; rewrite ?E.
Qed.

Lemma length_wake_one ws : length (wake_one ws) = length ws.
Proof.
  induction ws as [|wk ws IH]; [done|]. simpl.
  destruct (w_pc wk); simpl; by rewrite ?IH.
Qed.

Lemma fifo_inv_step a s s' pre evs :
  fifo_inv pre s → step a s = Next s' evs → fifo_inv (pre ++ evs) s'.
Proof.
  intros (Hq & Hsub & Hfl & Hst) H.
  unfold fifo_inv.
  rewrite submitted_app, dequeued_app, started_app, removed_app, flushed_app.
  step_inv H.
  all: simpl; use_notify; simpl; rewrite ?app_nil_r.
  all: try done.
  all: norm_pc.
  all: split_and!;
       [ rewrite ?Hq, <-?(assoc (++)); try done
       | try done; try (by apply sublist_app); try (by apply sublist_inserts_r)
       | try done;
         try (by intros [? ->]%app_eq_nil; rewrite app_nil_r; auto);
         try (by intros ?; rewrite Hfl)
       | rewrite ?length_app, ?length_insert, ?length_fmap, ?length_wake_one;
         simpl; intros Hlen; try lia ].
  all: try match goal with
       | Hl : workers _ !! ?w = Some ?wk |- context [set_wpc _ _ _ _] =>
           destruct (in_hand_single _ _ _ Hlen Hl) as (-> & Hws & Hin);
           specialize (Hst Hlen); rewrite Hin in Hst; unfold holding in Hst;
           unfold in_hand, holding; simpl; use_notify; rewrite Hws; simpl;
           match goal with Hpc : w_pc wk = _ |- _ => rewrite Hpc in Hst end;
           simpl in Hst; rewrite ?app_nil_r in *; rewrite Hst, <-?(assoc (++));
           done
       end.
  all: specialize (Hst ltac:(lia)); unfold in_hand in *; simpl;
       rewrite ?holding_wake, ?holding_wake_one; try done.
  rewrite bind_app, Hst, bind_cons. simpl. by rewrite !app_nil_r.
Qed.

Lemma fifo_reach hc sch s tr :
  run sch (fresh hc) = Some (s, tr) → fifo_inv tr s.
Proof.
  intros Hr.
  apply (run_invariant_trace fifo_inv (λ a s s' pre ev, fifo_inv_step a s s' pre ev)
           sch (fresh hc) s [] tr); [|done].
  split_and!; try done.
Qed.

Lemma dequeue_takes_head a s s' ev w t :
  step a s = Next s' ev → EvDequeue w t ∈ ev →
  a = AWorker w ∧ m_task_queue s = t :: m_task_queue s'.
Proof.
  intros H Hin. step_inv H.
  all: repeat match goal with
       | H : _ ∈ [] |- _ => by apply elem_of_nil in H
       | H : _ ∈ _ :: _ |- _ => apply elem_of_cons in H as [H|H]
       end; simplify_eq.
  done.
Qed.

(** C3: every dequeue takes the task at the head of the queue; the tasks
    submitted are, in order, those that left the queue followed by those
    still queued; and with a single worker thread the tasks start in the
    order of their submission: the started tasks are a subsequence of the
    submitted ones, and a prefix when no flush discarded a task. *)
Theorem C3_fifo hc sch s tr :
  run sch (fresh hc) = Some (s, tr) →
  (∀ a s' ev w t, step a s = Next s' ev → EvDequeue w t ∈ ev →
                  m_task_queue s = t :: m_task_queue s') ∧
  submitted tr = removed tr ++ m_task_queue s ∧
  (flushed tr = [] → submitted tr = dequeued tr ++ m_task_queue s) ∧
  ((length (workers s) ≤ 1)%nat →
     started tr `sublist_of` submitted tr ∧
     (flushed tr = [] → started tr `prefix_of` submitted tr)).
Proof.
  intros Hr. destruct (fifo_reach _ _ _ _ Hr) as (Hq & Hsub & Hfl & Hst).
  split_and!.
  - intros a s' ev w t Hs Hin. by destruct (dequeue_takes_head _ _ _ _ _ _ Hs Hin).
  - done.
  - intros Hf. by rewrite Hq, Hfl.
  - intros Hlen. specialize (Hst Hlen). split.
    + rewrite Hq. apply sublist_inserts_r. etrans; [|exact Hsub].
      rewrite Hst. by apply sublist_inserts_r.
    + intros Hf. exists (in_hand s ++ m_task_queue s).
      by rewrite Hq, Hfl, Hst, <-(assoc (++)).
Qed.

Lemma C3_fifo_witness :
  run three_tasks (fresh 8) = Some (final 8 three_tasks, trace 8 three_tasks) ∧
  submitted (trace 8 three_tasks) = [1; 2; 3]%nat ∧
  started (trace 8 three_tasks) = [1; 2; 3]%nat ∧
  ((length (workers (final 8 three_tasks)) ≤ 1)%nat →
     started (trace 8 three_tasks) `sublist_of` submitted (trace 8 three_tasks) ∧
     (flushed (trace 8 three_tasks) = [] →
      started (trace 8 three_tasks) `prefix_of` submitted (trace 8 three_tasks))).
Proof.
  split; [vm_compute; reflexivity|]. split; [vm_compute; reflexivity|].
  split; [vm_compute; reflexivity|].
  apply (C3_fifo 8 three_tasks (final 8 three_tasks) (trace 8 three_tasks)).
  vm_compute; reflexivity.
Defined.

(** ** Progress: schedules that complete a call *)

Lemma calls_free_app sch1 sch2 :
  calls_free (sch1 ++ sch2) = calls_free sch1 && calls_free sch2.
Proof. apply forallb_app. Qed.

Lemma calls_free_admissible sch : ∀ s,
  calls_free sch = true → admissible sch s = true.
Proof.
  induction sch as [|a sch IH]; intros s Hf; [done|]. simpl in *.
  apply andb_true_iff in Hf as [Ha Hf]. apply andb_true_iff. split.
  - by destruct a.
  - destruct (step a s); auto.
Qed.

Lemma good_quiet_run sch s s' tr :
  good s → calls_free sch = true → run sch s = Some (s', tr) → good s'.
Proof. intros Hg Hf. apply good_run; [done|]. by apply calls_free_admissible. Qed.

Lemma reaches_here (P : state → Prop) s : P s → reaches P s.
Proof. intros HP. by exists [], s, []. Qed.

Lemma reaches_step (P : state → Prop) a s s1 ev :
  is_call a = false → step a s = Next s1 ev → reaches P s1 → reaches P s.
Proof.
  intros Ha Hs (sch & s' & tr & Hf & Hr & HP).
  exists (a :: sch), s', (ev ++ tr). split_and!; [|by apply run_cons; eauto 10|done].
  simpl. by rewrite Ha.
Qed.

Lemma reaches_owner_step (P : state → Prop) s s1 ev :
  step AOwner s = Next s1 ev → reaches P s1 → reaches P s.
Proof. by apply reaches_step. Qed.

Lemma reaches_trans (Q P : state → Prop) s :
  reaches Q s → (∀ s', Q s' → reaches P s') → reaches P s.
Proof.
  intros (sch & s1 & tr & Hf & Hr & HQ) H.
  destruct (H s1 HQ) as (sch2 & s2 & tr2 & Hf2 & Hr2 & HP).
  exists (sch ++ sch2), s2, (tr ++ tr2). split_and!; [| |done].
  - by rewrite calls_free_app, Hf, Hf2.
  - apply run_app. eauto 10.
Qed.

Lemma reaches_mono (P Q : state → Prop) s :
  (∀ s', P s' → Q s') → reaches P s → reaches Q s.
Proof. intros H (sch & s' & tr & ? & ? & ?). exists sch, s', tr. auto. Qed.

(** Reaching a state keeps [good]. *)
Lemma reaches_good (P : state → Prop) s :
  good s → reaches P s → reaches (λ s', good s' ∧ P s') s.
Proof.
  intros Hg (sch & s' & tr & Hf & Hr & HP). exists sch, s', tr.
  split_and!; try done. by eapply good_quiet_run.
Qed.

Lemma worker_step_frame w s s' ev :
  step (AWorker w) s = Next s' ev → o_pc s ≠ CWait100_asleep →
  owner_frame s s' ∧ (∀ w', w' ≠ w → workers s' !! w' = workers s !! w').
Proof.
  intros H Hpc. unfold owner_frame. simpl in H. unfold worker_step, lock in H.
  repeat match type of H with
  | context [match ?x with _ => _ end] => destruct x eqn:?; simpl in H; try discriminate H
  end; simplify_eq; simpl; use_notify.
  all: split; [by split_and!; try done; destruct (o_pc s)|].
  all: by intros w' Hne; rewrite list_lookup_insert_ne.
Qed.

(** A worker in a locked region takes a step of its own, which releases
    the mutex or brings the release closer. *)
Lemma lock_step s w wk :
  pop_inv s → workers s !! w = Some wk → holds_w (w_pc wk) = true →
  ∃ s' ev wk',
    step (AWorker w) s = Next s' ev ∧ workers s' !! w = Some wk' ∧
    (m_task_queue_mutex s' = None ∨
     (holds_w (w_pc wk') = true ∧
      (lock_dist (w_pc wk') < lock_dist (w_pc wk))%nat)).
Proof.
  intros Hp Hl Hh. pose proof (lookup_lt_Some _ _ _ Hl) as Hlt.
  specialize (Hp w wk Hl). simpl. unfold worker_step. rewrite Hl.
  destruct (w_pc wk) eqn:E; simpl in *; try done.
  - destruct (_ && _); eexists _, _, _; (split; [done|]); simpl;
      (split; [by apply list_lookup_insert_eq|]); right; simpl; (split; [done|lia]).
  - eexists _, _, _. split; [done|]. simpl.
    destruct (notify_all_completed_frame s) as (_ & _ & _ & _ & -> & _ & _).
    split; [by apply list_lookup_insert_eq|]. right. simpl. split; [done|lia].
  - eexists _, _, _. split; [done|]. simpl.
    split; [by apply list_lookup_insert_eq|]. by left.
  - destruct (_ >=? _); eexists _, _, _; (split; [done|]); simpl;
      (split; [by apply list_lookup_insert_eq|]); [by left|].
    right. simpl. split; [done|lia].
  - destruct (m_task_queue s) as [|t q]; [done|].
    eexists _, _, _. split; [done|]. simpl.
    split; [by apply list_lookup_insert_eq|]. right. simpl. split; [done|lia].
  - eexists _, _, _. split; [done|]. simpl.
    split; [by apply list_lookup_insert_eq|]. by left.
Qed.

(** The holder of the mutex releases it by steps of its own, which leave
    the owner and the other workers where they are. *)
Lemma release_aux n : ∀ s w wk,
  good s → o_pc s ≠ CWait100_asleep →
  workers s !! w = Some wk → holds_w (w_pc wk) = true →
  (lock_dist (w_pc wk) ≤ n)%nat →
  reaches (λ s', m_task_queue_mutex s' = None ∧ owner_frame s s' ∧
                 ∀ w', w' ≠ w → workers s' !! w' = workers s !! w') s.
Proof.
  induction n as [|n IH]; intros s w wk Hg Hpc Hl Hh Hd.
  { destruct (w_pc wk); simpl in *; try done; lia. }
  destruct (lock_step s w wk (proj2 (proj2 Hg)) Hl Hh)
    as (s1 & ev & wk1 & Hs & Hl1 & Hcase).
  destruct (worker_step_frame _ _ _ _ Hs Hpc) as [Hfr Hoth].
  apply (reaches_step _ (AWorker w) s s1 ev); [done|done|].
  destruct Hcase as [Hm|[Hh1 Hlt]].
  - apply reaches_here. done.
  - assert (good s1) as Hg1 by (by apply (good_step (AWorker w) s s1 ev)).
    assert (o_pc s1 ≠ CWait100_asleep) as Hpc1 by (destruct Hfr as [-> _]; done).
    eapply reaches_mono; [|eapply (IH s1 w wk1); try done; lia].
    intros s' (Hm & Hfr' & Hoth'). split_and!; [done| |].
    + destruct Hfr as (? & ? & ? & ?), Hfr' as (? & ? & ? & ?).
      split_and!; congruence.
    + intros w' Hne. rewrite Hoth', Hoth; done.
Qed.

Lemma release s :
  good s → o_pc s ≠ CWait100_asleep → holds_o (o_pc s) = false →
  reaches (λ s', good s' ∧ m_task_queue_mutex s' = None ∧ owner_frame s s' ∧
                 ∀ w wk, workers s !! w = Some wk → holds_w (w_pc wk) = false →
                         workers s' !! w = Some wk) s.
Proof.
  intros Hg Hpc Ho. apply reaches_good; [done|].
  destruct (m_task_queue_mutex s) as [[|w]|] eqn:Hm.
  - destruct Hg as (((_ & Hown & _) & _) & _). apply Hown in Hm. congruence.
  - destruct Hg as (((Hst & Hown & Hw & Hb) & Hrest) & Hrest').
    destruct (Hb w Hm) as (wk & Hl & Hh).
    eapply reaches_mono;
      [|eapply (release_aux _ s w wk); try done;
        by split_and!; [split_and!|..]].
    intros s' (Hm' & Hfr & Hoth). split_and!; [done..|].
    intros w' wk' Hl' Hh'. rewrite Hoth; [done|]. intros ->. congruence.
  - apply reaches_here. split_and!; [done| |done]. by split_and!.
Qed.



(** ** Progress by steps of the threads alone *)


Lemma threads_only_calls_free sch : threads_only sch = true → calls_free sch = true.
Proof.
  induction sch as [|a sch IH]; [done|]. simpl.
  intros [Ha Hf]%andb_true_iff. rewrite IH by done. by destruct a.
Qed.

Lemma proceeds_reaches (P : state → Prop) s : proceeds P s → reaches P s.
Proof.
  intros (sch & s' & tr & Hf & Hr & HP). exists sch, s', tr.
  split_and!; try done. by apply threads_only_calls_free.
Qed.

Lemma proceeds_here (P : state → Prop) s : P s → proceeds P s.
Proof. intros HP. by exists [], s, []. Qed.

Lemma proceeds_step (P : state → Prop) a s s1 ev :
  plain a = true → step a s = Next s1 ev → proceeds P s1 → proceeds P s.
Proof.
  intros Ha Hs (sch & s' & tr & Hf & Hr & HP).
  exists (a :: sch), s', (ev ++ tr). split_and!; [|by apply run_cons; eauto 10|done].
  simpl. by rewrite Ha.
Qed.

Lemma proceeds_owner_step (P : state → Prop) s s1 ev :
  step AOwner s = Next s1 ev → proceeds P s1 → proceeds P s.
Proof. by apply proceeds_step. Qed.











Lemma idle_ret s : mutex_inv s → o_pc s = CIdle → o_ret s = [].
Proof.
  intros ([Hs|[[_ Hs]|[_ Hs]]] & _) E; [done|by rewrite E in Hs..].
Qed.



(** ** C1: what [shutdown_threads] does *)






(** ** C8: the constructor *)

Lemma build_test hc n i :
  (i < n)%nat →
  step AOwner (building hc n i) =
    Next (set_pc (CStart46 (Z.of_nat i)) (building hc n i)) [].
Proof.
  intros Hi. simpl. unfold owner_step. simpl.
  by rewrite (proj2 (Z.ltb_lt _ _)) by lia.
Qed.

Lemma build_spawn hc n i :
  Z.of_nat n < size_t_max → (i < n)%nat →
  step AOwner (set_pc (CStart46 (Z.of_nat i)) (building hc n i)) =
    Next (building hc n (S i)) [EvSpawn i (Z.of_nat i)].
Proof.
  intros Hn Hi. unfold building at 2. rewrite seq_S, fmap_app.
  simpl. unfold owner_step, building. simpl.
  rewrite length_fmap, length_seq, size_t_wrap_id by lia.
  by replace (Z.of_nat i + 1) with (Z.of_nat (S i)) by lia.
Qed.

Lemma build_done hc n :
  step AOwner (building hc n n) = Next (constructed hc n) [].
Proof.
  simpl. unfold owner_step, ret. simpl.
  by rewrite (proj2 (Z.ltb_ge _ _)) by lia.
Qed.

Lemma build_loop hc n d : ∀ i,
  (i + d = n)%nat → Z.of_nat n < size_t_max →
  ∃ tr, run (repeat AOwner (2 * d + 1)) (building hc n i) =
          Some (constructed hc n, tr) ∧
        spawns tr = seq i d.
Proof.
  induction d as [|d IH]; intros i Hi Hn.
  - assert (i = n) as -> by lia. exists []. split; [|done].
    apply run_cons. exists (constructed hc n), [], []. by rewrite build_done.
  - replace (2 * S d + 1)%nat with (S (S (2 * d + 1))) by lia.
    cbn [repeat].
    destruct (IH (S i)) as (tr & Hr & Hsp); [lia|done|].
    exists (EvSpawn i (Z.of_nat i) :: tr). split; [|by simpl; rewrite Hsp].
    apply run_cons. eexists _, [], _.
    split; [apply build_test; lia|]. split; [|reflexivity].
    apply run_cons. eexists _, _, tr.
    split; [apply build_spawn; [done|lia]|]. done.
Qed.

(** Run by the owner alone, the constructor returns with [k] workers. *)
Lemma run_ctor hc n force :
  let k := Z.to_nat (ctor_count hc n force) in
  ∃ tr, run (ctor_schedule n force k) (fresh hc) = Some (constructed hc k, tr) ∧
        spawns tr = seq 0 k.
Proof.
  intros k. unfold ctor_schedule.
  assert (0 ≤ ctor_count hc n force < size_t_max) as Hk.
  { unfold ctor_count. pose proof (size_t_wrap_range n).
    pose proof (unsigned_wrap_range hc). pose proof unsigned_max_lt.
    destruct force; lia. }
  assert (Z.of_nat k = ctor_count hc n force) as Hkk
    by (subst k; rewrite Z2Nat.id; lia).
  destruct (build_loop hc k k 0) as (tr & Hr & Hsp); [lia|lia|].
  exists (EvWrite TOwner VNum None :: tr). split; [|done].
  replace (2 * k + 4)%nat with (S (S (S (2 * k + 1)))) by lia. cbn [repeat].
  apply run_cons. eexists _, [], _. split; [reflexivity|]. split; [|reflexivity].
  apply run_cons. eexists _, [], _. split; [reflexivity|]. split; [|reflexivity].
  apply run_cons. eexists _, [_], tr. split; [reflexivity|]. split; [|reflexivity].
  apply run_cons. eexists _, [], tr. split; [reflexivity|]. split; [|reflexivity].
  rewrite <-Hr. f_equal. unfold building. simpl.
  rewrite Z.add_0_l. fold (ctor_count hc n force).
  rewrite size_t_wrap_id by done. by rewrite Hkk.
Qed.

Lemma worker_step_length w s s' ev :
  step (AWorker w) s = Next s' ev →
  length (workers s') = length (workers s) ∧
  hardware_concurrency s' = hardware_concurrency s.
Proof.
  intros H. simpl in H. unfold worker_step, lock in H.
  repeat match type of H with
  | context [match ?x with _ => _ end] => destruct x eqn:?; simpl in H; try discriminate H
  end; simplify_eq; simpl; use_notify.
  all: by rewrite ?length_insert.
Qed.

Lemma ctor_rel_step k a s s' ev :
  0 ≤ k < size_t_max → range_inv s → ctor_rel k s →
  is_call a = false → step a s = Next s' ev → ctor_rel k s'.
Proof.
  intros Hk (_ & _ & Hsz & Hpc) (Hret & Hth & Hm) Hc H.
  destruct a as [o| |w|who]; [done| | |].
  - simpl in H. unfold owner_step, ret in H. unfold pc_range in Hpc.
    rewrite Hret in H.
    destruct (o_pc s) eqn:E; try done; simpl in H.
    + simplify_eq. by split_and!.
    + simplify_eq. destruct Hm as [-> Hm]. split_and!; [done..|]. simpl.
      rewrite Hm, Z.add_0_l. by apply size_t_wrap_id.
    + simplify_eq. by split_and!.
    + destruct (_ <? _); simplify_eq; by split_and!.
    + simplify_eq. split_and!; [done| |done]. simpl.
      by rewrite length_app, Hth, Nat.add_1_r, seq_S.
  - destruct (worker_step_frame w s s' ev H) as [(E1 & E2 & E3 & E4) _].
    { intros E. by rewrite E in Hm. }
    pose proof (worker_step_length _ _ _ _ H) as [E5 E6].
    unfold ctor_rel. by rewrite E1, E2, E3, E4, E5, E6.
  - simpl in H. unfold spurious_step in H. destruct who as [|w].
    + destruct (o_pc s) eqn:E; done.
    + destruct (workers s !! w) as [wk|] eqn:El; [|done].
      destruct (w_pc wk); try done. simplify_eq.
      unfold ctor_rel. simpl. by rewrite length_insert.
Qed.

Lemma ctor_rel_run k sch : ∀ s s' tr,
  0 ≤ k < size_t_max → inv s → ctor_rel k s →
  calls_free sch = true → run sch s = Some (s', tr) → ctor_rel k s'.
Proof.
  induction sch as [|a sch IH]; intros s s' tr Hk Hi Hc Hf.
  - by intros [= <- <-].
  - intros (s1 & ev & tr' & Hs & Hr & ->)%run_cons. simpl in Hf.
    apply andb_true_iff in Hf as [Ha Hf]. apply negb_true_iff in Ha.
    apply (IH s1 s' tr'); [done| | |done..].
    + by eapply inv_step.
    + eapply ctor_rel_step; [done| |done..]. apply Hi.
Qed.

Lemma ctor_count_range hc n force : 0 ≤ ctor_count hc n force < size_t_max.
Proof.
  unfold ctor_count. pose proof (size_t_wrap_range n).
  pose proof (unsigned_wrap_range hc). pose proof unsigned_max_lt.
  destruct force; lia.
Qed.

Lemma calls_free_owner m : calls_free (repeat AOwner m) = true.
Proof. by induction m. Qed.

Lemma constructor_spawns hc n force :
  ctor_spawns hc n force (ctor_count hc n force).
Proof.
  pose proof (ctor_count_range hc n force) as Hk. split.
  - destruct (run_ctor hc n force) as (tr & Hr & _).
    eexists _, _, tr. split_and!; [apply calls_free_owner|apply Hr|done].
  - intros sch s tr Hf Hr Hpc.
    pose proof (inv_reach _ _ _ _ Hr) as (_ & _ & [(Hidx & _ & Hj) _] & _).
    pose proof (history_reach _ _ _ _ Hr) as (_ & _ & Hsp).
    assert (good s) as (_ & [Hcnt _] & _).
    { eapply good_reach; [|done]. simpl. by apply calls_free_admissible. }
    apply run_cons in Hr as (s1 & ev & tr' & Hs & Hr & ->).
    simpl in Hs. injection Hs as <- <-.
    assert (ctor_rel (ctor_count hc n force) s) as (_ & Hth & Hm).
    { eapply (ctor_rel_run _ sch); [done| | |done..].
      - by apply (inv_step (ACall (OpNewN n force)) (fresh hc) _ []);
          [apply inv_fresh|].
      - split_and!; [done..|]. simpl. split; [|done].
        unfold ctor_count. by destruct force. }
    unfold owned, popping in Hj.
    rewrite Hpc in Hm, Hcnt, Hj.
    rewrite Hth, length_seq in Hcnt.
    assert (length (workers s) = Z.to_nat (ctor_count hc n force)) as Hlen by lia.
    rewrite <-Hlen. split_and!; [done..|].
    intros id wk Hl. pose proof (lookup_lt_Some _ _ _ Hl) as Hlt.
    assert (m_threads s !! id = Some id) as Hid
      by (rewrite Hth; by apply lookup_seq).
    split.
    + destruct (Hidx id id Hid) as (wk' & Hl' & Hi'). congruence.
    + intros Hw. apply (Hj id wk Hl) in Hw. apply Hw.
      by eapply list_elem_of_lookup_2.
Qed.

(** C8: on a machine with hardware concurrency [hc], the constructor called
    with the requested count [n] returns after spawning [min(n, hc)] workers
    when [force] is false, and [n] workers, unclamped, when [force] is
    true. *)
Theorem C8_constructor_spawns hc n force :
  0 ≤ hc < unsigned_max → 0 ≤ n < size_t_max →
  ctor_spawns hc n force (if force then n else Z.min n hc).
Proof.
  intros Hh Hn.
  replace (if force then n else Z.min n hc) with (ctor_count hc n force);
    [apply constructor_spawns|].
  unfold ctor_count. rewrite size_t_wrap_id, unsigned_wrap_id by done.
  destruct force; lia.
Qed.

Lemma C8_constructor_spawns_witness :
  (0 ≤ 8 < unsigned_max ∧ 0 ≤ 12 < size_t_max) ∧
  ctor_spawns 8 12 false 8 ∧ ctor_spawns 8 12 true 12.
Proof.
  split; [by split|].
  split; [apply (C8_constructor_spawns 8 12 false)|
          apply (C8_constructor_spawns 8 12 true)]; by split.
Defined.

(** ** C1: the counter of line 84 *)

Lemma doomed_step a s s' ev :
  doomed s → is_call a = false → step a s = Next s' ev → doomed s'.
Proof.
  intros Hd Hc H. destruct a as [o| |w|who]; [done| | |].
  - simpl in H. unfold owner_step, lock in H. unfold doomed in Hd.
    pose proof unsigned_max_pos.
    destruct (o_pc s) eqn:E; try done; simpl in H.
    + simplify_eq. unfold doomed. simpl. lia.
    + destruct (m_task_queue_mutex s); by simplify_eq.
    + by simplify_eq.
    + by simplify_eq.
    + simplify_eq. unfold doomed. simpl. lia.
    + rewrite (proj2 (Z.ltb_lt _ _)) in H by lia. by simplify_eq.
    + repeat case_match; by simplify_eq.
    + repeat case_match; simplify_eq. unfold doomed. simpl.
      split; [lia|apply unsigned_wrap_range].
  - destruct (worker_step_frame w s s' ev H) as [(E1 & _ & E3 & _) _].
    { intros E. unfold doomed in Hd. by rewrite E in Hd. }
    unfold doomed. by rewrite E1, E3.
  - simpl in H. unfold spurious_step in H. destruct who as [|w].
    + unfold doomed in Hd. destruct (o_pc s) eqn:E; done.
    + repeat case_match; by simplify_eq.
Qed.

Lemma doomed_run sch : ∀ s s' tr,
  doomed s → calls_free sch = true → run sch s = Some (s', tr) → doomed s'.
Proof.
  induction sch as [|a sch IH]; intros s s' tr Hd Hf.
  - by intros [= <- <-].
  - intros (s1 & ev & tr' & Hs & Hr & ->)%run_cons. simpl in Hf.
    apply andb_true_iff in Hf as [Ha Hf]. apply negb_true_iff in Ha.
    apply (IH s1 s' tr'); [|done..]. by eapply doomed_step.
Qed.

(** [shutdown_threads(num)] does not return when it is to close [2^32]
    workers or more. *)
Lemma shutdown_doomed s num sch s' tr :
  unsigned_max ≤ size_t_wrap num → unsigned_max ≤ m_num_threads s →
  calls_free sch = true →
  run (ACall (OpShutdown num) :: sch) s = Some (s', tr) →
  o_pc s' ≠ CIdle.
Proof.
  intros Hn Ht Hf (s1 & ev & tr' & Hs & Hr & ->)%run_cons Hpc.
  assert (doomed s1) as Hd.
  { simpl in Hs. unfold call in Hs.
    destruct (o_pc s); try done. simplify_eq. by split. }
  apply (doomed_run sch s1 s' tr') in Hd; [|done..].
  unfold doomed in Hd. by rewrite Hpc in Hd.
Qed.

Lemma ctor_admissible hc n force k :
  admissible (ctor_schedule n force k) (fresh hc) = true.
Proof. unfold ctor_schedule. simpl. apply calls_free_admissible, calls_free_owner. Qed.

(** The bound on the target count in C1: a pool constructed with 2^32
    forced workers, on which [shutdown_threads(2^32)] does not return, the
    counter of line 84 never reaching [num_to_close]. *)
Lemma shutdown_counter_wraps :
  ∃ s tr,
    admissible (ctor_schedule unsigned_max true (Z.to_nat unsigned_max))
      (fresh 8) = true ∧
    run (ctor_schedule unsigned_max true (Z.to_nat unsigned_max)) (fresh 8) =
      Some (s, tr) ∧
    o_pc s = CIdle ∧
    m_num_threads s = unsigned_max ∧
    ¬ shutdown_closes s unsigned_max.
Proof.
  assert (size_t_wrap unsigned_max = unsigned_max) as Hw.
  { apply size_t_wrap_id. pose proof unsigned_max_pos.
    pose proof unsigned_max_lt. lia. }
  destruct (run_ctor 8 unsigned_max true) as (tr & Hr & _).
  unfold ctor_count in Hr. rewrite Hw in Hr.
  eexists _, tr. split; [apply ctor_admissible|]. split; [apply Hr|].
  assert (m_num_threads (constructed 8 (Z.to_nat unsigned_max)) = unsigned_max)
    as Hn by (apply Z2Nat.id, Z.lt_le_incl, unsigned_max_pos).
  split; [reflexivity|]. split; [exact Hn|].
  intros [(sch & s' & tr' & Hf & Hr' & Hpc) _].
  apply (shutdown_doomed _ _ _ _ _ (eq_ind_r (Z.le unsigned_max) (Z.le_refl _) Hw)
           (eq_ind_r (Z.le unsigned_max) (Z.le_refl _) Hn)
           (threads_only_calls_free _ Hf) Hr' Hpc).
Qed.


(** ** C9: what [flush_queue] does *)

Lemma hand_insert ws w wk pc :
  ws !! w = Some wk →
  ∃ l1 l2, ws ≫= holding = l1 ++ holding wk ++ l2 ∧
           <[w := Worker (w_index wk) pc]> ws ≫= holding =
             l1 ++ holding (Worker (w_index wk) pc) ++ l2.
Proof.
  intros Hl. exists (take w ws ≫= holding), (drop (S w) ws ≫= holding). split.
  - rewrite <-(take_drop_middle ws w wk Hl) at 1. by rewrite bind_app, bind_cons.
  - rewrite insert_take_drop by (by eapply lookup_lt_Some).
    by rewrite bind_app, bind_cons.
Qed.

Lemma hand_step a s s' ev :
  step a s = Next s' ev →
  in_hand s ++ dequeued ev ≡ₚ started ev ++ in_hand s'.
Proof.
  intros H. step_inv H.
  all: unfold in_hand; simpl; use_notify;
       rewrite ?holding_wake, ?holding_wake_one, ?app_nil_r.
  all: try done.
  all: try match goal with
       | Hl : workers _ !! ?w = Some ?wk
         |- context [<[?w := Worker _ ?pc]> _] =>
           destruct (hand_insert _ w wk pc Hl) as (l1 & l2 & -> & ->)
       end.
  all: unfold holding; simpl.
  all: repeat match goal with Hpc : w_pc _ = _ |- _ => rewrite Hpc end.
  all: simpl; rewrite ?app_nil_r; try done.
  - by rewrite bind_app, bind_cons, !app_nil_r.
  - etrans; [|apply Permutation_middle]. symmetry. apply Permutation_cons_append.
  - symmetry. apply Permutation_middle.
Qed.

Lemma worker_step_queue w s s' ev :
  workers_locked (workers s) (m_task_queue_mutex s) →
  step (AWorker w) s = Next s' ev →
  flushed ev = [] ∧ m_task_queue s = dequeued ev ++ m_task_queue s' ∧
  (m_task_queue_mutex s = Some TOwner →
   m_task_queue_mutex s' = Some TOwner ∧ dequeued ev = []).
Proof.
  intros [Hw _] H. simpl in H. unfold worker_step, lock in H.
  destruct (workers s !! w) as [wk|] eqn:Hl; [|done].
  specialize (Hw w wk Hl).
  destruct (w_pc wk) eqn:Hpc; simpl in *;
    repeat case_match; simplify_eq; simpl; use_notify;
    (split_and!; [done..|]); intros Hm; rewrite ?Hm in *; try done.
  all: specialize (Hw eq_refl); done.
Qed.

Lemma flush_rel_step Q0 n0 T0 H0 a s s' pre ev :
  mutex_inv s → flush_rel Q0 n0 T0 H0 s pre →
  is_call a = false → step a s = Next s' ev →
  flush_rel Q0 n0 T0 H0 s' (pre ++ ev).
Proof.
  intros (_ & Ho & Hw) (Hret & Hn & Ht & Hh & Hm) Hc H.
  assert (H0 ++ dequeued (pre ++ ev) ≡ₚ started (pre ++ ev) ++ in_hand s') as Hh'.
  { rewrite dequeued_app, started_app, (assoc (++)), Hh, <-!(assoc (++)).
    by rewrite (hand_step a s s' ev H). }
  enough (o_ret s' = [] ∧ m_num_threads s' = n0 ∧ m_threads s' = T0 ∧
          match o_pc s' with
          | CFlush104 =>
              Q0 = dequeued (pre ++ ev) ++ m_task_queue s' ∧
              flushed (pre ++ ev) = []
          | CFlush105 =>
              m_task_queue_mutex s' = Some TOwner ∧
              Q0 = dequeued (pre ++ ev) ++ m_task_queue s' ∧
              flushed (pre ++ ev) = []
          | CFlush106 | CIdle =>
              m_task_queue s' = [] ∧
              Q0 = dequeued (pre ++ ev) ++ flushed (pre ++ ev)
          | _ => False
          end) as (? & ? & ? & ?) by done.
  clear Hh Hh'. rewrite dequeued_app, flushed_app.
  destruct a as [o| |w|who]; [done| | |].
  - simpl in H. unfold owner_step, lock, ret in H. rewrite Hret in H.
    destruct (o_pc s) eqn:E; try done; simpl in H.
    + destruct (m_task_queue_mutex s); simplify_eq. simpl.
      rewrite !app_nil_r. destruct Hm. by split_and!.
    + simplify_eq. simpl. destruct Hm as (_ & -> & Hf).
      rewrite !app_nil_r, Hf. simpl. by split_and!.
    + rewrite Hret in H. simplify_eq. simpl. rewrite !app_nil_r.
      destruct Hm. by split_and!.
  - destruct (worker_step_frame w s s' ev H) as [(E1 & E2 & E3 & E4) _].
    { intros E. by rewrite E in Hm. }
    destruct (worker_step_queue w s s' ev Hw H) as (Hf & Hq & Hmx).
    rewrite ?E1, ?E2, ?E3, ?E4, ?Hf, ?app_nil_r.
    split_and!; [done..|].
    destruct (o_pc s); try done.
    + destruct Hm as (Hq0 & ->). rewrite Hq0 in Hq.
      apply symmetry, app_eq_nil in Hq as [-> ->]. by rewrite app_nil_r.
    + destruct Hm as (-> & ?). by rewrite Hq, (assoc (++)).
    + destruct Hm as (Hm & -> & ?). destruct (Hmx Hm) as (? & Hd).
      rewrite Hd in *. simpl in *. rewrite app_nil_r. by rewrite <-Hq.
    + destruct Hm as (Hq0 & ->). rewrite Hq0 in Hq.
      apply symmetry, app_eq_nil in Hq as [-> ->]. by rewrite app_nil_r.
  - simpl in H. unfold spurious_step in H. destruct who as [|w].
    + destruct (o_pc s) eqn:E; done.
    + destruct (workers s !! w) as [wk|] eqn:El; [|done].
      destruct (w_pc wk); try done. simplify_eq. simpl.
      rewrite !app_nil_r. by split_and!.
Qed.


Lemma flush_rel_run Q0 n0 T0 H0 sch : ∀ s s' pre tr,
  inv s → flush_rel Q0 n0 T0 H0 s pre →
  calls_free sch = true → run sch s = Some (s', tr) →
  flush_rel Q0 n0 T0 H0 s' (pre ++ tr).
Proof.
  induction sch as [|a sch IH]; intros s s' pre tr Hi Hrel Hf.
  - intros [= <- <-]. by rewrite app_nil_r.
  - intros (s1 & ev & tr' & Hs & Hr & ->)%run_cons. simpl in Hf.
    apply andb_true_iff in Hf as [Ha Hf]. apply negb_true_iff in Ha.
    rewrite (assoc (++)). apply (IH s1 s' (pre ++ ev) tr'); [| |done..].
    + by eapply inv_step.
    + eapply flush_rel_step; [|done..]. apply Hi.
Qed.

Lemma flush_queue_effect s : inv s → o_pc s = CIdle → flush_effect s.
Proof.
  intros Hi Hpc sch s' tr Hf (s1 & ev & tr' & Hs & Hr & ->)%run_cons Hpc'.
  simpl in Hs. unfold call in Hs. rewrite Hpc in Hs. simplify_eq.
  assert (flush_rel (m_task_queue s) (m_num_threads s) (m_threads s) (in_hand s)
            (set_pc CFlush104 s) []) as Hrel.
  { pose proof (idle_ret s (proj1 Hi) Hpc). split_and!; try done.
    by rewrite app_nil_r. }
  eapply (flush_rel_run _ _ _ _ sch) in Hrel as (_ & ? & ? & ? & Hm); [| |done..].
  - rewrite Hpc' in Hm. destruct Hm. by split_and!.
  - by apply (inv_step (ACall OpFlush) s _ []); [|simpl; unfold call; rewrite Hpc].
Qed.

Lemma flush_queue_frame : flush_frame.
Proof.
  intros s s' ev Hpc H. simpl in H. unfold owner_step, lock, ret in H.
  destruct (o_pc s); try done; simpl in H.
  - destruct (m_task_queue_mutex s); simplify_eq. simpl. auto.
  - simplify_eq. simpl. auto.
  - destruct (o_ret s); simplify_eq; simpl; auto.
Qed.

Lemma flush_queue_returns s : good s → o_pc s = CIdle → flush_returns s.
Proof.
  intros Hg Hpc.
  pose proof (idle_ret s (proj1 (proj1 Hg)) Hpc) as Hret.
  assert (step (ACall OpFlush) s = Next (set_pc CFlush104 s) []) as Hs
    by (simpl; unfold call; by rewrite Hpc).
  assert (good (set_pc CFlush104 s)) as Hg1
    by (by apply (good_step (ACall OpFlush) s _ [] Hg)).
  enough (reaches (λ s', o_pc s' = CIdle) (set_pc CFlush104 s))
    as (sch & s' & tr & Hf & Hr & Hpc').
  { exists sch, s', tr. split_and!; try done. apply run_cons. eauto 10. }
  eapply reaches_trans; [apply release; [done|done..]|].
  intros s1 (Hg1' & Hm1 & (Hpc1 & Hret1 & _) & _). simpl in Hpc1, Hret1.
  eapply reaches_owner_step.
  { simpl. unfold owner_step, lock. by rewrite Hpc1, Hm1. }
  eapply reaches_owner_step; [done|].
  eapply reaches_owner_step.
  { simpl. unfold owner_step, ret. simpl. by rewrite Hret1, Hret. }
  by apply reaches_here.
Qed.

(** C9: [flush_queue], called on a pool that was constructed and is not
    inside another member function, leaves the queue empty when it returns;
    the tasks it discards are those still queued when it clears the queue,
    that is all that were queued at the call but those a worker took first;
    the target count and the thread handles are unchanged; a task that a
    worker has dequeued stays with that worker; the steps of [flush_queue]
    write neither the workers nor the target count nor the handles; and in
    an execution whose target count never overflowed the call returns. *)
Theorem C9_flush_queue hc sch s tr :
  run sch (fresh hc) = Some (s, tr) →
  o_pc s = CIdle →
  flush_effect s ∧ flush_frame ∧
  (admissible sch (fresh hc) = true → flush_returns s).
Proof.
  intros Hr Hpc. split_and!.
  - eapply flush_queue_effect; [by eapply inv_reach|done].
  - apply flush_queue_frame.
  - intros Ha. apply flush_queue_returns; [by eapply good_reach|done].
Qed.

Lemma C9_flush_queue_witness :
  run two_queued (fresh 8) = Some (final 8 two_queued, trace 8 two_queued) ∧
  o_pc (final 8 two_queued) = CIdle ∧
  m_task_queue (final 8 two_queued) = [2%nat; 3%nat] ∧
  in_hand (final 8 two_queued) = [1%nat] ∧
  flush_effect (final 8 two_queued) ∧ flush_frame ∧
  (admissible two_queued (fresh 8) = true → flush_returns (final 8 two_queued)).
Proof.
  split; [vm_compute; reflexivity|]. split; [vm_compute; reflexivity|].
  split; [vm_compute; reflexivity|]. split; [vm_compute; reflexivity|].
  apply (C9_flush_queue 8 two_queued (final 8 two_queued) (trace 8 two_queued));
    vm_compute; reflexivity.
Defined.

(** * Further properties of the code *)

(** ** The mutex *)

(** X1: at any point of any execution at most one thread stands between
    locking [m_task_queue_mutex] and releasing it (lines 48-66 of a worker,
    78-80, 99-101 and 104-106 of the owner), the mutex names that thread, and
    a worker that calls or runs a task (line 68) does not hold the mutex. *)
Theorem mutual_exclusion hc sch s tr :
  run sch (fresh hc) = Some (s, tr) →
  (∀ w1 w2 wk1 wk2,
     workers s !! w1 = Some wk1 → workers s !! w2 = Some wk2 →
     holds_w (w_pc wk1) = true → holds_w (w_pc wk2) = true → w1 = w2) ∧
  (∀ w wk, workers s !! w = Some wk → holds_w (w_pc wk) = true →
           holds_o (o_pc s) = false ∧ m_task_queue_mutex s = Some (TWorker w)) ∧
  (holds_o (o_pc s) = true → m_task_queue_mutex s = Some TOwner) ∧
  (∀ w wk t, workers s !! w = Some wk →
             w_pc wk = WCall t ∨ w_pc wk = WRunning t →
             m_task_queue_mutex s ≠ Some (TWorker w)).
Proof.
  intros Hr. destruct (inv_reach _ _ _ _ Hr) as ((_ & Ho & Hw & Hb) & _).
  split_and!.
  - intros w1 w2 wk1 wk2 H1 H2 Hh1 Hh2.
    pose proof (Hw _ _ H1 Hh1) as E1. pose proof (Hw _ _ H2 Hh2) as E2. congruence.
  - intros w wk Hl Hh. pose proof (Hw _ _ Hl Hh) as E. split; [|done].
    destruct (holds_o (o_pc s)) eqn:Eo; [|done].
    assert (m_task_queue_mutex s = Some TOwner) by (by apply Ho). congruence.
  - apply Ho.
  - intros w wk t Hl Hpc Hm. destruct (Hb w Hm) as (wk' & Hl' & Hh).
    simplify_eq. by destruct Hpc as [E|E]; rewrite E in Hh.
Qed.

Lemma mutual_exclusion_witness :
  run (removelast racy_start) (fresh 8) =
    Some (final 8 (removelast racy_start), trace 8 (removelast racy_start)) ∧
  workers (final 8 (removelast racy_start)) !! 0%nat = Some (Worker 0 WLoopTest) ∧
  holds_o (o_pc (final 8 (removelast racy_start))) = false ∧
  m_task_queue_mutex (final 8 (removelast racy_start)) = Some (TWorker 0).
Proof.
  assert (run (removelast racy_start) (fresh 8) =
    Some (final 8 (removelast racy_start), trace 8 (removelast racy_start))) as Hr
    by (vm_compute; reflexivity).
  split; [exact Hr|]. split; [vm_compute; reflexivity|].
  destruct (mutual_exclusion 8 _ _ _ Hr) as (_ & H & _).
  apply (H 0%nat (Worker 0 WLoopTest)); vm_compute; reflexivity.
Defined.

(** ** Handles and threads *)

(** X2: at any point of any execution the handles in [m_threads] are
    pairwise distinct, the thread behind the handle at position [p] is the
    one whose lambda captured [i = p] at line 46, the threads spawned so far
    are numbered in the order of their creation, and a thread has been joined
    exactly when the pool holds no handle for it any more, the handle between
    [join()] at line 85 and [pop_back()] at line 86 apart. *)
Theorem handles_and_threads hc sch s tr :
  run sch (fresh hc) = Some (s, tr) →
  NoDup (m_threads s) ∧
  (∀ p id, m_threads s !! p = Some id →
           ∃ wk, workers s !! id = Some wk ∧ w_index wk = Z.of_nat p) ∧
  spawns tr = seq 0 (length (workers s)) ∧
  (∀ id, id ∈ joins tr ↔ id ∈ spawns tr ∧ id ∉ owned s) ∧
  NoDup (joins tr).
Proof.
  intros Hr.
  destruct (inv_reach _ _ _ _ Hr) as (_ & _ & [(Hidx & Hnd & Hj) _] & _).
  destruct (history_reach _ _ _ _ Hr) as (Hndj & Hjn & Hsp).
  split_and!; [done..| |done].
  intros id. rewrite Hjn, Hsp, elem_of_seq. split.
  - intros (wk & Hl & Hpc). split; [apply lookup_lt_Some in Hl; lia|].
    by apply (Hj id wk Hl).
  - intros [[_ Hlt] Hown].
    destruct (lookup_lt_is_Some_2 (workers s) id) as [wk Hl]; [lia|].
    exists wk. split; [done|]. by apply (Hj id wk Hl).
Qed.

Lemma handles_and_threads_witness :
  run lifecycle (fresh 8) = Some (final 8 lifecycle, trace 8 lifecycle) ∧
  spawns (trace 8 lifecycle) = [0; 1]%nat ∧
  joins (trace 8 lifecycle) = [1; 0]%nat ∧
  NoDup (joins (trace 8 lifecycle)).
Proof.
  assert (run lifecycle (fresh 8) = Some (final 8 lifecycle, trace 8 lifecycle))
    as Hr by (vm_compute; reflexivity).
  split; [exact Hr|]. split; [vm_compute; reflexivity|].
  split; [vm_compute; reflexivity|].
  by destruct (handles_and_threads 8 _ _ _ Hr) as (_ & _ & _ & _ & H).
Defined.

(** ** Each worker calls what it dequeued *)

Lemma dequeued_by_app w tr1 tr2 :
  dequeued_by w (tr1 ++ tr2) = dequeued_by w tr1 ++ dequeued_by w tr2.
Proof. apply omap_app. Qed.

Lemma started_by_app w tr1 tr2 :
  started_by w (tr1 ++ tr2) = started_by w tr1 ++ started_by w tr2.
Proof. apply omap_app. Qed.

Lemma held_by_wake_one ws (w : nat) :
  from_option holding [] (wake_one ws !! w) = from_option holding [] (ws !! w).
Proof.
  revert w. induction ws as [|wk ws IH]; intros w; [done|]. simpl.
  destruct (w_pc wk) eqn:E; destruct w as [|w]; simpl; try done.
  unfold holding. simpl. by rewrite E.
Qed.

Lemma held_by_wake (ws : list worker) (w : nat) :
  from_option holding [] ((wake <$> ws) !! w) = from_option holding [] (ws !! w).
Proof.
  rewrite list_lookup_fmap. destruct (ws !! w) as [wk|]; [|done]. simpl.
  unfold wake, holding. by destruct (w_pc wk) eqn:E; simpl; rewrite ?E.
Qed.

Lemma held_by_insert (ws : list worker) (w w0 : nat) wk pc :
  ws !! w0 = Some wk →
  from_option holding [] (<[w0 := Worker (w_index wk) pc]> ws !! w) =
    if decide (w = w0) then holding (Worker (w_index wk) pc)
    else from_option holding [] (ws !! w).
Proof.
  intros Hl. destruct (decide (w = w0)) as [->|Hne].
  - by rewrite list_lookup_insert_eq by (by eapply lookup_lt_Some).
  - by rewrite list_lookup_insert_ne.
Qed.

Lemma held_by_spawn (ws : list worker) (w : nat) i :
  from_option holding [] ((ws ++ [Worker i WAcquire]) !! w) =
    from_option holding [] (ws !! w).
Proof.
  destruct (decide (w < length ws)%nat).
  - by rewrite lookup_app_l.
  - rewrite (lookup_ge_None_2 ws w) by lia. rewrite lookup_app_r by lia.
    by destruct (w - length ws)%nat as [|[|?]].
Qed.

Lemma hand_inv_step a s s' pre ev :
  hand_inv pre s → step a s = Next s' ev → hand_inv (pre ++ ev) s'.
Proof.
  intros Hh H w. specialize (Hh w). unfold held_by in *.
  rewrite dequeued_by_app, started_by_app, Hh.
  step_inv H.
  all: simpl; use_notify;
       rewrite ?held_by_wake, ?held_by_wake_one, ?held_by_spawn, ?app_nil_r.
  all: try done.
  all: match goal with
       | Hl : workers _ !! ?w0 = Some ?wk |- _ =>
           rewrite (held_by_insert _ w w0 wk _ Hl);
           destruct (decide (w = w0)) as [->|Hne]; simpl;
           rewrite ?decide_True, ?decide_False, ?app_nil_r by congruence;
           try done; rewrite ?Hl; simpl; unfold holding; simpl
       end.
  all: repeat match goal with Hpc : w_pc _ = _ |- _ => rewrite Hpc end.
  all: simpl; rewrite ?app_nil_r, <-?(assoc (++)); try done.
Qed.

Lemma hand_reach hc sch s tr :
  run sch (fresh hc) = Some (s, tr) → hand_inv tr s.
Proof.
  intros Hr.
  apply (run_invariant_trace hand_inv (λ a s s' pre ev, hand_inv_step a s s' pre ev)
           sch (fresh hc) s [] tr); [|done].
  by intros w.
Qed.

(** X3: with any number of workers, the tasks a worker has called (line 68)
    are, in order, the tasks that same worker took from the queue (lines
    62-63), all of them but the one it holds between the two lines: a worker
    calls no task it did not dequeue, calls none twice, and dequeues the next
    only after it has called the previous one. *)
Theorem worker_calls_dequeued hc sch s tr w :
  run sch (fresh hc) = Some (s, tr) →
  dequeued_by w tr = started_by w tr ++ held_by s w ∧
  started_by w tr `prefix_of` dequeued_by w tr ∧
  (length (dequeued_by w tr) ≤ length (started_by w tr) + 1)%nat.
Proof.
  intros Hr. pose proof (hand_reach _ _ _ _ Hr w) as Hh.
  split_and!; [done|by exists (held_by s w)|].
  rewrite Hh, length_app. unfold held_by, holding.
  destruct (workers s !! w) as [wk|]; simpl; [|lia].
  destruct (w_pc wk); simpl; lia.
Qed.

Lemma worker_calls_dequeued_witness :
  run two_queued (fresh 8) = Some (final 8 two_queued, trace 8 two_queued) ∧
  dequeued_by 0 (trace 8 two_queued) = [1%nat] ∧
  started_by 0 (trace 8 two_queued) = [] ∧
  held_by (final 8 two_queued) 0 = [1%nat] ∧
  started_by 0 (trace 8 two_queued) `prefix_of` dequeued_by 0 (trace 8 two_queued).
Proof.
  assert (run two_queued (fresh 8) = Some (final 8 two_queued, trace 8 two_queued))
    as Hr by (vm_compute; reflexivity).
  split; [exact Hr|]. split; [vm_compute; reflexivity|].
  split; [vm_compute; reflexivity|]. split; [vm_compute; reflexivity|].
  by destruct (worker_calls_dequeued 8 _ _ _ 0%nat Hr) as (_ & H & _).
Defined.

(** ** The workers below the target count are alive *)

Lemma alive_inv_step a s s' ev :
  good s → fits a s = true → alive_inv s → step a s = Next s' ev → alive_inv s'.
Proof.
  intros ((Hmx & (Hn & _ & _ & Hrg) & [(Hidx & Hnd & Hj) _] & _) & [Hc _] & _) Hf Ha H.
  step_inv H.
  all: unfold alive_inv, pc_range in *; simpl in *; use_notify.
  all: simpl in *; try done.
  all: intros p id wk Hp Hl Hlt.
  all: wk_cases; simplify_eq; simpl.
  all: try (by split).
  all: try (by eapply Ha).
  all: norm_tests.
  all: try (by eapply Ha; [done..|];
            pose proof (lookup_lt_Some _ _ _ Hp);
            rewrite ?size_t_wrap_id in Hlt by lia; lia).
  all: try (by apply removelast_lookup in Hp; eapply Ha).
  all: try lia.
  all: try (match goal with
            | E : w_pc ?x = _ |- w_pc ?x ≠ _ ∧ _ => rewrite E
            end; first [by split | by eapply Ha]).
  - (* line 85: the thread joined has finished *)
    by destruct (Ha p id w Hp Heqo0 Hlt).
  - (* line 58: the thread that leaves has an index at or above the target *)
    destruct (Hidx p id Hp) as (wk' & Hl' & Hi'). simplify_eq. lia.
Qed.

Lemma alive_run sch : ∀ s s' tr,
  good s → alive_inv s → admissible sch s = true → run sch s = Some (s', tr) →
  alive_inv s'.
Proof.
  induction sch as [|a sch IH]; intros s s' tr Hg Ha Had.
  - by intros [= <- <-].
  - intros (s1 & ev & tr' & Hs & Hr & ->)%run_cons. simpl in Had.
    apply andb_true_iff in Had as [Hf Had]. rewrite Hs in Had.
    apply (IH s1 s' tr'); [| |done..].
    + by eapply good_step.
    + by eapply alive_inv_step.
Qed.

(** X4: in an execution in which no call of [start_threads] overflows the
    target count, the thread behind each of the first [m_num_threads]
    handles has not left its loop: it neither has returned from the lambda
    of lines 46-70 nor has it been joined. *)
Theorem workers_below_target_alive hc sch s tr p id wk :
  admissible sch (fresh hc) = true →
  run sch (fresh hc) = Some (s, tr) →
  m_threads s !! p = Some id → workers s !! id = Some wk →
  Z.of_nat p < m_num_threads s →
  w_index wk = Z.of_nat p ∧ w_pc wk ≠ WFinished ∧ w_pc wk ≠ WJoined.
Proof.
  intros Ha Hr Hp Hl Hlt.
  destruct (inv_reach _ _ _ _ Hr) as (_ & _ & [(Hidx & _) _] & _).
  destruct (Hidx p id Hp) as (wk' & Hl' & Hi'). simplify_eq. split; [done|].
  eapply (alive_run sch (fresh hc) s tr (good_fresh hc)); done.
Qed.

Lemma workers_below_target_alive_witness :
  admissible (take 38 lifecycle) (fresh 8) = true ∧
  run (take 38 lifecycle) (fresh 8) =
    Some (final 8 (take 38 lifecycle), trace 8 (take 38 lifecycle)) ∧
  m_num_threads (final 8 (take 38 lifecycle)) = 1 ∧
  m_threads (final 8 (take 38 lifecycle)) = [0%nat] ∧
  workers (final 8 (take 38 lifecycle)) !! 0%nat = Some (Worker 0 (WRunning 7%nat)) ∧
  w_index (Worker 0 (WRunning 7%nat)) = 0 ∧
  WRunning 7%nat ≠ WFinished ∧ WRunning 7%nat ≠ WJoined.
Proof.
  split; [vm_compute; reflexivity|]. split; [vm_compute; reflexivity|].
  split; [vm_compute; reflexivity|]. split; [vm_compute; reflexivity|].
  split; [vm_compute; reflexivity|].
  apply (workers_below_target_alive 8 (take 38 lifecycle)
           (final 8 (take 38 lifecycle)) (trace 8 (take 38 lifecycle))
           0%nat 0%nat (Worker 0 (WRunning 7%nat)));
    vm_compute; reflexivity.
Defined.

(** ** What [start_threads] does *)

Lemma worker_step_quiet w s s' ev :
  step (AWorker w) s = Next s' ev → spawns ev = [] ∧ joins ev = [].
Proof.
  intros H. simpl in H. unfold worker_step, lock in H.
  repeat match type of H with
  | context [match ?x with _ => _ end] => destruct x eqn:?; simpl in H; try discriminate H
  end; by simplify_eq.
Qed.

Lemma spurious_step_frame who s s' ev :
  step (ASpurious who) s = Next s' ev →
  ev = [] ∧ o_ret s' = o_ret s ∧ m_num_threads s' = m_num_threads s ∧
  m_threads s' = m_threads s ∧ length (workers s') = length (workers s) ∧
  m_task_queue s' = m_task_queue s ∧
  (o_pc s' = o_pc s ∨ (o_pc s = CWait100_asleep ∧ o_pc s' = CWait100_woken)).
Proof.
  intros H. simpl in H. unfold spurious_step in H. destruct who as [|w].
  - destruct (o_pc s) eqn:E; try done. simplify_eq. simpl. by split_and!; auto.
  - destruct (workers s !! w) as [wk|] eqn:El; [|done].
    destruct (w_pc wk); try done. simplify_eq. simpl.
    rewrite length_insert. by split_and!; auto.
Qed.

Lemma start_rel_step T0 W0 n0 num a s s' pre ev :
  0 ≤ n0 + num < size_t_max →
  start_rel T0 W0 n0 num s pre → is_call a = false → step a s = Next s' ev →
  start_rel T0 W0 n0 num s' (pre ++ ev).
Proof.
  intros Hn (Hret & Ht & Hw & Hsp & Hj & Hm) Hc H.
  unfold start_rel. rewrite spawns_app, joins_app.
  destruct a as [o| |w|who]; [done| | |].
  - simpl in H. unfold owner_step, ret in H.
    destruct (o_pc s) eqn:E; try done; simpl in H.
    + simplify_eq. simpl. destruct Hm as (-> & -> & Hs). rewrite !app_nil_r.
      split_and!; try done. by apply size_t_wrap_id.
    + simplify_eq. simpl. rewrite !app_nil_r. by destruct Hm.
    + rewrite Hret in H. destruct (_ <? _); simplify_eq; simpl;
        rewrite !app_nil_r; by split_and!.
    + simplify_eq. simpl. rewrite length_app, Hw, app_nil_r. simpl.
      split_and!; try done.
      * by rewrite Ht, (assoc (++)).
      * rewrite length_app. simpl. lia.
      * by rewrite length_app, Nat.add_1_r, seq_S, <-Hsp.
  - destruct (worker_step_frame w s s' ev H) as [(E1 & E2 & E3 & E4) _].
    { intros E. by rewrite E in Hm. }
    destruct (worker_step_length _ _ _ _ H) as [E5 _].
    destruct (worker_step_quiet _ _ _ _ H) as [-> ->].
    by rewrite E1, E2, E3, E4, E5, !app_nil_r.
  - destruct (spurious_step_frame _ _ _ _ H) as (-> & E2 & E3 & E4 & E5 & _ & E1).
    destruct E1 as [E1|[E1 _]]; [|by rewrite E1 in Hm].
    by rewrite E1, E2, E3, E4, E5, !app_nil_r.
Qed.

Lemma start_rel_run T0 W0 n0 num sch : ∀ s s' pre tr,
  0 ≤ n0 + num < size_t_max →
  start_rel T0 W0 n0 num s pre → calls_free sch = true →
  run sch s = Some (s', tr) → start_rel T0 W0 n0 num s' (pre ++ tr).
Proof.
  induction sch as [|a sch IH]; intros s s' pre tr Hn Hrel Hf.
  - intros [= <- <-]. by rewrite app_nil_r.
  - intros (s1 & ev & tr' & H1 & Hr & ->)%run_cons. simpl in Hf.
    apply andb_true_iff in Hf as [Ha Hf]. apply negb_true_iff in Ha.
    rewrite (assoc (++)). eapply IH; [done| |done|done].
    by eapply start_rel_step.
Qed.

(** The loop of lines 45-71, run by the owner alone, comes to its end. *)
Lemma start_loop_returns d : ∀ s i,
  o_pc s = CStart45 i → o_ret s = [] →
  0 ≤ i → i + Z.of_nat d = m_num_threads s → m_num_threads s < size_t_max →
  proceeds (λ s', o_pc s' = CIdle) s.
Proof.
  induction d as [|d IH]; intros s i Hpc Hret Hi Hd Hn.
  - eapply proceeds_owner_step.
    { simpl. unfold owner_step, ret. rewrite Hpc, Hret.
      by rewrite (proj2 (Z.ltb_ge _ _)) by lia. }
    by apply proceeds_here.
  - eapply proceeds_owner_step.
    { simpl. unfold owner_step. rewrite Hpc.
      by rewrite (proj2 (Z.ltb_lt _ _)) by lia. }
    eapply proceeds_owner_step; [done|].
    apply (IH _ (i + 1)); simpl; try done; try lia.
    by rewrite size_t_wrap_id by lia.
Qed.

Lemma start_threads_returns s num :
  good s → o_pc s = CIdle → m_num_threads s + size_t_wrap num < size_t_max →
  ∃ sch s' tr, calls_free sch = true ∧
               run (ACall (OpStart num) :: sch) s = Some (s', tr) ∧
               o_pc s' = CIdle.
Proof.
  intros Hg Hpc Hn.
  pose proof (idle_ret s (proj1 (proj1 Hg)) Hpc) as Hret.
  pose proof Hg as ((_ & (Hn0 & _) & _) & [Hc _] & _). rewrite Hpc in Hc.
  pose proof (size_t_wrap_range num) as Hnum.
  enough (reaches (λ s', o_pc s' = CIdle) (set_pc (CStart44 (size_t_wrap num)) s))
    as (sch & s' & tr & Hf & Hr & Hpc').
  { exists sch, s', tr. split_and!; try done. apply run_cons.
    eexists _, [], tr. split_and!; try done. simpl. unfold call. by rewrite Hpc. }
  apply proceeds_reaches.
  eapply proceeds_owner_step; [done|].
  eapply proceeds_owner_step; [done|].
  apply (start_loop_returns (Z.to_nat (size_t_wrap num)) _
           (Z.of_nat (length (m_threads s)))); simpl; try done.
  all: rewrite ?(size_t_wrap_id (_ + _)) by lia; lia.
Qed.

Lemma start_threads_result s num sch s' tr :
  good s → o_pc s = CIdle → m_num_threads s + size_t_wrap num < size_t_max →
  calls_free sch = true →
  run (ACall (OpStart num) :: sch) s = Some (s', tr) → o_pc s' = CIdle →
  good s' ∧
  start_rel (m_threads s) (length (workers s)) (m_num_threads s)
    (size_t_wrap num) s' tr.
Proof.
  intros Hg Hpc Hn Hf Hr Hpc'.
  pose proof (idle_ret s (proj1 (proj1 Hg)) Hpc) as Hret.
  pose proof Hg as ((_ & (Hn0 & _) & _) & _).
  pose proof (size_t_wrap_range num) as Hnum.
  split.
  - eapply good_run; [exact Hg| |exact Hr]. simpl.
    rewrite (proj2 (Z.ltb_lt _ _)) by lia. simpl.
    unfold call. rewrite Hpc. by apply calls_free_admissible.
  - apply run_cons in Hr as (s1 & ev & tr' & H1 & Hr & ->).
    simpl in H1. unfold call in H1. rewrite Hpc in H1. simplify_eq.
    apply (start_rel_run _ _ _ _ sch (set_pc (CStart44 (size_t_wrap num)) s)
             s' [] tr'); [lia| |done..].
    split_and!; simpl; rewrite ?app_nil_r, ?Nat.add_0_r; done.
Qed.

(** X5: [start_threads(num)], called between two member functions of a
    pool whose target count [t] never overflowed, with [t + num < 2^64],
    returns; it has then raised the target count to [t + num], spawned
    [num] threads and joined none, appended their handles to [m_threads] in
    the order of creation, and the [j]-th new thread captured the index
    [t + j].  For [num = 0] nothing is spawned. *)
Theorem start_threads_grows hc sch s tr num :
  admissible sch (fresh hc) = true →
  run sch (fresh hc) = Some (s, tr) →
  o_pc s = CIdle →
  m_num_threads s + size_t_wrap num < size_t_max →
  start_grows s num.
Proof.
  intros Ha Hr Hpc Hn. pose proof (good_reach _ _ _ _ Ha Hr) as Hg.
  pose proof Hg as ((_ & (Hn0 & _) & _) & [Hc _] & _). rewrite Hpc in Hc.
  pose proof (size_t_wrap_range num) as Hnum.
  split; [by apply start_threads_returns|].
  intros sch' s' tr' Hf Hr' Hpc'.
  destruct (start_threads_result s num sch' s' tr' Hg Hpc Hn Hf Hr' Hpc')
    as (Hg' & _ & Ht & Hw & Hsp & Hj & Hm).
  rewrite Hpc' in Hm.
  pose proof Hg' as ((_ & _ & [(Hidx & _) _] & _) & [Hc' _] & _).
  rewrite Hpc' in Hc'.
  assert (length (spawns tr') = Z.to_nat (size_t_wrap num)) as Hlen.
  { rewrite Ht, length_app in Hc'. lia. }
  rewrite Hlen in Hsp. split_and!; [done|by rewrite Ht, Hsp|done|done|].
  intros j Hjlt.
  destruct (Hidx (length (m_threads s) + j)%nat (length (workers s) + j)%nat)
    as (wk & Hl & Hi).
  { rewrite Ht, Hsp, lookup_app_r by lia.
    replace (length (m_threads s) + j - length (m_threads s))%nat with j by lia.
    by apply lookup_seq. }
  exists wk. split; [done|]. lia.
Qed.

Lemma start_threads_grows_witness :
  admissible one_worker (fresh 8) = true ∧
  run one_worker (fresh 8) = Some (final 8 one_worker, trace 8 one_worker) ∧
  o_pc (final 8 one_worker) = CIdle ∧
  m_num_threads (final 8 one_worker) + size_t_wrap 2 < size_t_max ∧
  start_grows (final 8 one_worker) 2.
Proof.
  split; [vm_compute; reflexivity|]. split; [vm_compute; reflexivity|].
  split; [vm_compute; reflexivity|]. split; [vm_compute; reflexivity|].
  apply (start_threads_grows 8 one_worker (final 8 one_worker)
           (trace 8 one_worker) 2); vm_compute; reflexivity.
Defined.

(** ** What [set_n_threads] does *)







(** ** The default constructor *)

Lemma default_ctor_step hc sch :
  run (ACall OpNew :: sch) (fresh hc) =
  run (ACall (OpNewN (unsigned_wrap hc) force_default) :: sch) (fresh hc).
Proof.
  simpl. rewrite size_t_wrap_id; [done|].
  pose proof (unsigned_wrap_range hc). pose proof unsigned_max_lt. lia.
Qed.

(** X7: the default constructor (lines 28-29) creates as many workers as
    the hardware concurrency, whatever the default of [force]: the clamp of
    line 33 is [min(hc, hc)].  With a hardware concurrency of 0 the pool has
    no worker at all. *)
Theorem default_constructor_spawns hc : default_ctor_spawns hc.
Proof.
  pose proof (unsigned_wrap_range hc) as Hh. pose proof unsigned_max_lt as Hlt.
  assert (ctor_count hc (unsigned_wrap hc) force_default = unsigned_wrap hc) as Hk.
  { unfold ctor_count. rewrite size_t_wrap_id by lia.
    destruct force_default; lia. }
  destruct (constructor_spawns hc (unsigned_wrap hc) force_default) as [Hret Heff].
  rewrite Hk in Heff. split.
  - destruct Hret as (sch & s & tr & Hf & Hr & Hpc). exists sch, s, tr.
    by rewrite default_ctor_step.
  - intros sch s tr Hf Hr Hpc. rewrite default_ctor_step in Hr.
    destruct (Heff sch s tr Hf Hr Hpc) as (Hn & Hsp & Ht & Hw & _).
    split_and!; try done.
    intros E. rewrite E in Hw. by destruct (workers s).
Qed.

(** ** Waiting for a queue nobody serves *)

Lemma starved_step a s s' ev :
  starved s → is_call a = false → step a s = Next s' ev →
  starved s' ∧ m_task_queue s' = m_task_queue s ∧ started ev = [].
Proof.
  intros (Hq & Hw & Hpc) Hc H. destruct a as [o| |w|who]; [done| | |].
  - simpl in H. unfold owner_step, lock in H.
    destruct (o_pc s) eqn:E; try done; simpl in H.
    + destruct (m_task_queue_mutex s); simplify_eq.
      by split_and!; [split_and!|..]; simpl; rewrite ?E.
    + destruct (m_task_queue s) eqn:Eq; [done|]. simplify_eq.
      by split_and!; [split_and!|..]; simpl; rewrite ?Eq.
    + destruct (m_task_queue_mutex s); simplify_eq.
      by split_and!; [split_and!|..]; simpl; rewrite ?E.
    + simplify_eq. by split_and!; [split_and!|..]; simpl.
  - simpl in H. unfold worker_step in H.
    destruct (workers s !! w) as [wk|] eqn:El; [|done].
    by destruct (Hw w wk El) as [E|E]; rewrite E in H.
  - simpl in H. unfold spurious_step in H. destruct who as [|w].
    + destruct (o_pc s) eqn:E; try done. simplify_eq.
      by split_and!; [split_and!|..]; simpl.
    + destruct (workers s !! w) as [wk|] eqn:El; [|done].
      by destruct (Hw w wk El) as [E|E]; rewrite E in H.
Qed.

Lemma starved_run sch : ∀ s s' tr,
  starved s → calls_free sch = true → run sch s = Some (s', tr) →
  starved s' ∧ m_task_queue s' = m_task_queue s ∧ started tr = [].
Proof.
  induction sch as [|a sch IH]; intros s s' tr Hs Hf.
  - by intros [= <- <-].
  - intros (s1 & ev & tr' & H1 & Hr & ->)%run_cons. simpl in Hf.
    apply andb_true_iff in Hf as [Ha Hf]. apply negb_true_iff in Ha.
    destruct (starved_step a s s1 ev Hs Ha H1) as (Hs1 & Hq1 & He1).
    destruct (IH s1 s' tr' Hs1 Hf Hr) as (Hs' & Hq' & He').
    split_and!; [done|congruence|]. by rewrite started_app, He1, He'.
Qed.

(** X8: on a pool none of whose threads is in its loop (none was spawned,
    or all have left) and whose queue holds a task,
    [wait_until_queue_completed] does not return and the destructor does
    not complete, under any interleaving and with any spurious wake-ups: the
    owner stays at lines 39 and 99-100, the queue stays as it is and no task
    is started. *)
Theorem wait_without_workers_blocks s sch s' tr :
  o_pc s = CIdle → m_task_queue s ≠ [] → no_live_worker s →
  calls_free sch = true →
  run (ACall OpWait :: sch) s = Some (s', tr) ∨
  run (ACall OpDelete :: sch) s = Some (s', tr) →
  o_pc s' ≠ CIdle ∧ o_pc s' ≠ CDestroyed ∧ o_pc s' ≠ CWait101 ∧
  m_task_queue s' = m_task_queue s ∧ started tr = [].
Proof.
  intros Hpc Hq Hw Hf Hr.
  assert (∃ s1 tr1, starved s1 ∧ m_task_queue s1 = m_task_queue s ∧
                    run sch s1 = Some (s', tr1) ∧ tr = tr1)
    as (s1 & tr1 & Hs1 & Hq1 & Hr1 & ->).
  { destruct Hr as [Hr|Hr];
      apply run_cons in Hr as (s1 & ev & tr1 & H1 & Hr & ->);
      simpl in H1; unfold call in H1; rewrite Hpc in H1; simplify_eq;
      [exists (set_pc CWait99 s), tr1|exists (set_pc CDtor39 s), tr1];
      by split_and!. }
  destruct (starved_run sch s1 s' tr1 Hs1 Hf Hr1) as ((_ & _ & Hpc') & Hq' & He).
  split_and!; try done; try congruence.
  all: intros E; by rewrite E in Hpc'.
Qed.

Lemma wait_without_workers_blocks_witness :
  run no_workers (fresh 8) = Some (final 8 no_workers, trace 8 no_workers) ∧
  o_pc (final 8 no_workers) = CIdle ∧
  m_task_queue (final 8 no_workers) = [7%nat] ∧
  workers (final 8 no_workers) = [] ∧
  run (ACall OpDelete :: AOwner :: AOwner :: AOwner :: ASpurious TOwner :: [AOwner])
    (final 8 no_workers) =
    Some (final 8 (no_workers ++ ACall OpDelete :: AOwner :: AOwner :: AOwner ::
                     ASpurious TOwner :: [AOwner]), []) ∧
  o_pc (final 8 (no_workers ++ ACall OpDelete :: AOwner :: AOwner :: AOwner ::
                   ASpurious TOwner :: [AOwner])) ≠ CDestroyed.
Proof.
  split; [vm_compute; reflexivity|]. split; [vm_compute; reflexivity|].
  split; [vm_compute; reflexivity|]. split; [vm_compute; reflexivity|].
  assert (run (ACall OpDelete :: AOwner :: AOwner :: AOwner :: ASpurious TOwner :: [AOwner])
            (final 8 no_workers) =
          Some (final 8 (no_workers ++ ACall OpDelete :: AOwner :: AOwner :: AOwner ::
                           ASpurious TOwner :: [AOwner]), [])) as Hr
    by (vm_compute; reflexivity).
  split; [exact Hr|].
  apply (wait_without_workers_blocks (final 8 no_workers)
           (AOwner :: AOwner :: AOwner :: ASpurious TOwner :: [AOwner]) _ []);
    [vm_compute; reflexivity|vm_compute; discriminate| |vm_compute; reflexivity|
     by right].
  intros w wk Hl. vm_compute in Hl. by destruct w.
Defined.

(** ** The destructor *)










(** ** No wake-up is lost *)

Lemma sleepy_inv_step a s s' ev :
  mutex_inv s → sleepy_inv s → step a s = Next s' ev → sleepy_inv s'.
Proof.
  intros (_ & Ho & Hw & _) Hsl H.
  step_inv H.
  all: unfold sleepy_inv in *; simpl in *; use_notify; simpl in *; try done.
  all: intros w' wk' Hl' Hpc'.
  all: wk_cases; simplify_eq; simpl in *.
  all: try (by eapply Hsl).
  all: try (by destruct Hpc').
  all: norm_tests; try done.
  all: try (match goal with
            | Hp : w_pc ?y = WNotify ∨ _, E : w_pc ?y = w_pc _ |- _ =>
                rewrite E in Hp
            end; by eapply Hsl).
  all: try (by destruct Hpc' as [E|E]; rewrite E in *).
  - (* the push: the owner holds the mutex *)
    assert (m_task_queue_mutex s = Some (TWorker w')) as Hmw
      by (apply (Hw _ _ Hl'); by destruct Hpc' as [-> | ->]).
    assert (m_task_queue_mutex s = Some TOwner) by (by apply Ho). congruence.
  - (* line 54 to line 55 *)
    apply (Hsl w' w0 Heqo). by left.
  - (* the pop: another worker holds the mutex *)
    assert (m_task_queue_mutex s = Some (TWorker w')) as Hmw
      by (apply (Hw _ _ Hl'); by destruct Hpc' as [-> | ->]).
    assert (m_task_queue_mutex s = Some (TWorker w)) as Hmw'
      by (apply (Hw _ _ Heqo); by rewrite Heqw1).
    congruence.
Qed.

Lemma served_at_insert ms n (ws : list worker) (w : nat) wk0 pc' :
  served_at ms n ws → ws !! w = Some wk0 →
  keen pc' = true ∨ keen (w_pc wk0) = false →
  served_at ms n (<[w := Worker (w_index wk0) pc']> ws).
Proof.
  intros (p & id & wk & Hp & Hl & Hlt & Hk) Hl0 Hcase.
  destruct (decide (id = w)) as [->|Hne].
  - assert (wk = wk0) as -> by congruence.
    destruct Hcase as [Hk'|Hk']; [|congruence].
    exists p, w, (Worker (w_index wk0) pc'). split_and!; try done.
    apply list_lookup_insert_eq. by eapply lookup_lt_Some.
  - exists p, id, wk. split_and!; try done. by rewrite list_lookup_insert_ne.
Qed.

Lemma served_at_wake ms n (ws : list worker) :
  served_at ms n ws → served_at ms n (wake <$> ws).
Proof.
  intros (p & id & wk & Hp & Hl & Hlt & Hk).
  exists p, id, (wake wk). split_and!; try done.
  - by rewrite list_lookup_fmap, Hl.
  - unfold wake. by destruct (w_pc wk) eqn:E; simpl; rewrite ?E.
Qed.

Lemma served_at_wake_one ms n (ws : list worker) :
  served_at ms n ws → served_at ms n (wake_one ws).
Proof.
  intros (p & id & wk & Hp & Hl & Hlt & Hk).
  destruct (wake_one_lookup_inv _ _ _ Hl) as (wk' & Hl' & _ & [E|[E _]]).
  - exists p, id, wk'. split_and!; try done. by rewrite E.
  - by rewrite E in Hk.
Qed.

Lemma served_at_grow ms n n' ws : served_at ms n ws → n ≤ n' → served_at ms n' ws.
Proof.
  intros (p & id & wk & Hp & Hl & Hlt & Hk) Hle.
  exists p, id, wk. split_and!; try done. lia.
Qed.

Lemma served_at_snoc ms n (ws : list worker) id x :
  served_at ms n ws → served_at (ms ++ [id]) n (ws ++ [x]).
Proof.
  intros (p & id' & wk & Hp & Hl & Hlt & Hk).
  exists p, id', wk. split_and!; try done; by apply lookup_app_l_Some.
Qed.

Lemma served_at_removelast ms n (ws : list worker) :
  served_at ms n ws → n < Z.of_nat (length ms) → served_at (removelast ms) n ws.
Proof.
  intros (p & id & wk & Hp & Hl & Hlt & Hk) Hn.
  exists p, id, wk. split_and!; try done.
  destruct (decide (ms = [])) as [->|Hne]; [done|].
  destruct (exists_last Hne) as (ms' & y & ->).
  rewrite removelast_last. rewrite length_app in Hn. simpl in Hn.
  by rewrite lookup_app_l in Hp by lia.
Qed.

(** [notify_one] wakes a sleeping worker if there is one. *)
Lemma wake_one_cases ws :
  (∃ w wk, ws !! w = Some wk ∧ w_pc wk = WAsleep ∧
           wake_one ws !! w = Some (Worker (w_index wk) WWoken)) ∨
  (wake_one ws = ws ∧ ∀ w wk, ws !! w = Some wk → w_pc wk ≠ WAsleep).
Proof.
  induction ws as [|a ws IH]; [by right|]. simpl.
  destruct (w_pc a) eqn:E;
    try (destruct IH as [(w & wk & Hl & Hpc & Hl')|[-> Hno]];
         [left; by exists (S w), wk
         |right; split; [done|]; intros [|w] wk Hl; simpl in Hl; simplify_eq;
          [by rewrite E|by eapply Hno]]).
  left. by exists 0%nat, a.
Qed.

Lemma served_inv_step a s s' ev :
  good s → alive_inv s → sleepy_inv s →
  good s' → alive_inv s' → sleepy_inv s' →
  served_inv s → step a s = Next s' ev → served_inv s'.
Proof.
  intros Hg Hal Hsl Hg' Hal' Hsl' Hsv H Hu' Hq' Ht' Hth'.
  pose proof Hg as (((Hs & _) & (Hn & _ & _ & Hrg) & [(Hidx & Hnd & Hj) _] & _) & [Hc _] & Hpop).
  unfold served_inv, served, unserved_pc, pc_range in *.
  step_inv H.
  all: simpl in *; use_notify; simpl in *; norm_pc; simpl in *.
  all: try done.
  all: try (apply Hsv; try done; by destruct Hq' as [?|?]; auto).
  all: try (apply served_at_insert;
              [apply Hsv; try done; by destruct Hq' as [?|?]; auto
              |done
              |first [by left | by right; rewrite Heqw1]]; fail).
  all: clear Hg Hg'.
  all: try (use_stack Hs; simpl in *;
            apply Hsv; try done; try (by destruct Hq' as [?|?]; auto);
            apply negb_false_iff, Z.ltb_lt; norm_tests; lia).
  - (* line 44 *)
    destruct Hq' as [Hq'|?]; [|done].
    rewrite size_t_wrap_id in * by lia.
    destruct (decide (0 < m_num_threads s)).
    + eapply served_at_grow; [apply Hsv; auto|lia].
    + destruct (m_threads s); simpl in *; [done|lia].
  - (* line 46 *)
    destruct Hq' as [Hq'|?]; [|done].
    destruct (decide (m_threads s = [])) as [E|Hne].
    + exists 0%nat, (length (workers s)), (Worker i WAcquire).
      split_and!; try done; [by rewrite E|by apply list_lookup_middle].
    + apply served_at_snoc, Hsv; auto.
  - (* line 83 *)
    destruct Hq' as [Hq'|?]; [|done].
    destruct (m_threads s) as [|id ms] eqn:Em; [done|].
    destruct (Hidx 0%nat id) as (wk & Hl & Hi); [done|].
    exists 0%nat, id, (wake wk). split_and!; try done.
    + by rewrite list_lookup_fmap, Hl.
    + assert ((wake <$> workers s) !! id = Some (wake wk)) as Hl'
        by (by rewrite list_lookup_fmap, Hl).
      destruct (Hal' 0%nat id (wake wk)) as [Hf Hjn]; simpl; [by rewrite Em|done|done|].
      assert (w_pc (wake wk) ≠ WWaitRelease) as Hwr.
      { intros E. apply Hq'. apply (Hsl' id (wake wk)); [done|by right]. }
      assert (w_pc (wake wk) ≠ WAsleep) as Has
        by (unfold wake; by destruct (w_pc wk) eqn:E; simpl; rewrite ?E).
      by destruct (w_pc (wake wk)).
  - (* line 85 *)
    apply served_at_insert; [apply Hsv; auto|done|right; by rewrite Heqw0].
    by destruct Hq' as [?|?]; auto.
  - (* line 86 *)
    apply negb_false_iff, Z.ltb_lt in Hu'. destruct (Hc Hu') as [Hik Hsz].
    destruct Hq' as [Hq'|?]; [|done].
    apply served_at_removelast; [|lia].
    apply Hsv; auto; [by apply negb_false_iff, Z.ltb_lt|].
    intros E. by rewrite E in Hth'.
  - (* the notification after a submission *)
    destruct Hq' as [Hq'|?]; [|done].
    assert (owned s = m_threads s) as Eo by (unfold owned, popping; by rewrite Heqc).
    destruct (wake_one_cases (workers s)) as [(w & wk & Hl & Hpc & Hl')|[-> Hno]].
    + assert (w ∈ m_threads s) as Hin.
      { rewrite <-Eo. destruct (decide (w ∈ owned s)) as [|Hni]; [done|].
        apply (Hj w wk Hl) in Hni. congruence. }
      apply list_elem_of_lookup in Hin as [p Hp].
      exists p, w, (Worker (w_index wk) WWoken). split_and!; try done.
      apply lookup_lt_Some in Hp. lia.
    + destruct (m_threads s) as [|id ms] eqn:Em; [done|].
      destruct (Hidx 0%nat id) as (wk & Hl & Hi); [done|].
      exists 0%nat, id, wk. split_and!; try done.
      destruct (Hal 0%nat id wk) as [Hf Hjn]; [by rewrite Em|done|done|].
      assert (w_pc wk ≠ WWaitRelease) as Hwr.
      { intros E. apply Hq'. apply (Hsl id wk); [done|by right]. }
      specialize (Hno id wk Hl).
      by destruct (w_pc wk).
  - (* a worker about to wait has notified the owner *)
    exfalso. destruct Hq' as [Hq'|Hq']; [|by destruct (o_pc s)].
    apply Hq', (Hsl w w0); [done|by left].
  - (* a worker leaves its loop *)
    destruct (Hsv Hu' Hq' Ht' Hth') as (p & id & wk & Hp & Hl & Hlt & Hk).
    exists p, id, wk. split_and!; try done.
    rewrite list_lookup_insert_ne; [done|]. intros ->.
    destruct (Hidx _ _ Hp) as (wk' & Hl' & Hi). simplify_eq. norm_tests. lia.
Qed.

Lemma well_fresh hc : well (fresh hc).
Proof.
  split_and!; [apply good_fresh| | |].
  - by intros p id wk ?.
  - by intros w wk ?.
  - intros _ _ Ht. simpl in Ht. lia.
Qed.

Lemma well_step a s s' ev :
  well s → fits a s = true → step a s = Next s' ev → well s'.
Proof.
  intros (Hg & Hal & Hsl & Hsv) Hf H.
  assert (good s') as Hg' by (by eapply good_step).
  assert (alive_inv s') as Hal' by (by apply (alive_inv_step a s s' ev)).
  assert (sleepy_inv s') as Hsl'
    by (apply (sleepy_inv_step a s s' ev); [apply Hg|done..]).
  split_and!; try done. by apply (served_inv_step a s s' ev).
Qed.

Lemma well_run sch : ∀ s s' tr,
  well s → admissible sch s = true → run sch s = Some (s', tr) → well s'.
Proof.
  induction sch as [|a sch IH]; intros s s' tr Hw Had.
  - by intros [= <- <-].
  - intros (s1 & ev & tr' & Hs & Hr & ->)%run_cons. simpl in Had.
    apply andb_true_iff in Had as [Hf Had]. rewrite Hs in Had.
    eapply IH; [|done..]. by eapply well_step.
Qed.

Lemma well_reach hc sch s tr :
  admissible sch (fresh hc) = true → run sch (fresh hc) = Some (s, tr) → well s.
Proof. intros Ha Hr. eapply well_run; [apply well_fresh|done..]. Qed.


Lemma toil_insert (ws : list worker) w wk wk' :
  ws !! w = Some wk →
  (toil (<[w := wk']> ws) + rank (w_pc wk) = toil ws + rank (w_pc wk'))%nat.
Proof.
  assert (∀ a l, toil (a :: l) = (rank (w_pc a) + toil l)%nat) as Hc by done.
  revert w. induction ws as [|a ws IH]; intros [|w] Hl; try done.
  - simpl in Hl. simplify_eq. simpl. rewrite !Hc. lia.
  - simpl in Hl. specialize (IH w Hl). simpl. rewrite !Hc. lia.
Qed.






(** ** What a call of [wait_until_queue_completed] does *)

Lemma wait_rel_step Q0 n0 T0 H0 a s s' pre ev :
  wait_rel Q0 n0 T0 H0 s pre →
  is_call a = false → step a s = Next s' ev →
  wait_rel Q0 n0 T0 H0 s' (pre ++ ev).
Proof.
  intros (Hret & Hn & Ht & Hh & Hq & Hsub & Hfl & Hsp & Hj & Hm) Hc H.
  assert (H0 ++ dequeued (pre ++ ev) ≡ₚ started (pre ++ ev) ++ in_hand s') as Hh'.
  { rewrite dequeued_app, started_app, (assoc (++)), Hh, <-!(assoc (++)).
    by rewrite (hand_step a s s' ev H). }
  enough (o_ret s' = [] ∧ m_num_threads s' = n0 ∧ m_threads s' = T0 ∧
          Q0 = dequeued (pre ++ ev) ++ m_task_queue s' ∧
          submitted ev = [] ∧ flushed ev = [] ∧ spawns ev = [] ∧ joins ev = [] ∧
          match o_pc s' with
          | CWait99 | CWait100 | CWait100_asleep | CWait100_woken => True
          | CWait101 | CIdle => m_task_queue s' = []
          | _ => False
          end) as (? & ? & ? & ? & E1 & E2 & E3 & E4 & ?).
  { unfold wait_rel.
    rewrite submitted_app, flushed_app, spawns_app, joins_app, E1, E2, E3, E4,
      Hsub, Hfl, Hsp, Hj.
    by split_and!. }
  clear Hh Hh'. rewrite dequeued_app.
  step_inv H; try done.
  all: simpl; use_notify; simpl; rewrite ?app_nil_r.
  all: norm_pc; simpl in *; try done.
  - by rewrite app_nil_r.
  - by destruct (o_pc s).
  - rewrite <-(assoc (++)). by destruct (o_pc s).
Qed.

Lemma wait_rel_run Q0 n0 T0 H0 sch : ∀ s s' pre tr,
  wait_rel Q0 n0 T0 H0 s pre →
  calls_free sch = true → run sch s = Some (s', tr) →
  wait_rel Q0 n0 T0 H0 s' (pre ++ tr).
Proof.
  induction sch as [|a sch IH]; intros s s' pre tr Hrel Hf.
  - intros [= <- <-]. by rewrite app_nil_r.
  - intros (s1 & ev & tr' & Hs & Hr & ->)%run_cons. simpl in Hf.
    apply andb_true_iff in Hf as [Ha Hf]. apply negb_true_iff in Ha.
    rewrite (assoc (++)). apply (IH s1 s' (pre ++ ev) tr'); [|done..].
    by eapply wait_rel_step.
Qed.

Lemma wait_queue_effect s : mutex_inv s → o_pc s = CIdle → wait_effect s.
Proof.
  intros Hi Hpc sch s' tr Hf (s1 & ev & tr' & Hs & Hr & ->)%run_cons.
  simpl in Hs. unfold call in Hs. rewrite Hpc in Hs. simplify_eq.
  assert (wait_rel (m_task_queue s) (m_num_threads s) (m_threads s) (in_hand s)
            (set_pc CWait99 s) []) as Hrel.
  { pose proof (idle_ret s Hi Hpc). split_and!; try done. by rewrite app_nil_r. }
  eapply (wait_rel_run _ _ _ _ sch) in Hrel
    as (_ & ? & ? & ? & Hq & ? & ? & ? & ? & Hm); [|done..].
  simpl in *. split_and!; try done.
  intros Hpc'. rewrite Hpc' in Hm. rewrite Hm, app_nil_r in Hq. by split.
Qed.

(** X10: a call of [wait_until_queue_completed] that has returned leaves
    the queue empty, and the workers have taken every task that was queued
    at the call, in the order of the queue, each of them started or still
    in a worker's hand; during the call and until the next one no task is
    added or discarded, no thread is spawned or joined, and the target count
    and the handles stay as they were.  This holds under any interleaving
    and any spurious wake-ups. *)
Theorem wait_until_queue_completed_effect hc sch s tr :
  run sch (fresh hc) = Some (s, tr) → o_pc s = CIdle → wait_effect s.
Proof.
  intros Hr Hpc. apply wait_queue_effect; [|done].
  apply (inv_reach _ _ _ _ Hr).
Qed.


Lemma wait_until_queue_completed_effect_witness :
  run two_queued (fresh 8) = Some (final 8 two_queued, trace 8 two_queued) ∧
  o_pc (final 8 two_queued) = CIdle ∧
  m_task_queue (final 8 two_queued) = [2; 3]%nat ∧
  wait_effect (final 8 two_queued).
Proof.
  split; [vm_compute; reflexivity|]. split; [vm_compute; reflexivity|].
  split; [vm_compute; reflexivity|].
  apply (wait_until_queue_completed_effect 8 two_queued _ (trace 8 two_queued));
    vm_compute; reflexivity.
Defined.



(** ** The destructor on a pool with workers *)



Lemma in_hand_cases (ws : list worker) :
  ws ≫= holding = [] ∨ ∃ w wk, ws !! w = Some wk ∧ holding wk ≠ [].
Proof.
  induction ws as [|a ws IH]; [by left|]. rewrite bind_cons.
  destruct (holding a) as [|t l] eqn:E.
  - destruct IH as [->|(w & wk & Hl & Hh)]; [by left|].
    right. by exists (S w), wk.
  - right. exists 0%nat, a. split; [done|]. by rewrite E.
Qed.








(** ** C7: the joins, and the end of the destructor *)




(** ** Misuse of the queue and of the thread handles *)

(** X13: in an execution in which no call of [start_threads] overflows the
    target count, and while [shutdown_threads] closes fewer than 2^32
    workers, the queue and the thread handles are never misused: a worker
    reaches [front()] and [pop_front()] of lines 62-63 only with a task in
    the queue; [back()] and [join()] of line 85 find a handle, whose thread
    has not been joined; [pop_back()] of line 86 finds a handle, whose
    thread has been joined, so that no joinable thread is destroyed; the
    destructor finds [m_threads] empty at line 41; and so no step of the
    model is one of the faults it marks.  The unlocked write of line 44 is
    not among these: it is a step of the model, recorded in the trace. *)
Theorem no_misuse_of_queue_and_handles hc sch s tr :
  admissible sch (fresh hc) = true →
  run sch (fresh hc) = Some (s, tr) →
  closing_few s →
  (∀ w wk, workers s !! w = Some wk → w_pc wk = WPop → m_task_queue s ≠ []) ∧
  (∀ k i, o_pc s = CShut85 k i →
     ∃ id wk, last (m_threads s) = Some id ∧ workers s !! id = Some wk ∧
              w_pc wk ≠ WJoined) ∧
  (∀ k i, o_pc s = CShut86 k i →
     ∃ id wk, last (m_threads s) = Some id ∧ workers s !! id = Some wk ∧
              w_pc wk = WJoined) ∧
  (o_pc s = CDtor41 → m_threads s = []) ∧
  (∀ a, step a s ≠ Fault).
Proof.
  intros Ha Hr Hk. pose proof (good_reach _ _ _ _ Ha Hr) as Hg.
  pose proof Hg as ((_ & (Hn & _) & [(Hidx & Hnd & Hj) _] & _) & [Hc _] & Hpop).
  unfold closing_few in Hk. unfold owned, popping in Hj.
  assert (∀ k i, (k < unsigned_max → i < k ∧
                  Z.of_nat (length (m_threads s)) = m_num_threads s + (k - i)) →
                 k < unsigned_max →
                 ∃ l id wk, m_threads s = l ++ [id] ∧ last (m_threads s) = Some id ∧
                            workers s !! id = Some wk ∧ id ∉ l) as Hlast.
  { intros k i H Hlt. destruct (H Hlt) as [Hik Hsz].
    destruct (last (m_threads s)) as [id|] eqn:El.
    - apply last_Some in El as [l El]. rewrite El in Hnd.
      destruct (Hidx (length l) id) as (wk & Hl & _).
      { rewrite El. by apply list_lookup_middle. }
      exists l, id, wk. split_and!; try done.
      apply NoDup_app in Hnd as (_ & Hnd & _). intros Hin.
      apply (Hnd id Hin), list_elem_of_here.
    - apply last_None in El. rewrite El in Hsz. simpl in Hsz. lia. }
  assert (∀ w wk, workers s !! w = Some wk → w_pc wk = WPop →
                  m_task_queue s ≠ []) as H62.
  { intros w wk Hl Hpc. specialize (Hpop w wk Hl). by rewrite Hpc in Hpop. }
  assert (∀ k i, o_pc s = CShut85 k i →
            ∃ id wk, last (m_threads s) = Some id ∧ workers s !! id = Some wk ∧
                     w_pc wk ≠ WJoined) as H85.
  { intros k i E. rewrite E in Hc, Hk, Hj.
    destruct (Hlast _ _ Hc Hk) as (l & id & wk & El & Ela & Hl & Hni).
    exists id, wk. split_and!; try done. intros Ew.
    apply (Hj id wk Hl) in Ew. destruct Ew. rewrite El.
    apply elem_of_app. right. apply list_elem_of_here. }
  assert (∀ k i, o_pc s = CShut86 k i →
            ∃ id wk, last (m_threads s) = Some id ∧ workers s !! id = Some wk ∧
                     w_pc wk = WJoined) as H86.
  { intros k i E. rewrite E in Hc, Hk, Hj.
    destruct (Hlast _ _ Hc Hk) as (l & id & wk & El & Ela & Hl & Hni).
    exists id, wk. split_and!; try done.
    apply (Hj id wk Hl). by rewrite El, removelast_last. }
  assert (o_pc s = CDtor41 → m_threads s = []) as H41.
  { intros E. rewrite E in Hc. destruct (m_threads s); simpl in *; [done|lia]. }
  split_and!; try done.
  intros a. destruct a as [o| |w|[|w]]; simpl.
  - unfold call. by destruct (o_pc s), o.
  - unfold owner_step, lock, ret, submit_step.
    destruct (o_pc s) eqn:E; simpl; rewrite ?E.
    all: try (by unfold lock; repeat case_match).
    + (* line 85 *)
      destruct (H85 _ _ eq_refl) as (id & wk & -> & -> & Hnj).
      by destruct (w_pc wk).
    + (* line 86 *)
      destruct (H86 _ _ eq_refl) as (id & wk & -> & -> & Hjd).
      simpl. by rewrite Hjd.
    + (* line 41 *)
      by rewrite H41.
  - unfold worker_step, lock.
    destruct (workers s !! w) as [wk|] eqn:Hl; [|done].
    specialize (H62 w wk Hl).
    destruct (w_pc wk); simpl; repeat case_match; try done.
    all: by specialize (H62 eq_refl).
  - unfold spurious_step. by destruct (o_pc s).
  - unfold spurious_step. by repeat case_match.
Qed.

Lemma no_misuse_of_queue_and_handles_witness :
  admissible (take 36 lifecycle) (fresh 8) = true ∧
  run (take 36 lifecycle) (fresh 8) =
    Some (final 8 (take 36 lifecycle), trace 8 (take 36 lifecycle)) ∧
  o_pc (final 8 (take 36 lifecycle)) = CShut86 1 0 ∧
  closing_few (final 8 (take 36 lifecycle)) ∧
  (∃ id wk, last (m_threads (final 8 (take 36 lifecycle))) = Some id ∧
            workers (final 8 (take 36 lifecycle)) !! id = Some wk ∧
            w_pc wk = WJoined) ∧
  step AOwner (final 8 (take 36 lifecycle)) ≠ Fault.
Proof.
  split; [vm_compute; reflexivity|]. split; [vm_compute; reflexivity|].
  split; [vm_compute; reflexivity|]. split; [vm_compute; reflexivity|].
  destruct (no_misuse_of_queue_and_handles 8 (take 36 lifecycle)
              (final 8 (take 36 lifecycle)) (trace 8 (take 36 lifecycle)))
    as (_ & _ & H86 & _ & Hstep); [vm_compute; reflexivity..|].
  split; [apply (H86 1 0); vm_compute; reflexivity|apply Hstep].
Defined.

(** ** The workers on their own *)

(** A step of the thread that holds the mutex, or of a keen one when the
    mutex is free, brings the end of the work closer. *)
Lemma worker_step_effort s w wk :
  pop_inv s → workers s !! w = Some wk →
  keen (w_pc wk) = true ∨ w_pc wk = WWaitRelease →
  (holds_w (w_pc wk) = false → m_task_queue_mutex s = None) →
  ∃ s' ev, step (AWorker w) s = Next s' ev ∧ (effort s' < effort s)%nat.
Proof.
  intros Hp Hl Hk Hm. specialize (Hp w wk Hl).
  assert (∀ pc', (toil (<[w := Worker (w_index wk) pc']> (workers s)) + rank (w_pc wk)
                  = toil (workers s) + rank pc')%nat) as Ht
    by (intros pc'; apply (toil_insert _ _ _ (Worker (w_index wk) pc') Hl)).
  simpl. unfold worker_step, lock. rewrite Hl.
  destruct (w_pc wk) eqn:E; simpl in *; try (by destruct Hk);
    rewrite ?Hm by done.
  all: repeat match goal with
       | |- context [if ?b then _ else _] => destruct b eqn:?
       | |- context [match ?q with [] => Fault | _ => _ end] =>
           destruct q as [|t q'] eqn:Eq; [done|]
       end.
  all: eexists _, _; (split; [reflexivity|]); unfold effort; simpl; use_notify.
  all: match goal with
       | |- context [<[_ := Worker _ ?pc']> _] => pose proof (Ht pc') as Ht'
       end; simpl in Ht'; try lia.
  rewrite Eq. simpl. lia.
Qed.

Lemma pool_drains_aux n : ∀ s,
  well s → o_pc s = CIdle → 0 < m_num_threads s → (effort s < n)%nat →
  ∃ sch s' tr',
    workers_only sch = true ∧ run sch s = Some (s', tr') ∧
    m_task_queue s' = [] ∧ in_hand s' = [] ∧
    m_task_queue s = dequeued tr' ∧
    in_hand s ++ dequeued tr' ≡ₚ started tr'.
Proof.
  induction n as [|n IH]; intros s Hw Hpc Ht Hn; [lia|].
  pose proof Hw as (Hg & Hal & Hsl & Hsv).
  pose proof Hg as (((_ & Ho & Hwl1 & Hwl2) & _) & [Hc _] & Hpop).
  rewrite Hpc in Hc, Ho. simpl in Hc, Ho.
  destruct (decide (m_task_queue s = [] ∧ in_hand s = [])) as [[Hq Hh]|Hbusy].
  { exists [], s, []. rewrite Hq, Hh. by split_and!. }
  assert (∃ w wk, workers s !! w = Some wk ∧
                  (keen (w_pc wk) = true ∨ w_pc wk = WWaitRelease) ∧
                  (holds_w (w_pc wk) = false → m_task_queue_mutex s = None))
    as (w & wk & Hl & Hk & Hm).
  { destruct (m_task_queue_mutex s) as [[|w]|] eqn:Em.
    - by destruct Ho as [Ho _]; specialize (Ho eq_refl).
    - destruct (Hwl2 w eq_refl) as (wk & Hl & Hh). exists w, wk.
      split_and!; [done| |by rewrite Hh].
      destruct (w_pc wk); simpl in *; try done; auto.
    - destruct (in_hand_cases (workers s)) as [Hh|(w & wk & Hl & Hh)].
      + destruct Hsv as (p & id & wk & Hp & Hl & _ & Hk).
        * unfold unserved_pc. by rewrite Hpc.
        * left. intros Hq. by apply Hbusy.
        * done.
        * intros E. rewrite E in Hc. simpl in Hc. lia.
        * exists id, wk. auto.
      + exists w, wk. split_and!; [done| |done].
        specialize (Hwl1 w wk Hl). unfold holding in Hh.
        destruct (w_pc wk); simpl in *; try done; auto. }
  destruct (worker_step_effort s w wk Hpop Hl Hk Hm) as (s1 & ev & Hs & Hlt).
  assert (well s1) as Hw1 by (by apply (well_step (AWorker w) s s1 ev)).
  destruct (worker_step_frame w s s1 ev Hs) as [(Hpc1 & _ & Hn1 & _) _];
    [by rewrite Hpc|].
  destruct (worker_step_queue w s s1 ev (conj Hwl1 Hwl2) Hs) as (_ & Hq & _).
  pose proof (hand_step _ _ _ _ Hs) as Hh.
  destruct (IH s1 Hw1) as (sch & s' & tr' & Hf & Hr & Hq' & Hh' & Hd & Hst);
    [congruence|lia|lia|].
  exists (AWorker w :: sch), s', (ev ++ tr'). split_and!; try done.
  - apply run_cons. eauto 10.
  - by rewrite dequeued_app, Hq, Hd.
  - by rewrite dequeued_app, started_app, (assoc (++)), Hh, <-(assoc (++)), Hst.
Qed.

(** X14: on a pool whose target count never overflowed and is at least 1,
    between two member functions, the workers by themselves start every
    task: steps of the workers alone, with no call, no spurious wake-up and
    no step of the owner, lead to a state with the queue empty and no task in
    a worker's hand; on the way the tasks of the queue are dequeued in its
    order, and the tasks started are exactly those that were queued or in
    hand. *)
Theorem workers_start_every_task hc sch s tr :
  admissible sch (fresh hc) = true →
  run sch (fresh hc) = Some (s, tr) →
  o_pc s = CIdle → 0 < m_num_threads s →
  pool_drains s.
Proof.
  intros Ha Hr Hpc Ht. pose proof (well_reach _ _ _ _ Ha Hr) as Hw.
  destruct (pool_drains_aux (S (effort s)) s Hw Hpc Ht)
    as (sch' & s' & tr' & Hf & Hr' & Hq & Hh & Hd & Hst); [lia|].
  exists sch', s', tr'. split_and!; try done.
  by rewrite <-Hst, Hd.
Qed.

Lemma workers_start_every_task_witness :
  admissible two_queued (fresh 8) = true ∧
  run two_queued (fresh 8) = Some (final 8 two_queued, trace 8 two_queued) ∧
  o_pc (final 8 two_queued) = CIdle ∧
  m_num_threads (final 8 two_queued) = 1 ∧
  m_task_queue (final 8 two_queued) = [2; 3]%nat ∧
  in_hand (final 8 two_queued) = [1%nat] ∧
  pool_drains (final 8 two_queued).
Proof.
  split; [vm_compute; reflexivity|]. split; [vm_compute; reflexivity|].
  split; [vm_compute; reflexivity|]. split; [vm_compute; reflexivity|].
  split; [vm_compute; reflexivity|]. split; [vm_compute; reflexivity|].
  apply (workers_start_every_task 8 two_queued _ (trace 8 two_queued));
    vm_compute; reflexivity.
Defined.

(** ** No lost wake-up *)

(** X15: in an execution in which no call of [start_threads] overflows the
    target count no wake-up is lost.  A worker between the test of line 51
    and its sleep at line 55 holds the mutex and the queue is empty.  And
    whenever tasks are queued, or the owner sleeps at line 100, on a pool
    with handles and a target count of at least 1, some thread below the
    target count is neither asleep nor about to sleep nor gone, unless the
    owner stands between a change it made and the notification that
    follows it. *)
Theorem no_lost_wakeup hc sch s tr :
  admissible sch (fresh hc) = true →
  run sch (fresh hc) = Some (s, tr) →
  (∀ w wk, workers s !! w = Some wk →
     w_pc wk = WNotify ∨ w_pc wk = WWaitRelease →
     m_task_queue s = [] ∧ m_task_queue_mutex s = Some (TWorker w)) ∧
  (unserved_pc s = false →
   m_task_queue s ≠ [] ∨ o_pc s = CWait100_asleep →
   0 < m_num_threads s → m_threads s ≠ [] →
   ∃ p id wk, m_threads s !! p = Some id ∧ workers s !! id = Some wk ∧
              Z.of_nat p < m_num_threads s ∧ keen (w_pc wk) = true).
Proof.
  intros Ha Hr. destruct (well_reach _ _ _ _ Ha Hr) as (Hg & _ & Hsl & Hsv).
  destruct Hg as (((_ & _ & Hwl & _) & _) & _).
  split; [|exact Hsv].
  intros w wk Hl Hpc. split; [by apply (Hsl w wk)|].
  apply (Hwl w wk Hl). by destruct Hpc as [-> | ->].
Qed.

Lemma no_lost_wakeup_witness :
  admissible two_queued (fresh 8) = true ∧
  run two_queued (fresh 8) = Some (final 8 two_queued, trace 8 two_queued) ∧
  m_task_queue (final 8 two_queued) = [2; 3]%nat ∧
  ∃ p id wk, m_threads (final 8 two_queued) !! p = Some id ∧
             workers (final 8 two_queued) !! id = Some wk ∧
             Z.of_nat p < m_num_threads (final 8 two_queued) ∧
             keen (w_pc wk) = true.
Proof.
  split; [vm_compute; reflexivity|]. split; [vm_compute; reflexivity|].
  split; [vm_compute; reflexivity|].
  destruct (no_lost_wakeup 8 two_queued (final 8 two_queued) (trace 8 two_queued))
    as [_ H]; [vm_compute; reflexivity..|].
  apply H; [vm_compute; reflexivity|left; vm_compute; discriminate
           |vm_compute; reflexivity|vm_compute; discriminate].
Defined.

(** ** Who takes a task *)

Lemma taking_inv_step a s s' ev :
  good s → fits a s = true → taking_inv s → step a s = Next s' ev → taking_inv s'.
Proof.
  intros ((Hmx & (Hn & _ & _ & Hrg) & _ & _) & [Hc _] & _) Hf Ht H.
  destruct Hmx as (_ & Ho & Hwl & _).
  step_inv H.
  all: unfold taking_inv, pc_range in *; simpl in *; use_notify.
  all: simpl in *; try done.
  all: intros w' wk' Hl' Hpc'.
  all: wk_cases; simplify_eq; simpl in *.
  all: try (by eapply Ht).
  all: norm_tests; try lia.
  all: try (match goal with
            | E : w_index ?a = w_index ?b |- w_index ?a < _ =>
                rewrite E; eapply Ht; [done|congruence]
            end).
  - (* line 44 *)
    specialize (Ht w' wk' Hl' Hpc'). rewrite Heqc in Hrg.
    rewrite size_t_wrap_id by lia. lia.
  - (* line 79 *)
    specialize (Hwl w' wk' Hl'). rewrite Hpc' in Hwl.
    destruct Ho as [_ Ho]. specialize (Ho eq_refl). rewrite Ho in Hwl.
    by specialize (Hwl eq_refl).
Qed.

Lemma taking_run sch : ∀ s s' tr,
  good s → taking_inv s → admissible sch s = true → run sch s = Some (s', tr) →
  taking_inv s'.
Proof.
  induction sch as [|a sch IH]; intros s s' tr Hg Ht Had.
  - by intros [= <- <-].
  - intros (s1 & ev & tr' & Hs & Hr & ->)%run_cons. simpl in Had.
    apply andb_true_iff in Had as [Hf Had]. rewrite Hs in Had.
    eapply (IH s1); [by eapply good_step|by eapply taking_inv_step|done..].
Qed.

(** X16: in an execution in which no call of [start_threads] overflows the
    target count, a worker takes a task from the queue (lines 62-63) only
    while its index is below the target count: a thread that
    [shutdown_threads] has told to close never dequeues another task. *)
Theorem dequeue_below_target hc sch s tr w s' ev t :
  admissible sch (fresh hc) = true →
  run sch (fresh hc) = Some (s, tr) →
  step (AWorker w) s = Next s' ev → EvDequeue w t ∈ ev →
  ∃ wk, workers s !! w = Some wk ∧ w_pc wk = WPop ∧
        w_index wk < m_num_threads s ∧
        m_task_queue_mutex s = Some (TWorker w).
Proof.
  intros Ha Hr Hs Hin.
  assert (taking_inv s) as Ht.
  { eapply taking_run; [apply good_fresh| |done..]. by intros w' wk' ?. }
  destruct (good_reach _ _ _ _ Ha Hr) as (((_ & _ & Hwl & _) & _) & _).
  simpl in Hs. unfold worker_step, lock in Hs.
  destruct (workers s !! w) as [wk|] eqn:Hl; [|done].
  exists wk.
  destruct (w_pc wk) eqn:Hpc; simpl in Hs;
    repeat case_match; simplify_eq;
    repeat match goal with
    | H : _ ∈ [] |- _ => by apply elem_of_nil in H
    | H : _ ∈ _ :: _ |- _ => apply elem_of_cons in H as [H|H]; [done|]
    end.
  split_and!; [done|done|by apply (Ht w wk)|].
  apply (Hwl w wk Hl). by rewrite Hpc.
Qed.

Lemma dequeue_below_target_witness :
  admissible (take 25 two_queued) (fresh 8) = true ∧
  run (take 25 two_queued) (fresh 8) =
    Some (final 8 (take 25 two_queued), trace 8 (take 25 two_queued)) ∧
  step (AWorker 0) (final 8 (take 25 two_queued)) =
    Next (final 8 (take 26 two_queued))
      [EvWrite (TWorker 0) VQueue (Some (TWorker 0)); EvDequeue 0 1%nat] ∧
  ∃ wk, workers (final 8 (take 25 two_queued)) !! 0%nat = Some wk ∧
        w_pc wk = WPop ∧
        w_index wk < m_num_threads (final 8 (take 25 two_queued)) ∧
        m_task_queue_mutex (final 8 (take 25 two_queued)) = Some (TWorker 0).
Proof.
  split; [vm_compute; reflexivity|]. split; [vm_compute; reflexivity|].
  split; [vm_compute; reflexivity|].
  apply (dequeue_below_target 8 (take 25 two_queued) _
           (trace 8 (take 25 two_queued)) 0%nat
           (final 8 (take 26 two_queued))
           [EvWrite (TWorker 0) VQueue (Some (TWorker 0)); EvDequeue 0 1%nat]
           1%nat); [vm_compute; reflexivity..|].
  apply list_elem_of_further, list_elem_of_here.
Defined.
